(** * LaTeX-to-Word converter: the document refinement pipeline

    A shallow embedding of [latex_to_word.py] (class [LaTeXToWordConverter])
    and the properties of its refinement pipeline.

    Layout of the development:
    - [Py]: the fragment of Python's [str] the converter uses (code points,
      [strip], [split], [join], [startswith], [in], [replace]);
    - [Re]: the fragment of Python's [re] the converter uses (a backtracking
      matcher with greedy quantifiers, groups and back-references, [re.sub]);
    - [Docx]: the fragment of the python-docx object model the converter
      reads and mutates;
    - [Converter]: the methods of [LaTeXToWordConverter], one definition per
      method, with explicit state passing for the mutated document and an
      outcome type for raised exceptions;
    - the lemmas and theorems. *)

From Stdlib Require Import NArith ZArith Lia Bool Ascii String.
From stdpp Require Import base numbers option list gmap strings.

Local Open Scope N_scope.

(** ** Python strings *)

Module Py.

(** A Python [str] is a sequence of Unicode code points. *)
Abbreviation char := N.
Abbreviation str := (list N).

(** String literals of the source are written as UTF-8 byte strings and
    decoded to code points. *)
Fixpoint utf8_go (bs : list N) (acc : N) (k : nat) : str :=
  match bs with
  | [] => []
  | b :: bs' =>
      match k with
      | O =>
          if b <? 0x80 then b :: utf8_go bs' 0 0
          else if b <? 0xE0 then utf8_go bs' (N.land b 0x1F) 1
          else if b <? 0xF0 then utf8_go bs' (N.land b 0x0F) 2
          else utf8_go bs' (N.land b 0x07) 3
      | S O => (acc * 64 + N.land b 0x3F) :: utf8_go bs' 0 0
      | S k' => utf8_go bs' (acc * 64 + N.land b 0x3F) k'
      end
  end.

Definition U (s : string) : str :=
  utf8_go (map N_of_ascii (list_ascii_of_string s)) 0 0.

(** [str.isspace] for one character; also what [\s] matches and what
    [str.strip] removes (the characters CPython's [Py_UNICODE_ISSPACE]
    accepts). *)
Definition isspace (c : char) : bool :=
  ((0x09 <=? c) && (c <=? 0x0D)) || ((0x1C <=? c) && (c <=? 0x20))
  || (c =? 0x85) || (c =? 0xA0) || (c =? 0x1680)
  || ((0x2000 <=? c) && (c <=? 0x200A))
  || (c =? 0x2028) || (c =? 0x2029) || (c =? 0x202F) || (c =? 0x205F)
  || (c =? 0x3000).

(** First code point of every block of ten decimal digits (category Nd,
    Unicode 14), without the mathematical digits, which form one run of
    fifty. *)
Definition decimal_zeros : list N :=
  [ 0x30; 0x660; 0x6F0; 0x7C0; 0x966; 0x9E6; 0xA66; 0xAE6; 0xB66; 0xBE6;
    0xC66; 0xCE6; 0xD66; 0xDE6; 0xE50; 0xED0; 0xF20; 0x1040; 0x1090;
    0x17E0; 0x1810; 0x1946; 0x19D0; 0x1A80; 0x1A90; 0x1B50; 0x1BB0;
    0x1C40; 0x1C50; 0xA620; 0xA8D0; 0xA900; 0xA9D0; 0xA9F0; 0xAA50;
    0xABF0; 0xFF10; 0x104A0; 0x10D30; 0x11066; 0x110F0; 0x11136; 0x111D0;
    0x112F0; 0x11450; 0x114D0; 0x11650; 0x116C0; 0x11730; 0x118E0;
    0x11950; 0x11C50; 0x11D50; 0x11DA0; 0x16A60; 0x16AC0; 0x16B50;
    0x1E140; 0x1E2F0; 0x1E950; 0x1FBF0 ].

(** What [\d] matches in a [str] pattern: any Unicode decimal digit. *)
Definition isdecimal (c : char) : bool :=
  existsb (fun z => (z <=? c) && (c <? z + 10)) decimal_zeros
  || ((0x1D7CE <=? c) && (c <=? 0x1D7FF)).

(** [s.startswith(w)] *)
Fixpoint startswith (w s : str) : bool :=
  match w, s with
  | [], _ => true
  | _ :: _, [] => false
  | a :: w', b :: s' => (a =? b) && startswith w' s'
  end.

(** [w in s] *)
Fixpoint contains (w s : str) : bool :=
  startswith w s ||
  match s with
  | [] => false
  | _ :: s' => contains w s'
  end.

(** [s.lstrip()], [s.rstrip()], [s.strip()] *)
Fixpoint lstrip (s : str) : str :=
  match s with
  | [] => []
  | c :: s' => if isspace c then lstrip s' else s
  end.

Fixpoint rstrip (s : str) : str :=
  match s with
  | [] => []
  | c :: s' =>
      match rstrip s' with
      | [] => if isspace c then [] else [c]
      | r => c :: r
      end
  end.

Definition strip (s : str) : str := rstrip (lstrip s).

(** [s.split(sep)] for a separator of one character: the result is never
    empty, and [''.split(sep)] is [['']]. *)
Fixpoint split (sep : char) (s : str) : list str :=
  match s with
  | [] => [[]]
  | c :: s' =>
      if c =? sep then [] :: split sep s'
      else match split sep s' with
           | l :: ls => (c :: l) :: ls
           | [] => [[c]]
           end
  end.

(** [sep.join(ls)] *)
Fixpoint join (sep : str) (ls : list str) : str :=
  match ls with
  | [] => []
  | l :: ls' =>
      match ls' with
      | [] => l
      | _ :: _ => l ++ sep ++ join sep ls'
      end
  end.

(** [s.replace(old, new)] for a non-empty [old]: occurrences are found
    left to right and do not overlap. [skip] counts the characters of the
    occurrence just replaced that are still to be passed over. *)
Fixpoint replace_go (old new : str) (skip : nat) (s : str) : str :=
  match s with
  | [] => []
  | c :: s' =>
      match skip with
      | S n => replace_go old new n s'
      | O =>
          if startswith old s
          then new ++ replace_go old new (pred (length old)) s'
          else c :: replace_go old new 0 s'
      end
  end.

Definition replace (old new s : str) : str := replace_go old new 0 s.

Definition LF : char := 0x0A.

End Py.

(** ** Python regular expressions *)

Module Re.
Import Py.

(** Character classes of the patterns: [\d] and [\s]. *)
Inductive cclass : Type := Digit | Space.

Definition in_class (k : cclass) (c : char) : bool :=
  match k with
  | Digit => isdecimal c
  | Space => isspace c
  end.

(** The pattern syntax the converter uses. [Group n r] is the [n]-th
    parenthesis of the pattern, [Backref n] is [\n], [Star] and [Opt] are
    the greedy [*] and [?], [Bol] and [Eol] are [^] and [$] without the
    MULTILINE flag. *)
Inductive regex : Type :=
| Eps
| Chr (c : char)
| Cls (k : cclass)
| Seq (r1 r2 : regex)
| Group (n : nat) (r : regex)
| Backref (n : nat)
| Star (r : regex)
| Opt (r : regex)
| Bol
| Eol.

(** A literal run of characters, [r+] and [r{n}]. *)
Fixpoint Lit (w : str) : regex :=
  match w with
  | [] => Eps
  | c :: w' => Seq (Chr c) (Lit w')
  end.

Definition Plus (r : regex) : regex := Seq r (Star r).

(** The concatenation of the parts of a pattern, in order. *)
Fixpoint cat (rs : list regex) : regex :=
  match rs with
  | [] => Eps
  | r :: rs' => Seq r (cat rs')
  end.

Fixpoint Rep (n : nat) (r : regex) : regex :=
  match n with
  | O => Eps
  | S n' => Seq r (Rep n' r)
  end.

(** Text captured by the groups that took part in the match, latest
    first. *)
Definition groups : Type := list (nat * str).

Fixpoint group (g : groups) (n : nat) : option str :=
  match g with
  | [] => None
  | (i, w) :: g' => if Nat.eqb i n then Some w else group g' n
  end.

(** The backtracking matcher, in continuation-passing style: [run r pos s
    g k] matches [r] at offset [pos], where [s] is the text from [pos] on,
    and hands the offset, the rest of the text and the groups to [k]; when
    [k] fails the matcher tries the next alternative, the longer one
    first. *)
Fixpoint run {R : Type} (r : regex) (pos : nat) (s : str) (g : groups)
    (k : nat -> str -> groups -> option R) {struct r} : option R :=
  match r with
  | Eps => k pos s g
  | Chr c =>
      match s with
      | c' :: s' => if c' =? c then k (S pos) s' g else None
      | [] => None
      end
  | Cls cl =>
      match s with
      | c' :: s' => if in_class cl c' then k (S pos) s' g else None
      | [] => None
      end
  | Seq r1 r2 =>
      run r1 pos s g (fun pos' s' g' => run r2 pos' s' g' k)
  | Group n r1 =>
      run r1 pos s g
        (fun pos' s' g' => k pos' s' ((n, take (pos' - pos) s) :: g'))
  | Backref n =>
      match group g n with
      | Some w =>
          if startswith w s
          then k (pos + length w)%nat (drop (length w) s) g
          else None
      | None => None
      end
  | Star r1 =>
      (fix loop (fuel : nat) (pos : nat) (s : str) (g : groups)
         : option R :=
         match fuel with
         | O => k pos s g
         | S fuel' =>
             match run r1 pos s g
                     (fun pos' s' g' =>
                        if Nat.ltb pos pos' then loop fuel' pos' s' g'
                        else None)
             with
             | Some x => Some x
             | None => k pos s g
             end
         end) (length s) pos s g
  | Opt r1 =>
      match run r1 pos s g k with
      | Some x => Some x
      | None => k pos s g
      end
  | Bol => if Nat.eqb pos 0 then k pos s g else None
  | Eol =>
      match s with
      | [] => k pos s g
      | [c] => if c =? LF then k pos s g else None
      | _ :: _ :: _ => None
      end
  end.

(** The match of [r] that starts at offset [pos], if there is one: its
    length and its groups. *)
Definition match_at (r : regex) (pos : nat) (s : str)
    : option (nat * groups) :=
  run r pos s [] (fun pos' _ g => Some ((pos' - pos)%nat, g)).

(** [re.match(r, s)] as a truth value. *)
Definition re_match (r : regex) (s : str) : bool :=
  bool_decide (is_Some (match_at r 0 s)).

(** Replacement templates: literal text and [\n] references. A group
    that did not take part in the match expands to the empty string. *)
Inductive titem : Type :=
| TLit (w : str)
| TRef (n : nat).

Definition template : Type := list titem.

Fixpoint expand (t : template) (g : groups) : str :=
  match t with
  | [] => []
  | TLit w :: t' => w ++ expand t' g
  | TRef n :: t' => default [] (group g n) ++ expand t' g
  end.

(** [re.sub(r, t, s)]: the matches are found left to right and do not
    overlap. [skip] counts the characters of the match just replaced that
    are still to be passed over; an empty match is replaced and the
    character after it is kept. *)
Fixpoint sub_go (r : regex) (t : template) (pos skip : nat) (s : str)
    {struct s} : str :=
  match skip with
  | S n =>
      match s with
      | [] => []
      | _ :: s' => sub_go r t (S pos) n s'
      end
  | O =>
      match match_at r pos s with
      | Some (len, g) =>
          expand t g ++
          match s with
          | [] => []
          | c :: s' =>
              match len with
              | O => c :: sub_go r t (S pos) 0 s'
              | S n => sub_go r t (S pos) n s'
              end
          end
      | None =>
          match s with
          | [] => []
          | c :: s' => c :: sub_go r t (S pos) 0 s'
          end
      end
  end.

Definition sub (r : regex) (t : template) (s : str) : str :=
  sub_go r t 0 0 s.

(** An ordered rule table, applied as the source's
    [for pattern, replacement in replacements: text = re.sub(...)]. *)
Definition rule : Type := regex * template.

Definition apply_rules (rules : list rule) (text : str) : str :=
  fold_left (fun t pr => sub pr.1 pr.2 t) rules text.

End Re.

(** ** Outcomes and state *)

(** Exceptions the modelled code can raise. *)
Inductive exn : Type :=
| KeyError (key : string)
| IndexError
| FileNotFoundError
| PackageNotFoundError (path : string)
| UnrecognizedImageError
| AttributeError
| ValueError
| OSError (msg : string).

(** A call either returns a value or raises. *)
Inductive outcome (A : Type) : Type :=
| Returned (a : A)
| Raised (e : exn).
Arguments Returned {A} a.
Arguments Raised {A} e.

(** A method that mutates a state of type [S]: the state it leaves behind
    is part of the result also when it raises. *)
Definition M (S A : Type) : Type := S -> outcome A * S.

Definition ret {S A : Type} (a : A) : M S A := fun s => (Returned a, s).

Definition bind {S A B : Type} (c : M S A) (k : A -> M S B) : M S B :=
  fun s =>
    match c s with
    | (Returned a, s') => k a s'
    | (Raised e, s') => (Raised e, s')
    end.

Definition raise {S A : Type} (e : exn) : M S A := fun s => (Raised e, s).
Definition get {S : Type} : M S S := fun s => (Returned s, s).
Definition put {S : Type} (s : S) : M S unit := fun _ => (Returned tt, s).
Definition modify {S : Type} (f : S -> S) : M S unit :=
  fun s => (Returned tt, f s).

Declare Scope py_scope.
Delimit Scope py_scope with py.
Notation "x <- c ;; k" := (bind c (fun x => k))
  (at level 100, c at level 99, k at level 200,
   right associativity) : py_scope.
Notation "c ;; k" := (bind c (fun _ => k))
  (at level 100, k at level 200, right associativity) : py_scope.

(** ** The python-docx object model *)

Module Docx.
Import Py.

(** Lengths are integers in English Metric Units, as [docx.shared.Length].
    [Cm] takes tenths of a centimetre, so that [Cm(29.7)] is [Cm 297]. *)
Definition Length : Type := Z.
Definition Pt (points : Z) : Length := (points * 12700)%Z.
Definition Cm (tenths : Z) : Length := (tenths * 36000)%Z.

(** Paragraph formats and sections keep their lengths in twentieths of a
    point, 635 EMU each: a length is rounded to the nearest twip when it is
    assigned and read back as a whole number of twips. No length lies
    halfway between two twips, 635 being odd. *)
Definition twips (l : Length) : Z := ((2 * l + 635) / 1270)%Z.
Definition Twips (n : Z) : Length := (n * 635)%Z.

(** Assigning a length to an attribute of type [ST_TwipsMeasure] (the
    space before and after a paragraph, the page size, the left and right
    margins) or [ST_SignedTwipsMeasure] (the indents, the top and bottom
    margins): the length is validated first, and one out of range is
    refused with a [ValueError]; the result is the length as it is read
    back. *)
Definition unsigned_twips (v : Length) : outcome Length :=
  if ((v <? 0) || (18446744073709551615 <? v))%Z then Raised ValueError
  else Returned (Twips (twips v)).

Definition signed_twips (v : Length) : outcome Length :=
  if ((v <? -2147483648) || (2147483647 <? v))%Z then Raised ValueError
  else Returned (Twips (twips v)).

(** [line_spacing] is either a multiple of the line height (a float in the
    source, here in tenths: [0.9] is [Multiple 9]) or a fixed length. *)
Inductive Spacing : Type :=
| Multiple (tenths : Z)
| Exactly (l : Length).

Inductive WD_ALIGN_PARAGRAPH : Type := LEFT | CENTER | RIGHT | JUSTIFY.

Definition RGBColor : Type := (N * N * N)%type.

Record Font : Type := mkFont {
  name : option string;
  size : option Length;
  bold : option bool;
  color_rgb : option RGBColor
}.

Record ParagraphFormat : Type := mkParagraphFormat {
  line_spacing : option Spacing;
  space_before : option Length;
  space_after : option Length;
  first_line_indent : option Length;
  left_indent : option Length
}.

Record Picture : Type := mkPicture {
  pic_path : string;
  pic_width : Length;
  pic_height : Length
}.

(** A run: its text as [run.text] returns it, its font, and the inline
    picture it may hold. *)
Record Run : Type := mkRun {
  run_text : str;
  font : Font;
  picture : option Picture
}.

Record Paragraph : Type := mkParagraph {
  runs : list Run;
  style : option string;
  alignment : option WD_ALIGN_PARAGRAPH;
  paragraph_format : ParagraphFormat
}.

(** A cell is the list of its paragraphs, a row the list of its cells, a
    table the list of its rows. Cells are taken to be distinct objects:
    merged cells, which python-docx reports once per grid position, are
    not modelled. *)
Definition Cell : Type := list Paragraph.
Definition Row : Type := list Cell.
Definition Table : Type := list Row.

Record Style : Type := mkStyle {
  style_font : Font;
  style_paragraph_format : ParagraphFormat
}.

Record Section : Type := mkSection {
  top_margin : option Length;
  bottom_margin : option Length;
  left_margin : option Length;
  right_margin : option Length;
  page_width : option Length;
  page_height : option Length
}.

(** [doc.paragraphs] and [doc.tables] are the top-level paragraphs and
    tables of the body; [doc.styles] is looked up by style name. *)
Record Document : Type := mkDocument {
  paragraphs : list Paragraph;
  tables : list Table;
  styles : gmap string Style;
  sections : list Section
}.

Definition no_font : Font := mkFont None None None None.
Definition no_format : ParagraphFormat :=
  mkParagraphFormat None None None None None.

(** [paragraph.add_run(text)] on a paragraph without runs. *)
Definition new_run (t : str) : Run := mkRun t no_font None.

(** [paragraph.text], getter and setter: the setter replaces all runs by
    a single new one and keeps the paragraph's own formatting. Texts are
    taken to be free of carriage returns, which python-docx would store as
    line breaks. *)
Definition text (p : Paragraph) : str := concat (map run_text (runs p)).

Definition set_text (t : str) (p : Paragraph) : Paragraph :=
  mkParagraph [new_run t] (style p) (alignment p) (paragraph_format p).

(** [run.text = t] keeps the run's font and drops its other content. *)
Definition set_run_text (t : str) (r : Run) : Run :=
  mkRun t (font r) None.

(** [cell.text], getter and setter: the setter leaves one new paragraph
    with one run. *)
Definition cell_text (c : Cell) : str := join [LF] (map text c).

Definition set_cell_text (t : str) : Cell :=
  [mkParagraph [new_run t] None None no_format].

(** [paragraph.clear()] *)
Definition clear (p : Paragraph) : Paragraph :=
  mkParagraph [] (style p) (alignment p) (paragraph_format p).

(** The setters of [paragraph.paragraph_format] the converter uses on a
    paragraph. One that refuses its value leaves the paragraph as it
    was. *)
Definition set_format (f : ParagraphFormat) (p : Paragraph) : Paragraph :=
  mkParagraph (runs p) (style p) (alignment p) f.

Definition set_left_indent (v : Length) : M Paragraph unit :=
  fun p =>
    let f := paragraph_format p in
    match signed_twips v with
    | Returned l =>
        (Returned tt,
         set_format
           (mkParagraphFormat (line_spacing f) (space_before f)
              (space_after f) (first_line_indent f) (Some l)) p)
    | Raised e => (Raised e, p)
    end.

Definition set_space_before (v : Length) : M Paragraph unit :=
  fun p =>
    let f := paragraph_format p in
    match unsigned_twips v with
    | Returned l =>
        (Returned tt,
         set_format
           (mkParagraphFormat (line_spacing f) (Some l) (space_after f)
              (first_line_indent f) (left_indent f)) p)
    | Raised e => (Raised e, p)
    end.

Definition set_space_after (v : Length) : M Paragraph unit :=
  fun p =>
    let f := paragraph_format p in
    match unsigned_twips v with
    | Returned l =>
        (Returned tt,
         set_format
           (mkParagraphFormat (line_spacing f) (space_before f) (Some l)
              (first_line_indent f) (left_indent f)) p)
    | Raised e => (Raised e, p)
    end.

Definition set_line_spacing (v : Spacing) : M Paragraph unit :=
  fun p =>
    let f := paragraph_format p in
    (Returned tt,
     set_format
       (mkParagraphFormat (Some v) (space_before f) (space_after f)
          (first_line_indent f) (left_indent f)) p).

End Docx.

(** ** The operating system *)

Module Os.

(** What a path holds: a Word document python-docx can load, an image
    python-docx can embed, or anything else. *)
Inductive File : Type :=
| DocxFile (d : Docx.Document)
| ImageFile
| OtherFile.

(** The file system, keyed by the path as the program writes it, and the
    command lines handed to [subprocess.run] so far, latest first. *)
Record World : Type := mkWorld {
  files : gmap string File;
  spawned : list (list string)
}.

(** What [subprocess.run] does with a command line: it raises, or the
    process exits with a return code after it may have written the file
    named by [-o]. *)
Inductive Launch : Type :=
| SpawnRaised (e : exn)
| Exited (returncode : Z) (written : option File).

(** What the program cannot decide by itself. *)
Record Env : Type := mkEnv {
  abspath : string -> string;
  getcwd : string;
  subprocess_run : list string -> World -> Launch;
  save_error : string -> World -> option exn
}.

(** [os.path.exists], [os.remove] *)
Definition path_exists (w : World) (p : string) : bool :=
  bool_decide (is_Some (files w !! p)).

Definition remove (p : string) (w : World) : World :=
  mkWorld (delete p (files w)) (spawned w).

Definition write (p : string) (f : File) (w : World) : World :=
  mkWorld (<[p := f]> (files w)) (spawned w).

(** [posixpath.split]: the head up to the last slash and the tail after
    it; trailing slashes are stripped from the head unless it consists of
    slashes only. *)
Definition is_slash (c : ascii) : bool := Ascii.eqb c "/"%char.

Fixpoint split_last (p : list ascii) : list ascii * list ascii :=
  match p with
  | [] => ([], [])
  | c :: p' =>
      match split_last p' with
      | ([], t) => if is_slash c then ([c], t) else ([], c :: t)
      | (h, t) => (c :: h, t)
      end
  end.

Fixpoint rstrip_slash (p : list ascii) : list ascii :=
  match p with
  | [] => []
  | c :: p' =>
      match rstrip_slash p' with
      | [] => if is_slash c then [] else [c]
      | r => c :: r
      end
  end.

Definition dirname (p : string) : string :=
  let h := (split_last (list_ascii_of_string p)).1 in
  string_of_list_ascii (if forallb is_slash h then h else rstrip_slash h).

Definition basename (p : string) : string :=
  string_of_list_ascii (split_last (list_ascii_of_string p)).2.

(** [posixpath.join] of two components. *)
Definition join (a b : string) : string :=
  match list_ascii_of_string b with
  | c :: _ =>
      if is_slash c then b
      else match last (list_ascii_of_string a) with
           | None => b
           | Some z => if is_slash z then (a +:+ b)%string
                       else (a +:+ "/" +:+ b)%string
           end
  | [] =>
      match last (list_ascii_of_string a) with
      | None => b
      | Some z => if is_slash z then a else (a +:+ "/")%string
      end
  end.

End Os.

(** ** The converter *)

Module Converter.
Import Py Re Docx Os.
Local Open Scope py_scope.
Local Open Scope string_scope.
Local Open Scope list_scope.

(** [self.tex_file], [self.docx_file]; [self.doc] is part of the state. *)
Record Self : Type := mkSelf {
  tex_file : string;
  docx_file : string
}.

Record State : Type := mkState {
  world : World;
  doc : option Document
}.

(** *** Loops

    [for x in xs: body(x)] where the body mutates [x] only: a body that
    cannot raise is a [map]; one that can raise stops at the first
    exception and leaves the rest as it was. *)
Fixpoint for_each {A : Type} (body : A -> outcome A) (l : list A)
    : outcome unit * list A :=
  match l with
  | [] => (Returned tt, [])
  | x :: l' =>
      match body x with
      | Returned x' =>
          let (o, l'') := for_each body l' in (o, x' :: l'')
      | Raised e => (Raised e, x :: l')
      end
  end.

(** The same for a body that mutates [x] step by step and may raise half
    way: the element it stopped at stays as the body left it. *)
Fixpoint for_each_mutating {A : Type} (body : M A unit) (l : list A)
    : outcome unit * list A :=
  match l with
  | [] => (Returned tt, [])
  | x :: l' =>
      match body x with
      | (Returned _, x') =>
          let (o, l'') := for_each_mutating body l' in (o, x' :: l'')
      | (Raised e, x') => (Raised e, x' :: l')
      end
  end.

Definition set_paragraphs (ps : list Paragraph) (d : Document) : Document :=
  mkDocument ps (tables d) (styles d) (sections d).
Definition set_tables (ts : list Table) (d : Document) : Document :=
  mkDocument (paragraphs d) ts (styles d) (sections d).
Definition set_styles (st : gmap string Style) (d : Document) : Document :=
  mkDocument (paragraphs d) (tables d) st (sections d).
Definition set_sections (ss : list Section) (d : Document) : Document :=
  mkDocument (paragraphs d) (tables d) (styles d) ss.

(** [for paragraph in self.doc.paragraphs: ...] *)
Definition each_paragraph (f : Paragraph -> Paragraph) (d : Document)
    : Document :=
  set_paragraphs (map f (paragraphs d)) d.

(** [for table in self.doc.tables: for row in table.rows:
     for cell in row.cells: for paragraph in cell.paragraphs: ...] *)
Definition each_table_paragraph (f : Paragraph -> Paragraph) (d : Document)
    : Document :=
  set_tables (map (map (map (map f))) (tables d)) d.

(** [text = f(paragraph.text); if text != paragraph.text:
     paragraph.text = text], and the same for a run. *)
Definition update_text (f : str -> str) (p : Paragraph) : Paragraph :=
  let t := f (text p) in
  if decide (t = text p) then p else set_text t p.

Definition update_run (f : str -> str) (r : Run) : Run :=
  let t := f (run_text r) in
  if decide (t = run_text r) then r else set_run_text t r.

Definition update_runs (f : str -> str) (p : Paragraph) : Paragraph :=
  mkParagraph (map (update_run f) (runs p)) (style p) (alignment p)
    (paragraph_format p).

(** *** Style and layout *)

Definition _setup_document_styles : M Document unit :=
  fun d =>
    match styles d !! "Normal" with
    | None => (Raised (KeyError "Normal"), d)
    | Some normal_style =>
        let normal_font := style_font normal_style in
        let normal_font :=
          mkFont (Some "Liberation Serif") (Some (Pt 10))
            (bold normal_font) (color_rgb normal_font) in
        let normal_paragraph := style_paragraph_format normal_style in
        let normal_paragraph :=
          mkParagraphFormat (Some (Multiple 9)) (Some (Pt 0)) (Some (Pt 1))
            (Some (Pt 0)) (left_indent normal_paragraph) in
        let st := <["Normal" := mkStyle normal_font normal_paragraph]>
                    (styles d) in
        let section_style :=
          match st !! "Heading 1" with
          | Some s => s
          | None => mkStyle no_font no_format
          end in
        let section_font := style_font section_style in
        let section_font :=
          mkFont (Some "Liberation Serif") (Some (Pt 12)) (Some true)
            (color_rgb section_font) in
        let section_paragraph := style_paragraph_format section_style in
        let section_paragraph :=
          mkParagraphFormat (Some (Multiple 10)) (Some (Pt 3)) (Some (Pt 1))
            (first_line_indent section_paragraph)
            (left_indent section_paragraph) in
        let st := <["Heading 1" := mkStyle section_font section_paragraph]>
                    st in
        (Returned tt, set_styles st d)
    end.

(** The six lengths are within range, so that no assignment is refused;
    each is kept to the nearest twip. *)
Definition _apply_page_layout : M Document unit :=
  modify (fun d =>
    set_sections
      (map (fun _ : Section =>
              let top_margin := Twips (twips (Cm 10)) in
              let bottom_margin := Twips (twips (Cm 10)) in
              let left_margin := Twips (twips (Cm 10)) in
              let right_margin := Twips (twips (Cm 10)) in
              let page_width := Twips (twips (Cm 210)) in
              let page_height := Twips (twips (Cm 297)) in
              mkSection (Some top_margin) (Some bottom_margin)
                (Some left_margin) (Some right_margin) (Some page_width)
                (Some page_height))
         (sections d)) d).

(** *** Structural classification *)

Definition section_keywords : list str :=
  [ U "Kurzprofil"; U "Berufserfahrung"; U "Projekte"; U "Ausbildung";
    U "Kenntnisse und Fähigkeiten"; U "Publikationen"; U "Zertifikate";
    U "Sprachen"; U "Verfügbarkeit"; U "Links" ].

(** The guard of [_format_sections]. *)
Definition is_section_header (p : Paragraph) : bool :=
  let text := strip (text p) in
  existsb (fun keyword => startswith keyword text) section_keywords.

(** [paragraph.style = 'Heading 1'] looks the style up by name. *)
Definition _format_sections : M Document unit :=
  fun d =>
    let (o, ps) :=
      for_each
        (fun paragraph =>
           if is_section_header paragraph then
             match styles d !! "Heading 1" with
             | None => Raised (KeyError "Heading 1")
             | Some _ =>
                 Returned
                   (mkParagraph (runs paragraph) (Some "Heading 1")
                      (Some LEFT) (paragraph_format paragraph))
             end
           else Returned paragraph)
        (paragraphs d) in
    (o, set_paragraphs ps d).

(** The guard of [_format_lists]. *)
Definition is_list_item (p : Paragraph) : bool :=
  startswith (U "•") (strip (text p)) || startswith (U "-") (strip (text p)).

(** The four assignments to [paragraph.paragraph_format], in the order of
    the source: the third one, of the negative length [Pt(-1)], is refused,
    which ends the loop at the first list item. *)
Definition _format_lists : M Document unit :=
  fun d =>
    let (o, ps) :=
      for_each_mutating
        (fun paragraph =>
           if is_list_item paragraph then
             (set_left_indent (Pt 10) ;;
              set_space_before (Pt 0) ;;
              set_space_after (Pt (-1)) ;;
              set_line_spacing (Multiple 9)) paragraph
           else (Returned tt, paragraph))
        (paragraphs d) in
    (o, set_paragraphs ps d).

Definition _format_hyperlinks : M Document unit :=
  modify (each_paragraph (fun paragraph =>
    mkParagraph
      (map (fun run =>
              match color_rgb (font run) with
              | Some rgb =>
                  if decide (rgb <> (0, 0, 0)%N) then
                    mkRun (run_text run)
                      (mkFont (name (font run)) (size (font run))
                         (bold (font run)) None)
                      (picture run)
                  else run
              | None => run
              end)
         (runs paragraph))
      (style paragraph) (alignment paragraph)
      (paragraph_format paragraph))).

(** *** The header table *)

Definition NAME : str := U "Arman Shirzad".
Definition CITY : str := U "Cottbus".
Definition EMAIL : str := U "shirzarm@b-tu.de".
Definition PHONE : str := U "+49 157 5669 3804".
Definition CONTACT : str :=
  U "Cottbus, Germany    shirzarm@b-tu.de    +49 157 5669 3804".
Definition QUAD : str := U "\quad".
Definition SPACES : str := U "    ".

(** The body of [for line in lines] in [_fix_header_content]: the line
    appended to [cleaned_lines], or [None] where the body [continue]s. *)
Definition clean_header_line (line : str) : option str :=
  let line := strip line in
  match line with
  | [] => None
  | _ :: _ =>
      let line := replace QUAD SPACES line in
      if contains CITY line && contains EMAIL line then
        if negb (contains PHONE line) then Some CONTACT
        else Some (replace QUAD SPACES line)
      else if contains NAME line then Some line
      else None
  end.

(** [cleaned_lines] as it is when it is joined, and the text assigned to
    [header_cell.text]. *)
Definition cleaned_header_lines (header_text : str) : list str :=
  let lines := split LF header_text in
  let cleaned_lines := omap clean_header_line lines in
  let cleaned_lines :=
    if existsb (contains NAME) cleaned_lines then cleaned_lines
    else NAME :: cleaned_lines in
  let cleaned_lines :=
    if existsb (contains CITY) cleaned_lines then cleaned_lines
    else cleaned_lines ++ [CONTACT] in
  cleaned_lines.

Definition fix_header_text (header_text : str) : str :=
  Py.join [LF] (cleaned_header_lines header_text).

Definition _fix_header_content : M Table unit :=
  fun table =>
    (* remove every row but the first *)
    let table := match table with
                 | [] => []
                 | row :: _ => [row]
                 end in
    match table with
    | [] => (Raised IndexError, table)
    | row :: rest =>
        match row with
        | [] => (Raised IndexError, table)
        | header_cell :: cells =>
            let header_text := cell_text header_cell in
            (Returned tt,
             (set_cell_text (fix_header_text header_text) :: cells) :: rest)
        end
    end.

Definition PHOTO : string := "presidency photo.png".

Definition photo_paths (env : Env) (self : Self) : list string :=
  [ PHOTO; Os.join (dirname (tex_file self)) PHOTO;
    Os.join (getcwd env) PHOTO ].

(** The [try] block of [_add_photo_to_header_table] for one path. *)
Definition embed_photo (w : World) (photo_path : string) : M Table unit :=
  fun table =>
    match table !! 0%nat ≫= (.!! 1%nat) with
    | None => (Raised IndexError, table)
    | Some cell2 =>
        match cell2 with
        | [] => (Raised IndexError, table)
        | cell2_paragraph :: _ =>
            let put_paragraph (p : Paragraph) : Table :=
              alter (alter (fun cell : Cell => <[0%nat := p]> cell) 1%nat)
                0%nat table in
            let cleared :=
              mkParagraph [new_run []] (style cell2_paragraph) (Some RIGHT)
                (paragraph_format cell2_paragraph) in
            match files w !! photo_path with
            | Some ImageFile =>
                (Returned tt,
                 put_paragraph
                   (mkParagraph
                      [mkRun [] no_font
                         (Some (mkPicture photo_path (Cm 30) (Cm 40)))]
                      (style cell2_paragraph) (Some RIGHT)
                      (paragraph_format cell2_paragraph)))
            | _ => (Raised UnrecognizedImageError, put_paragraph cleared)
            end
        end
    end.

(** The loop over the candidate paths: the result tells whether a photo
    was embedded; an exception of the [try] block is caught and the next
    path is tried. *)
Fixpoint try_photo_paths (w : World) (paths : list string) (table : Table)
    : bool * Table :=
  match paths with
  | [] => (false, table)
  | photo_path :: paths' =>
      if path_exists w photo_path then
        match embed_photo w photo_path table with
        | (Returned _, table') => (true, table')
        | (Raised _, table') => try_photo_paths w paths' table'
        end
      else try_photo_paths w paths' table
  end.

Definition _add_photo_to_header_table (env : Env) (self : Self) (w : World)
    : M Table unit :=
  fun table =>
    (Returned tt, (try_photo_paths w (photo_paths env self) table).2).

(** The test of [_handle_header_with_photo] on one table: whether it is
    the header table; evaluating it raises when row 1 has no cell. *)
Definition is_header_table (table : Table) : outcome bool :=
  match table with
  | row0 :: row1 :: _ =>
      match row0 with
      | cell00 :: _ :: _ =>
          let first_cell := strip (cell_text cell00) in
          match row1 with
          | [] => Raised IndexError
          | cell10 :: _ =>
              let second_cell := strip (cell_text cell10) in
              Returned (contains NAME first_cell
                        && contains CITY second_cell)
          end
      | _ => Returned false
      end
  | _ => Returned false
  end.

(** [for i, table in enumerate(self.doc.tables)], with its [return]. *)
Fixpoint handle_tables (env : Env) (self : Self) (w : World)
    (ts : list Table) : outcome unit * list Table :=
  match ts with
  | [] => (Returned tt, [])
  | table :: ts' =>
      match is_header_table table with
      | Raised e => (Raised e, table :: ts')
      | Returned true =>
          let (o, table') :=
            (_fix_header_content ;;
             _add_photo_to_header_table env self w) table in
          (o, table' :: ts')
      | Returned false =>
          let (o, ts'') := handle_tables env self w ts' in
          (o, table :: ts'')
      end
  end.

Definition _handle_header_with_photo (env : Env) (self : Self) (w : World)
    : M Document unit :=
  fun d =>
    let (o, ts) := handle_tables env self w (tables d) in
    (o, set_tables ts d).

(** *** Text correction *)

(** The five [re.sub] calls of [_fix_truncated_dates], as a rule table. *)
Definition truncated_dates : list rule :=
  [ (* r'/(2022) bis (03)/(2025)', r'08/\1 bis \2/\3' *)
    (cat [Lit (U "/"); Group 1 (Lit (U "2022")); Lit (U " bis ");
          Group 2 (Lit (U "03")); Lit (U "/"); Group 3 (Lit (U "2025"))],
     [TLit (U "08/"); TRef 1; TLit (U " bis "); TRef 2; TLit (U "/");
      TRef 3]);
    (* r'/(2021) bis (07)/(2022)', r'03/\1 bis \2/\3' *)
    (cat [Lit (U "/"); Group 1 (Lit (U "2021")); Lit (U " bis ");
          Group 2 (Lit (U "07")); Lit (U "/"); Group 3 (Lit (U "2022"))],
     [TLit (U "03/"); TRef 1; TLit (U " bis "); TRef 2; TLit (U "/");
      TRef 3]);
    (* r'/(2020) bis heute', r'08/\1 bis heute' *)
    (cat [Lit (U "/"); Group 1 (Lit (U "2020")); Lit (U " bis heute")],
     [TLit (U "08/"); TRef 1; TLit (U " bis heute")]);
    (* r'/(2025) bis heute', r'03/\1 bis heute' *)
    (cat [Lit (U "/"); Group 1 (Lit (U "2025")); Lit (U " bis heute")],
     [TLit (U "03/"); TRef 1; TLit (U " bis heute")]);
    (* r'/(2016) bis (10)/(2020)', r'09/\1 bis \2/\3' *)
    (cat [Lit (U "/"); Group 1 (Lit (U "2016")); Lit (U " bis ");
          Group 2 (Lit (U "10")); Lit (U "/"); Group 3 (Lit (U "2020"))],
     [TLit (U "09/"); TRef 1; TLit (U " bis "); TRef 2; TLit (U "/");
      TRef 3]) ].

Definition _fix_truncated_dates (text : str) : str :=
  apply_rules truncated_dates text.

(** r'∼(\d+)%', r'∼\1 %' *)
Definition percentage : rule :=
  (cat [Lit (U "∼"); Group 1 (Plus (Cls Digit)); Lit (U "%")],
   [TLit (U "∼"); TRef 1; TLit (U " %")]).

Definition _fix_percentage_spacing (text : str) : str :=
  sub percentage.1 percentage.2 text.

(** r'^\s*\d\s*$' *)
Definition stray_page_number : regex :=
  cat [Bol; Star (Cls Space); Cls Digit; Star (Cls Space); Eol].

Definition _remove_stray_page_numbers (text : str) : str :=
  let lines := split LF text in
  let cleaned_lines :=
    List.filter
      (fun line => negb (re_match stray_page_number (strip line))) lines in
  Py.join [LF] cleaned_lines.

(** r'AABB/(\d{4})', r'AA/\1' *)
Definition collapse (doubled month : str) : rule :=
  (cat [Lit doubled; Lit (U "/"); Group 1 (Rep 4 (Cls Digit))],
   [TLit month; TLit (U "/"); TRef 1]).

(** r'/(YYYY)', 'MM/YYYY' *)
Definition fallback (year month : str) : rule :=
  (cat [Lit (U "/"); Group 1 (Lit year)],
   [TLit month; TLit (U "/"); TLit year]).

(** [replacements] of [_fix_runs_directly]. *)
Definition run_replacements : list rule :=
  [ collapse (U "0808") (U "08"); collapse (U "0303") (U "03");
    collapse (U "0708") (U "07"); collapse (U "0909") (U "09");
    collapse (U "1008") (U "10") ].

(** [replacements] of [_comprehensive_text_replacement]: the same five,
    then the bare-slash rules. *)
Definition replacements : list rule :=
  [ collapse (U "0808") (U "08"); collapse (U "0303") (U "03");
    collapse (U "0708") (U "07"); collapse (U "0909") (U "09");
    collapse (U "1008") (U "10");
    fallback (U "2022") (U "08"); fallback (U "2021") (U "03");
    fallback (U "2020") (U "08"); fallback (U "2025") (U "03");
    fallback (U "2016") (U "09") ].

(** [content_fixes] of [_fix_missing_content]: patterns without special
    characters, replaced by plain text. *)
Definition literal (pattern replacement : str) : rule :=
  (Lit pattern, [TLit replacement]).

Definition content_fixes : list rule :=
  [ literal (U " ∼ 10,000 ∼ 10,000 Requests/Tag")
      (U " ∼ 10,000 Requests/Tag");
    literal (U " ∼ 200,000 ∼ 200,000 Nutzer") (U " ∼ 200,000 Nutzer");
    literal (U "Kosten ∼ 30 % ∼ 30 % niedriger")
      (U "Kosten ∼ 30 % niedriger");
    literal (U " Requests/Tag") (U " ∼ 10,000 Requests/Tag");
    literal (U " Nutzer integriert") (U " ∼ 200,000 Nutzer integriert");
    literal (U "Kosten  niedriger") (U "Kosten ∼ 30 % niedriger");
    literal (U "\quad") (U "    ");
    literal (U "\sim") (U "≈");
    literal (U "\approx") (U "≈") ].

(** [duplicate_patterns] of [_clean_duplicates]. *)
Definition duplicate_patterns : list rule :=
  [ (* group 1 is [∼ \d+,?\d*]; then [\s+\1]; replaced by [\1] *)
    (cat [Group 1 (cat [Lit (U "∼ "); Plus (Cls Digit); Opt (Lit (U ","));
                        Star (Cls Digit)]);
          Plus (Cls Space); Backref 1],
     [TRef 1]);
    (* r'(Cottbus, Germany)\s+\1', r'\1' *)
    (cat [Group 1 (Lit (U "Cottbus, Germany")); Plus (Cls Space);
          Backref 1],
     [TRef 1]);
    (* r'(shirzarm@b-tu\.de)\s+\1', r'\1' *)
    (cat [Group 1 (Lit (U "shirzarm@b-tu.de")); Plus (Cls Space);
          Backref 1],
     [TRef 1]);
    (* r'(Arman Shirzad)\s+\1', r'\1' *)
    (cat [Group 1 (Lit (U "Arman Shirzad")); Plus (Cls Space); Backref 1],
     [TRef 1]) ].

Definition _comprehensive_text_replacement (d : Document) : Document :=
  let d := each_paragraph (update_text (apply_rules replacements)) d in
  each_table_paragraph (update_text (apply_rules replacements)) d.

Definition _fix_runs_directly (d : Document) : Document :=
  let d := each_paragraph (update_runs (apply_rules run_replacements)) d in
  each_table_paragraph (update_runs (apply_rules run_replacements)) d.

Definition _fix_missing_content (d : Document) : Document :=
  let d := each_paragraph (update_text (apply_rules content_fixes)) d in
  let d :=
    each_table_paragraph (update_text (apply_rules content_fixes)) d in
  let d := each_paragraph (update_runs (apply_rules content_fixes)) d in
  each_table_paragraph (update_runs (apply_rules content_fixes)) d.

Definition _clean_duplicates (d : Document) : Document :=
  let d := each_paragraph (update_text (apply_rules duplicate_patterns)) d in
  each_table_paragraph (update_text (apply_rules duplicate_patterns)) d.

(** The three calls at the head of both loops of [_fix_text_issues]. *)
Definition fix_text (text : str) : str :=
  let text := _fix_truncated_dates text in
  let text := _fix_percentage_spacing text in
  _remove_stray_page_numbers text.

Definition fix_text_issues (d : Document) : Document :=
  let d := each_paragraph (update_text fix_text) d in
  let d := each_table_paragraph (update_text fix_text) d in
  let d := _comprehensive_text_replacement d in
  let d := _fix_runs_directly d in
  let d := _fix_missing_content d in
  _clean_duplicates d.

Definition _fix_text_issues : M Document unit := modify fix_text_issues.

(** *** The orchestrator *)

Definition temp_docx_path (self : Self) : string :=
  Os.join (dirname (docx_file self)) ("temp_" +:+ basename (docx_file self)).

Definition convert_with_pandoc (env : Env) (self : Self) : M State bool :=
  fun st =>
    let tex_abs_path := abspath env (tex_file self) in
    let temp_docx_path := temp_docx_path self in
    let cmd := [ "pandoc"; tex_abs_path; "-o"; temp_docx_path; "--from";
                 "latex"; "--to"; "docx"; "--standalone" ] in
    let w := world st in
    let called := mkWorld (files w) (cmd :: spawned w) in
    match subprocess_run env cmd w with
    | SpawnRaised FileNotFoundError =>
        (Returned false, mkState called (doc st))
    | SpawnRaised e => (Raised e, mkState called (doc st))
    | Exited returncode written =>
        let after :=
          match written with
          | Some f => write temp_docx_path f called
          | None => called
          end in
        if decide (returncode <> 0%Z)
        then (Returned false, mkState after (doc st))
        else (Returned true, mkState after (doc st))
    end.

(** The refinement passes, in the order of [load_and_refine_document]. *)
Definition refine (env : Env) (self : Self) (w : World) : M Document unit :=
  _setup_document_styles ;;
  _apply_page_layout ;;
  _format_sections ;;
  _format_lists ;;
  _handle_header_with_photo env self w ;;
  _format_hyperlinks ;;
  _fix_text_issues.

Definition load_and_refine_document (env : Env) (self : Self)
    : M State unit :=
  fun st =>
    let temp_docx_path := temp_docx_path self in
    match files (world st) !! temp_docx_path with
    | None => (Raised (PackageNotFoundError temp_docx_path), st)
    | Some (DocxFile d) =>
        let (o, d') := refine env self (world st) d in
        (o, mkState (world st) (Some d'))
    | Some _ => (Raised (PackageNotFoundError temp_docx_path), st)
    end.

Definition save_document (env : Env) (self : Self) : M State unit :=
  fun st =>
    match doc st with
    | None => (Raised AttributeError, st)
    | Some d =>
        match save_error env (docx_file self) (world st) with
        | Some e => (Raised e, st)
        | None =>
            let w := write (docx_file self) (DocxFile d) (world st) in
            let temp_docx_path := temp_docx_path self in
            let w := if path_exists w temp_docx_path
                     then remove temp_docx_path w else w in
            (Returned tt, mkState w (doc st))
        end
    end.

Definition convert (env : Env) (self : Self) : M State bool :=
  fun st =>
    if negb (path_exists (world st) (tex_file self))
    then (Returned false, st)
    else
      (ok <- convert_with_pandoc env self ;;
       if negb ok then ret false
       else
         load_and_refine_document env self ;;
         save_document env self ;;
         ret true) st.

End Converter.

Import Py Re Docx Os Converter.
Local Open Scope list_scope.

(** ** Derived notions used by the statements *)

(** The role the two classification guards give a paragraph: the one whose
    formatting pass acts on it. The guards exclude each other (lemma
    [guards_exclusive]), so the order of the tests is immaterial. *)
Inductive role : Type := heading | list_item | body.

Definition classify (p : Paragraph) : role :=
  if is_section_header p then heading
  else if is_list_item p then list_item
  else body.

(** What [_format_sections] does to a paragraph it acts on, and what
    [_format_lists] has done to the list item it stops at: the indent and
    the space before are set, the space after and the line spacing are
    not. *)
Definition as_heading (p : Paragraph) : Paragraph :=
  mkParagraph (runs p) (Some "Heading 1"%string) (Some LEFT)
    (paragraph_format p).

Definition as_list_item (p : Paragraph) : Paragraph :=
  mkParagraph (runs p) (style p) (alignment p)
    (mkParagraphFormat (line_spacing (paragraph_format p)) (Some (Pt 0))
       (space_after (paragraph_format p))
       (first_line_indent (paragraph_format p)) (Some (Pt 10))).

(** The paragraphs as [_format_lists] leaves them: the first list item, if
    there is one, is where the pass stops. *)
Fixpoint stop_at_list_item (ps : list Paragraph) : list Paragraph :=
  match ps with
  | [] => []
  | p :: ps' =>
      if is_list_item p then as_list_item p :: ps'
      else p :: stop_at_list_item ps'
  end.

(** The Style & Layout Normalizer: the four formatting passes at the head
    of [load_and_refine_document]. *)
Definition normalize : M Document unit :=
  (_setup_document_styles ;;
   _apply_page_layout ;;
   _format_sections ;;
   _format_lists)%py.

(** A table the header detector selects, in the words of the
    specification: at least two rows, at least two cells in row 0, the
    identity marker in the text of row 0 / column 0 and the location marker
    in the text of row 1 / column 0. *)
Definition header_like (t : Table) : Prop :=
  exists cell00 cell01 cells0 cell10 cells1 rows,
    t = (cell00 :: cell01 :: cells0) :: (cell10 :: cells1) :: rows
    /\ contains NAME (cell_text cell00) = true
    /\ contains CITY (cell_text cell10) = true.

(** *** Words and white space *)

(** The first, resp. last, character is there and is not white space. *)
Definition starts_nonspace (w : str) : bool :=
  match w with
  | [] => false
  | a :: _ => negb (isspace a)
  end.

Definition ends_nonspace (w : str) : bool :=
  match last w with
  | Some z => negb (isspace z)
  | None => false
  end.

(** No two spaces in a row, and no space at the end. *)
Fixpoint tight (v : str) : bool :=
  match v with
  | [] => true
  | a :: v' =>
      match v' with
      | [] => negb (a =? 32)
      | b :: _ => negb ((a =? 32) && (b =? 32)) && tight v'
      end
  end.

(** *** The header cell *)

(** The four marker strings: the identity, location and email markers and
    the phone number. *)
Definition markers : list str := [NAME; CITY; EMAIL; PHONE].


(** *** The normalizer, pass by pass *)

(** What [_format_sections] does to one paragraph. *)
Definition format_paragraph (p : Paragraph) : Paragraph :=
  match classify p with
  | heading => as_heading p
  | _ => p
  end.

(** What [_setup_document_styles] assigns to the font and the paragraph
    format of the base style and of the heading style, and the style
    registry it leaves when the base style was [normal]. *)
Definition normal_font (f : Font) : Font :=
  mkFont (Some "Liberation Serif"%string) (Some (Pt 10)) (bold f)
    (color_rgb f).

Definition normal_paragraph (f : ParagraphFormat) : ParagraphFormat :=
  mkParagraphFormat (Some (Multiple 9)) (Some (Pt 0)) (Some (Pt 1))
    (Some (Pt 0)) (left_indent f).

Definition section_font (f : Font) : Font :=
  mkFont (Some "Liberation Serif"%string) (Some (Pt 12)) (Some true)
    (color_rgb f).

Definition section_paragraph (f : ParagraphFormat) : ParagraphFormat :=
  mkParagraphFormat (Some (Multiple 10)) (Some (Pt 3)) (Some (Pt 1))
    (first_line_indent f) (left_indent f).

Definition restyle (on : Font -> Font)
    (pf : ParagraphFormat -> ParagraphFormat) (s : Style) : Style :=
  mkStyle (on (style_font s)) (pf (style_paragraph_format s)).

Definition normal_styles (st : gmap string Style) (normal : Style)
    : gmap string Style :=
  let st :=
    <["Normal"%string := restyle normal_font normal_paragraph normal]> st in
  <["Heading 1"%string :=
      restyle section_font section_paragraph
        (default (mkStyle no_font no_format) (st !! "Heading 1"%string))]> st.

(** The page [_apply_page_layout] gives every section, as it is read back:
    margins of 567 twips, a page of 11906 by 16838 twips. *)
Definition a4_section : Section :=
  mkSection (Some 360045%Z) (Some 360045%Z) (Some 360045%Z) (Some 360045%Z)
    (Some 7560310%Z) (Some 10692130%Z).

(** *** Patterns of fixed width

    The date rules match a fixed number of characters, each against a test
    of its own: a literal or [\d]. [fits sh s] says that [s] starts with
    characters that pass the tests [sh], in order. *)
Definition shape : Type := list (char -> bool).

Definition is_chr (a c : char) : bool := c =? a.

Fixpoint fits (sh : shape) (s : str) : bool :=
  match sh with
  | [] => true
  | p :: sh' =>
      match s with
      | [] => false
      | c :: s' => p c && fits sh' s'
      end
  end.

(** The tests and the groups of a collapse rule and of a bare-slash
    rule. *)
Definition collapse_shape (dd : str) : shape :=
  map is_chr dd ++ [is_chr 47] ++ replicate 4 isdecimal.

Definition collapse_groups (dd : str) (s : str) : groups :=
  [(1%nat, take 4 (drop (length dd + 1) s))].

Definition fallback_shape (year : str) : shape :=
  is_chr 47 :: map is_chr year.

Definition fallback_groups (year : str) (s : str) : groups :=
  [(1%nat, take (length year) (drop 1 s))].

(** *** Dates *)

(** The month each bare-slash rule puts in front of its year, and the
    doubled prefixes of the collapse rules with what they collapse to. *)
Definition default_months : list (str * str) :=
  [ (U "2022", U "08"); (U "2021", U "03"); (U "2020", U "08");
    (U "2025", U "03"); (U "2016", U "09") ].

Definition doubled_prefixes : list (str * str) :=
  [ (U "0808", U "08"); (U "0303", U "03"); (U "0708", U "07");
    (U "0909", U "09"); (U "1008", U "10") ].

(** The text before the date is empty or ends with a character that is not
    a decimal digit. *)
Definition not_after_digit (pre : str) : Prop :=
  match last pre with
  | Some c => isdecimal c = false
  | None => True
  end.

(** [t] has the year [year], after a slash and the characters [ds], at a
    place that does not follow a digit. *)
Definition dated (ds year : str) (t : str) : Prop :=
  exists pre post,
    not_after_digit pre /\ t = pre ++ ds ++ 47 :: year ++ post.

(** *** The text-correction engine, paragraph by paragraph *)

(** A loop over the paragraphs followed by the same loop over the table
    paragraphs. *)
Definition map_paragraphs (f : Paragraph -> Paragraph) (d : Document)
    : Document :=
  mkDocument (map f (paragraphs d)) (map (map (map (map f))) (tables d))
    (styles d) (sections d).

(** What [_fix_text_issues] does to one paragraph, top-level or in a table
    cell: the passes in the order in which they reach it. *)
Definition fix_paragraph (p : Paragraph) : Paragraph :=
  let p := update_text fix_text p in
  let p := update_text (apply_rules replacements) p in
  let p := update_runs (apply_rules run_replacements) p in
  let p := update_text (apply_rules content_fixes) p in
  let p := update_runs (apply_rules content_fixes) p in
  update_text (apply_rules duplicate_patterns) p.





(** ** Sample inputs *)

Module Sample.
Local Open Scope string_scope.

Definition self : Self := mkSelf "uploads/cv.tex" "outputs/cv.docx".

Definition draft : Document :=
  mkDocument
    [ mkParagraph [new_run (U "Kurzprofil")] None None no_format;
      mkParagraph [new_run (U "08/2022 bis 03/2025")] None None no_format ]
    []
    {[ "Normal" := mkStyle no_font no_format ]}
    [ mkSection None None None None None None ].

(** The same draft with a heading style of its own. *)
Definition styled_draft : Document :=
  mkDocument (paragraphs draft) []
    (<[ "Heading 1" := mkStyle (mkFont (Some "Calibri") None None
                                  (Some (46, 116, 181)%N)) no_format ]>
       (styles draft))
    (sections draft).

Definition world : World :=
  mkWorld {[ "uploads/cv.tex" := OtherFile ]} [].

Definition start : State := mkState world None.

(** Pandoc writes the draft and exits with code 0; saving works. *)
Definition env : Env :=
  mkEnv (fun p => "/srv/" +:+ p) "/srv"
    (fun _ _ => Exited 0 (Some (DocxFile draft)))
    (fun _ _ => None).

(** The same, but the output directory cannot be written. *)
Definition env_readonly : Env :=
  mkEnv (fun p => "/srv/" +:+ p) "/srv"
    (fun _ _ => Exited 0 (Some (DocxFile draft)))
    (fun _ _ => Some (OSError "Permission denied")).

(** No source file at all. *)
Definition empty_start : State := mkState (mkWorld ∅ []) None.

(** Two source files: pandoc writes the draft for the first and a draft
    with list items for the second. *)
Definition two_sources : World :=
  mkWorld {[ "uploads/cv.tex" := OtherFile; "uploads/en.tex" := OtherFile ]}
    [].

(** Paragraphs and cells with one run of plain text. *)
Definition par (t : string) : Paragraph :=
  mkParagraph [new_run (U t)] None None no_format.

Definition cell (lines : list string) : Cell := map par lines.

(** A draft with two list items after its heading. *)
Definition listed_draft : Document :=
  mkDocument [par "Kurzprofil"; par "- Python und Go"; par "- Rocq"] []
    (styles draft) (sections draft).

Definition env_two_sources : Env :=
  mkEnv (fun p => "/srv/" +:+ p) "/srv"
    (fun cmd _ =>
       if bool_decide (cmd !! 1%nat = Some "/srv/uploads/cv.tex")
       then Exited 0 (Some (DocxFile draft))
       else Exited 0 (Some (DocxFile listed_draft)))
    (fun _ _ => None).

(** The header as the converter renders it: the name in row 0, the contact
    line without the phone number in row 1. *)
Definition header_table : Table :=
  [ [ cell ["Arman Shirzad"]; cell [""] ];
    [ cell ["Cottbus, Germany \quad shirzarm@b-tu.de"]; cell [""] ] ].


(** A table of the body: dates in its cells, no marker. *)
Definition dates_table : Table :=
  [ [ cell ["08/2022 bis 03/2025"]; cell ["Refah Bank"] ];
    [ cell ["03/2021 bis 07/2022"]; cell ["MAPSA"] ] ].

Definition with_tables (ts : list Table) : Document :=
  mkDocument [] ts ∅ [].

End Sample.

(** ** Further notions

    Used by the statements of the further properties at the end. *)

(** *** The refinement passes *)


(** What a paragraph carries besides its runs. *)
Definition layout (p : Paragraph)
    : option string * option WD_ALIGN_PARAGRAPH * ParagraphFormat :=
  (style p, alignment p, paragraph_format p).

(** What [_format_hyperlinks] does to a run and to a paragraph. *)
Definition uncoloured (r : Run) : Run :=
  match color_rgb (font r) with
  | Some rgb =>
      if decide (rgb <> (0, 0, 0)%N)
      then mkRun (run_text r)
             (mkFont (name (font r)) (size (font r)) (bold (font r)) None)
             (picture r)
      else r
  | None => r
  end.

Definition without_link_colours (p : Paragraph) : Paragraph :=
  mkParagraph (map uncoloured (runs p)) (style p) (alignment p)
    (paragraph_format p).

(** *** The photo cell *)

(** The first paragraph of the photo cell after a successful and after a
    failed attempt to embed a picture: right-aligned, holding the picture,
    resp. one empty run. *)
Definition photo_paragraph (photo_path : string) (p : Paragraph)
    : Paragraph :=
  mkParagraph
    [mkRun [] no_font (Some (mkPicture photo_path (Cm 30) (Cm 40)))]
    (style p) (Some RIGHT) (paragraph_format p).

Definition emptied_paragraph (p : Paragraph) : Paragraph :=
  mkParagraph [new_run []] (style p) (Some RIGHT) (paragraph_format p).

(** *** Patterns with a starred class *)

(** What the greedy [\s*] or [\d*] amounts to: the class is consumed as far
    as it goes, and the rest of the pattern is tried from the longest run
    down to the empty one. *)
Fixpoint star_cls {R : Type} (cl : cclass) (pos : nat) (s : str)
    (g : groups) (k : nat -> str -> groups -> option R) : option R :=
  match s with
  | c :: s' =>
      if in_class cl c then
        match star_cls cl (S pos) s' g k with
        | Some x => Some x
        | None => k pos s g
        end
      else k pos s g
  | [] => k pos s g
  end.

(** A line [_remove_stray_page_numbers] drops: trimmed, it is one decimal
    digit. *)
Definition digit_line (line : str) : bool :=
  match strip line with
  | [d] => isdecimal d
  | _ => false
  end.

(** The leading decimal digits of a text and what follows them. *)
Fixpoint span_digits (s : str) : str * str :=
  match s with
  | c :: s' =>
      if isdecimal c
      then let (ds, rest) := span_digits s' in (c :: ds, rest)
      else ([], s)
  | [] => ([], [])
  end.

(** An unspaced percentage at the head of a text: the tilde operator, one
    or more decimal digits and the percent sign. The result is the digits
    and the text after the percent sign. *)
Definition unspaced_percentage (s : str) : option (str * str) :=
  match s with
  | c :: s1 =>
      if c =? 0x223C then
        match span_digits s1 with
        | (d :: ds, p :: post) =>
            if p =? 0x25 then Some (d :: ds, post) else None
        | _ => None
        end
      else None
  | [] => None
  end.

(** Whether a text has an unspaced percentage somewhere. *)
Fixpoint unspaced_somewhere (s : str) : bool :=
  match s with
  | [] => false
  | _ :: s' =>
      bool_decide (is_Some (unspaced_percentage s)) || unspaced_somewhere s'
  end.

(** *** Texts the engine has no rule for *)

(** A character that every match of at least one rule needs: the slash of
    the date rules, the tilde operator of the percentage and quantity
    rules, the backslash of the LaTeX commands, and the initials of the
    words the remaining rules spell out ([N]utzer, [K]osten, [C]ottbus,
    [A]rman) with the [@] of the email address. *)
Definition trigger_chars : list char :=
  [0x2F; 0x223C; 0x5C; 0x4E; 0x4B; 0x43; 0x40; 0x41].

(** A text without trigger characters and without a digit line. *)
Definition plain (t : str) : Prop :=
  Forall (fun a => a ∉ t) trigger_chars
  /\ Forall (fun line => digit_line line = false) (split LF t).

(** ** The command line *)

Module Cli.
Local Open Scope string_scope.
Local Open Scope list_scope.

(** [os.path.splitext(p)[0]]: the path without its extension. The
    extension starts at the last dot of the file name, unless only dots
    come before it. *)
Definition is_dot (c : ascii) : bool := Ascii.eqb c "."%char.

Fixpoint split_ext (t : list ascii) : list ascii * list ascii :=
  match t with
  | [] => ([], [])
  | c :: t' =>
      match split_ext t' with
      | (_, []) => if is_dot c then ([], c :: t') else (c :: t', [])
      | (r, e) => (c :: r, e)
      end
  end.

Definition splitext_root (p : string) : string :=
  let (h, t) := split_last (list_ascii_of_string p) in
  let (r, _) := split_ext t in
  if forallb is_dot r then p else string_of_list_ascii (h ++ r).

(** How [main] ends: it returns, or [sys.exit] ends the program with a
    status. *)
Inductive Exit : Type :=
| Finished
| SystemExit (status : Z).

(** [sys.argv[1:]], or the two default files. *)
Definition input_files (argv : list string) : list string :=
  if Nat.ltb 1 (length argv) then tail argv else ["cvde.tex"; "cven.tex"].

(** The output path [main] chooses for an input file. *)
Definition docx_for (tex_file : string) : string :=
  splitext_root tex_file +:+ ".docx".

(** The loop of [main] over the input files, from a given
    [success_count]. Each file gets a converter of its own; an exception
    of [convert] ends the loop. *)
Fixpoint convert_each (env : Env) (input_files : list string)
    (success_count : nat) : M World nat :=
  fun w =>
    match input_files with
    | [] => (Returned success_count, w)
    | tex_file :: rest =>
        if negb (path_exists w tex_file)
        then convert_each env rest success_count w
        else
          let docx_file := docx_for tex_file in
          let converter := mkSelf tex_file docx_file in
          match convert env converter (mkState w None) with
          | (Returned success, st) =>
              convert_each env rest
                (if success then S success_count else success_count)
                (world st)
          | (Raised e, st) => (Raised e, world st)
          end
    end.

Definition main (env : Env) (argv : list string) : M World Exit :=
  fun w =>
    match convert_each env (input_files argv) 0 w with
    | (Returned success_count, w') =>
        if Nat.eqb success_count 0
        then (Returned (SystemExit 1), w')
        else (Returned Finished, w')
    | (Raised e, w') => (Raised e, w')
    end.

End Cli.

(** * Properties *)

(** ** The orchestrator *)

Section Orchestrator.
Variables (env : Env) (self : Self).

Let cmd : list string :=
  [ "pandoc"; abspath env (tex_file self); "-o"; temp_docx_path self;
    "--from"; "latex"; "--to"; "docx"; "--standalone" ]%string.

Lemma convert_with_pandoc_spawns st :
  spawned (world (convert_with_pandoc env self st).2)
  = cmd :: spawned (world st).
Proof.
  unfold convert_with_pandoc. fold cmd.
  destruct (subprocess_run env cmd (world st)) as [e | rc [f |]].
  - destruct e; reflexivity.
  - case_decide; reflexivity.
  - case_decide; reflexivity.
Qed.

(** When the source exists, [convert] starts by calling the converter. *)
Lemma convert_unfold st :
  path_exists (world st) (tex_file self) = true ->
  convert env self st
  = match convert_with_pandoc env self st with
    | (Returned true, st1) =>
        match load_and_refine_document env self st1 with
        | (Returned _, st2) =>
            match save_document env self st2 with
            | (Returned _, st3) => (Returned true, st3)
            | (Raised e, st3) => (Raised e, st3)
            end
        | (Raised e, st2) => (Raised e, st2)
        end
    | (Returned false, st1) => (Returned false, st1)
    | (Raised e, st1) => (Raised e, st1)
    end.
Proof.
  intros Hex. unfold convert. rewrite Hex. simpl. unfold bind.
  destruct (convert_with_pandoc env self st) as [[[|]|e] st1];
    reflexivity.
Qed.

(** Nothing after the converter call touches the list of spawned
    commands or adds a file other than the output. *)
Lemma load_and_refine_world st :
  world (load_and_refine_document env self st).2 = world st.
Proof.
  unfold load_and_refine_document.
  destruct (files (world st) !! temp_docx_path self) as [[d | |] |];
    try reflexivity.
  destruct (refine env self (world st) d); reflexivity.
Qed.

End Orchestrator.

Section Convert.
Variables (env : Env) (self : Self).

Let cmd : list string :=
  [ "pandoc"; abspath env (tex_file self); "-o"; temp_docx_path self;
    "--from"; "latex"; "--to"; "docx"; "--standalone" ]%string.

(** C6. If the source path does not exist, [convert] returns [False]
    straight away: the state is untouched, in particular no command has
    been handed to [subprocess.run]. *)
Theorem convert_source_missing (st : State) :
  path_exists (world st) (tex_file self) = false ->
  convert env self st = (Returned false, st)
  /\ spawned (world (convert env self st).2) = spawned (world st).
Proof.
  intros Hmiss. unfold convert. rewrite Hmiss. simpl. split; reflexivity.
Qed.

(** With the source in place the converter is the first thing called. *)
Lemma convert_source_present_spawns (st : State) :
  path_exists (world st) (tex_file self) = true ->
  spawned (world (convert env self st).2) = cmd :: spawned (world st).
Proof.
  intros Hex. rewrite (convert_unfold env self st Hex).
  pose proof (convert_with_pandoc_spawns env self st) as Hs. fold cmd in Hs.
  destruct (convert_with_pandoc env self st) as [[[|]|e] st1]; simpl in *;
    try exact Hs.
  pose proof (load_and_refine_world env self st1) as Hl.
  destruct (load_and_refine_document env self st1) as [[[]|e] st2];
    simpl in *; [| congruence].
  unfold save_document.
  destruct (doc st2); simpl; [| congruence].
  destruct (save_error env (docx_file self) (world st2)); simpl;
    [congruence |].
  case_match; simpl; congruence.
Qed.

(** C1, as the code has it. With the source in place, [convert] turns
    into the boolean [False] exactly the failures of the converter call
    it tests for (the program is not installed, or it exits with a
    non-zero code); any other exception of the call, and every exception
    raised while the draft is loaded, refined or saved, leaves [convert]
    as that same exception. *)
Theorem convert_failures (st : State) :
  path_exists (world st) (tex_file self) = true ->
  (subprocess_run env cmd (world st) = SpawnRaised FileNotFoundError ->
   (convert env self st).1 = Returned false)
  /\ (forall rc written,
        subprocess_run env cmd (world st) = Exited rc written ->
        rc <> 0%Z -> (convert env self st).1 = Returned false)
  /\ (forall e,
        subprocess_run env cmd (world st) = SpawnRaised e ->
        e <> FileNotFoundError -> (convert env self st).1 = Raised e)
  /\ (forall st1 e,
        convert_with_pandoc env self st = (Returned true, st1) ->
        (load_and_refine_document env self st1).1 = Raised e ->
        (convert env self st).1 = Raised e)
  /\ (forall st1 st2 e,
        convert_with_pandoc env self st = (Returned true, st1) ->
        load_and_refine_document env self st1 = (Returned tt, st2) ->
        (save_document env self st2).1 = Raised e ->
        (convert env self st).1 = Raised e)
  /\ (forall st1 st2 st3,
        convert_with_pandoc env self st = (Returned true, st1) ->
        load_and_refine_document env self st1 = (Returned tt, st2) ->
        save_document env self st2 = (Returned tt, st3) ->
        convert env self st = (Returned true, st3)).
Proof.
  intros Hex. rewrite (convert_unfold env self st Hex).
  repeat split.
  - intros Hrun. unfold convert_with_pandoc. fold cmd. rewrite Hrun.
    reflexivity.
  - intros rc written Hrun Hrc. unfold convert_with_pandoc. fold cmd.
    rewrite Hrun. rewrite decide_True by exact Hrc. reflexivity.
  - intros e Hrun He. unfold convert_with_pandoc. fold cmd. rewrite Hrun.
    destruct e; try reflexivity. congruence.
  - intros st1 e -> Hload.
    destruct (load_and_refine_document env self st1) as [[[]|e'] st2];
      simpl in *; congruence.
  - intros st1 st2 e -> -> Hsave.
    destruct (save_document env self st2) as [[[]|e'] st3];
      simpl in *; congruence.
  - intros st1 st2 st3 -> -> ->. reflexivity.
Qed.


End Convert.

Lemma convert_source_missing_witness :
  path_exists (world Sample.empty_start) (tex_file Sample.self) = false
  /\ convert Sample.env Sample.self Sample.empty_start
     = (Returned false, Sample.empty_start).
Proof.
  split; [reflexivity |].
  apply (convert_source_missing Sample.env Sample.self Sample.empty_start).
  reflexivity.
Defined.

(** C1 fails as stated: with an output directory that cannot be written,
    [doc.save] raises and [convert] lets the exception through. *)
Lemma convert_raises :
  (convert Sample.env_readonly Sample.self Sample.start).1
  = Raised (OSError "Permission denied")
  /\ ~ (exists b : bool,
          (convert Sample.env_readonly Sample.self Sample.start).1
          = Returned b).
Proof.
  assert (H : (convert Sample.env_readonly Sample.self Sample.start).1
              = Raised (OSError "Permission denied")).
  { vm_compute. reflexivity. }
  split; [exact H |]. intros [b Hb]. rewrite H in Hb. discriminate.
Qed.

Lemma convert_failures_witness :
  path_exists (world Sample.start) (tex_file Sample.self) = true
  /\ (convert Sample.env_readonly Sample.self Sample.start).1
     = Raised (OSError "Permission denied").
Proof.
  split; [reflexivity |].
  pose proof (convert_failures Sample.env_readonly Sample.self Sample.start
                eq_refl) as (_ & _ & _ & _ & Hsave & _).
  eapply Hsave.
  - vm_compute. reflexivity.
  - vm_compute. reflexivity.
  - vm_compute. reflexivity.
Defined.



(** ** Python strings: prefixes and substrings *)

Section Substrings.
Implicit Types (w s x y : str) (c : char).

Lemma startswith_nil s : startswith [] s = true.
Proof. destruct s; reflexivity. Qed.

Lemma startswith_true w s :
  startswith w s = true <-> exists k, s = w ++ k.
Proof.
  revert s. induction w as [| a w IH]; intros s.
  - rewrite startswith_nil. split; [eauto | reflexivity].
  - destruct s as [| c s]; simpl.
    + split; [discriminate | intros [k Hk]; discriminate].
    + rewrite andb_true_iff, N.eqb_eq, IH. split.
      * intros [-> [k ->]]. eauto.
      * intros [k Hk]. injection Hk as -> ->. eauto.
Qed.

Lemma startswith_prefix w s : startswith w s = true <-> w `prefix_of` s.
Proof. apply startswith_true. Qed.

Lemma startswith_app w k : startswith w (w ++ k) = true.
Proof. apply startswith_true. eauto. Qed.

Lemma startswith_head a w c s :
  startswith (a :: w) (c :: s) = true -> a = c.
Proof. simpl. rewrite andb_true_iff, N.eqb_eq. tauto. Qed.

Lemma contains_cons w c s :
  contains w (c :: s) = startswith w (c :: s) || contains w s.
Proof. reflexivity. Qed.

Lemma contains_true w s :
  contains w s = true <-> exists a b, s = a ++ w ++ b.
Proof.
  induction s as [| c s IH].
  - simpl. rewrite orb_false_r, startswith_true. split.
    + intros [k Hk]. exists [], k. exact Hk.
    + intros (a & b & Hab). destruct a; [| discriminate].
      simpl in Hab. eauto.
  - rewrite contains_cons, orb_true_iff, startswith_true, IH. split.
    + intros [[k Hk] | (a & b & ->)].
      * exists [], k. exact Hk.
      * exists (c :: a), b. reflexivity.
    + intros (a & b & Hab). destruct a as [| c' a]; simpl in Hab.
      * left. eauto.
      * injection Hab as -> ->. right. eauto.
Qed.

Lemma contains_app_r w x y : contains w y = true -> contains w (x ++ y) = true.
Proof.
  rewrite !contains_true. intros (a & b & ->).
  exists (x ++ a), b. by rewrite <- app_assoc.
Qed.

Lemma contains_app_l w x y : contains w x = true -> contains w (x ++ y) = true.
Proof.
  rewrite !contains_true. intros (a & b & ->).
  exists a, (b ++ y). by rewrite <- !app_assoc.
Qed.

Lemma contains_self w : contains w w = true.
Proof. apply contains_true. exists [], []. by rewrite app_nil_r. Qed.

Lemma contains_nonempty a w s : contains (a :: w) s = true -> s <> [].
Proof. destruct s; [discriminate | discriminate]. Qed.

(** A word cannot start inside a stretch that avoids its first
    character. *)
Lemma contains_skip a w x y :
  Forall (fun c => c <> a) x ->
  contains (a :: w) (x ++ y) = contains (a :: w) y.
Proof.
  induction 1 as [| c x Hc _ IH]; [reflexivity |].
  simpl app. rewrite contains_cons, IH. simpl.
  destruct (N.eqb_spec a c); [congruence | reflexivity].
Qed.

End Substrings.

(** ** Python strings: [strip] *)

Section Strip.
Implicit Types (w s x sp : str) (c : char).

Lemma ends_nonspace_cons a b w :
  ends_nonspace (a :: b :: w) = ends_nonspace (b :: w).
Proof. reflexivity. Qed.

Lemma lstrip_spec s :
  exists sp, s = sp ++ lstrip s /\ forallb isspace sp = true.
Proof.
  induction s as [| c s (sp & Hs & Hsp)]; [by exists [] |].
  simpl. destruct (isspace c) eqn:Hc.
  - exists (c :: sp). simpl. rewrite Hc, Hsp. split; [congruence | done].
  - by exists [].
Qed.

Lemma rstrip_spec s :
  exists sp, s = rstrip s ++ sp /\ forallb isspace sp = true.
Proof.
  induction s as [| c s (sp & Hs & Hsp)]; [by exists [] |].
  simpl. destruct (rstrip s) as [| r rs] eqn:Hr.
  - simpl in Hs. subst sp. destruct (isspace c) eqn:Hc.
    + exists (c :: s). simpl. by rewrite Hc, Hsp.
    + by exists s.
  - exists sp. split; [| done]. simpl. f_equal. exact Hs.
Qed.

Lemma startswith_spaces_l w sp :
  starts_nonspace w = true -> forallb isspace sp = true ->
  Forall (fun c => c <> hd 0 w) sp.
Proof.
  destruct w as [| a w]; [discriminate |]. simpl.
  intros Ha Hsp. apply Forall_forall. intros c Hc ->.
  rewrite forallb_forall in Hsp. apply list_elem_of_In, Hsp in Hc.
  rewrite Hc in Ha. discriminate.
Qed.

Lemma contains_lstrip w s :
  starts_nonspace w = true -> contains w (lstrip s) = contains w s.
Proof.
  intros Hw. destruct (lstrip_spec s) as (sp & Hs & Hsp).
  rewrite Hs at 2. destruct w as [| a w]; [discriminate |].
  symmetry. apply contains_skip.
  exact (startswith_spaces_l (a :: w) sp Hw Hsp).
Qed.

Lemma startswith_app_spaces w x sp :
  ends_nonspace w = true -> forallb isspace sp = true ->
  startswith w (x ++ sp) = startswith w x.
Proof.
  intros Hw Hsp. revert x Hw.
  induction w as [| a w IH]; intros x Hw; [discriminate |].
  destruct x as [| b x].
  - destruct sp as [| c sp]; [reflexivity |]. simpl in *.
    apply andb_true_iff in Hsp as [Hc Hsp'].
    destruct w as [| a' w].
    + unfold ends_nonspace in Hw. simpl in Hw.
      destruct (N.eqb_spec a c); [subst; rewrite Hc in Hw; discriminate |].
      reflexivity.
    + rewrite ends_nonspace_cons in Hw.
      assert (Hin : startswith (a' :: w) sp = false).
      { clear IH. revert Hw. generalize (a' :: w). clear a a' w.
        induction sp as [| c' sp IHsp]; intros w Hw.
        - destruct w; [discriminate | reflexivity].
        - simpl in Hsp'. apply andb_true_iff in Hsp' as [Hc' Hsp''].
          destruct w as [| a w]; [discriminate |]. simpl.
          destruct w as [| a' w].
          + unfold ends_nonspace in Hw. simpl in Hw.
            destruct (N.eqb_spec a c');
              [subst; rewrite Hc' in Hw; discriminate | reflexivity].
          + rewrite ends_nonspace_cons in Hw.
            rewrite (IHsp Hsp'' _ Hw). apply andb_false_r. }
      rewrite Hin. apply andb_false_r.
  - simpl. destruct w as [| a' w].
    + by rewrite !startswith_nil.
    + rewrite ends_nonspace_cons in Hw. by rewrite (IH x Hw).
Qed.

Lemma contains_app_spaces w x sp :
  ends_nonspace w = true -> forallb isspace sp = true ->
  contains w (x ++ sp) = contains w x.
Proof.
  intros Hw Hsp. induction x as [| c x IH].
  - simpl app. transitivity false.
    + clear -Hw Hsp. induction sp as [| c sp IH].
      * destruct w; [discriminate | reflexivity].
      * rewrite contains_cons.
        pose proof (startswith_app_spaces w [] (c :: sp) Hw Hsp) as H.
        simpl app in H. rewrite H.
        simpl in Hsp. apply andb_true_iff in Hsp as [_ Hsp].
        rewrite (IH Hsp). destruct w; [discriminate | reflexivity].
    + destruct w; [discriminate | reflexivity].
  - simpl app. rewrite !contains_cons, IH. f_equal.
    exact (startswith_app_spaces w (c :: x) sp Hw Hsp).
Qed.

Lemma contains_rstrip w s :
  ends_nonspace w = true -> contains w (rstrip s) = contains w s.
Proof.
  intros Hw. destruct (rstrip_spec s) as (sp & Hs & Hsp).
  rewrite Hs at 2. symmetry. by apply contains_app_spaces.
Qed.

(** A word that neither starts nor ends with white space is in a text
    exactly when it is in the stripped text. *)
Lemma contains_strip w s :
  starts_nonspace w = true -> ends_nonspace w = true ->
  contains w (strip s) = contains w s.
Proof.
  intros H1 H2. unfold strip.
  by rewrite contains_rstrip, contains_lstrip.
Qed.




End Strip.

(** ** Python strings: [replace] *)

Lemma startswith_contains (w s : str) :
  startswith w s = true -> contains w s = true.
Proof. destruct s; simpl; intros ->; reflexivity. Qed.

Lemma length_induction (P : str -> Prop) :
  (forall s, (forall s', (length s' < length s)%nat -> P s') -> P s) ->
  forall s, P s.
Proof.
  intros H s. remember (length s) as n eqn:Hn. revert s Hn.
  induction n as [n IH] using lt_wf_ind. intros s ->.
  apply H. intros s' Hlt. by apply (IH (length s')).
Qed.

Section Replace.
Variables (o : char) (olds new : str).
Let old : str := o :: olds.
Implicit Types (w s v : str) (c : char).

Lemma replace_go_skip n s :
  replace_go old new n s = replace_go old new 0 (drop n s).
Proof.
  revert s. induction n as [| n IH]; intros [| c s]; try reflexivity.
  simpl. apply IH.
Qed.

Lemma replace_nil : replace old new [] = [].
Proof. reflexivity. Qed.

Lemma replace_match rest :
  replace old new (old ++ rest) = new ++ replace old new rest.
Proof.
  unfold replace, old. simpl app. cbn [replace_go].
  fold old. change (o :: olds ++ rest) with (old ++ rest).
  rewrite startswith_app. f_equal.
  rewrite replace_go_skip. simpl. by rewrite drop_app_length.
Qed.

Lemma replace_nomatch c s :
  startswith old (c :: s) = false ->
  replace old new (c :: s) = c :: replace old new s.
Proof. unfold replace. cbn [replace_go]. by intros ->. Qed.

(** The two ways [replace] can start on a non-empty text. *)
Lemma replace_cases s :
  (exists rest, s = old ++ rest
                /\ replace old new s = new ++ replace old new rest)
  \/ (s = [] /\ replace old new s = [])
  \/ (exists c s', s = c :: s' /\ startswith old s = false
                   /\ replace old new s = c :: replace old new s').
Proof.
  destruct (startswith old s) eqn:Hst.
  - left. apply startswith_true in Hst as [rest ->].
    exists rest. split; [reflexivity | apply replace_match].
  - right. destruct s as [| c s']; [by left | right].
    exists c, s'. repeat split. by apply replace_nomatch.
Qed.


(** *** What [replace] keeps *)

Lemma replace_keeps_prefix v s :
  o ∉ v -> startswith v s = true -> startswith v (replace old new s) = true.
Proof.
  revert s. induction v as [| a v IH]; intros s Ho Hv.
  - apply startswith_nil.
  - destruct s as [| c s]; [discriminate |].
    simpl in Hv. apply andb_true_iff in Hv as [Hac Hv].
    apply N.eqb_eq in Hac as <-.
    rewrite not_elem_of_cons in Ho. destruct Ho as [Hne Ho].
    rewrite replace_nomatch.
    + simpl. rewrite N.eqb_refl. by apply IH.
    + unfold old. simpl. destruct (N.eqb_spec o a); [congruence | done].
Qed.

(** A word without the first character of [old], whose own first
    character is not in the rest of [old], survives. *)
Lemma replace_keeps a w s :
  o ∉ a :: w -> a ∉ olds ->
  contains (a :: w) s = true -> contains (a :: w) (replace old new s) = true.
Proof.
  intros Ho Ha. induction s as [s IH] using length_induction.
  destruct (replace_cases s)
    as [(rest & -> & ->) | [[-> ->] | (c' & s' & -> & _ & ->)]].
  - rewrite contains_skip.
    + intros Hc. apply contains_app_r, IH; [| exact Hc].
      rewrite length_app. unfold old. simpl. lia.
    + apply Forall_forall. intros c Hc ->. unfold old in Hc.
      apply elem_of_cons in Hc as [-> | Hc]; [| done].
      apply Ho. by left.
  - done.
  - rewrite contains_cons. intros [Hst | Hc]%orb_true_iff.
    + apply startswith_contains.
      assert (Hno : startswith old (c' :: s') = false).
      { unfold old. simpl. apply startswith_head in Hst as <-.
        destruct (N.eqb_spec o a); [| done].
        subst. exfalso. apply Ho. by left. }
      rewrite <- (replace_nomatch _ _ Hno).
      by apply replace_keeps_prefix.
    + rewrite contains_cons. apply orb_true_iff. right.
      apply IH; [simpl; lia | exact Hc].
Qed.

End Replace.

(** *** What replacing by four spaces cannot create *)

Lemma tight_tail a v : tight (a :: v) = true -> tight v = true.
Proof.
  destruct v as [| b v]; [reflexivity |].
  cbn [tight]. intros [_ H]%andb_true_iff. exact H.
Qed.

Section ReplaceBySpaces.
Variables (o : char) (olds : str).
Implicit Types (w s v : str) (c : char).

Lemma replace_spaces_prefix v s :
  tight v = true ->
  startswith v (replace (o :: olds) SPACES s) = true -> startswith v s = true.
Proof.
  revert v. induction s as [s IH] using length_induction. intros v Hv.
  destruct (replace_cases o olds SPACES s)
    as [(rest & -> & ->) | [[-> ->] | (c' & s' & -> & _ & ->)]].
  - destruct v as [| a [| b v]].
    + intros _. apply startswith_nil.
    + cbn [tight] in Hv. revert Hv.
      change SPACES with [32; 32; 32; 32]. cbn [app startswith].
      destruct (a =? 32); simpl; discriminate.
    + cbn [tight] in Hv. apply andb_true_iff in Hv as [Hab _]. revert Hab.
      change SPACES with [32; 32; 32; 32]. cbn [app startswith].
      destruct (a =? 32), (b =? 32); simpl; discriminate.
  - done.
  - destruct v as [| a v]; [intros _; apply startswith_nil |].
    simpl. intros [Hac Hst]%andb_true_iff. rewrite Hac. simpl.
    apply IH; [simpl; lia | by apply tight_tail in Hv | exact Hst].
Qed.

(** A word that does not start with a space, does not end with one and
    has no two spaces in a row is in the result only if it was in the
    text. *)
Lemma replace_spaces_creates_nothing a w s :
  a <> 32 -> tight (a :: w) = true ->
  contains (a :: w) (replace (o :: olds) SPACES s) = true ->
  contains (a :: w) s = true.
Proof.
  intros Ha Hw. induction s as [s IH] using length_induction.
  destruct (replace_cases o olds SPACES s)
    as [(rest & -> & ->) | [[-> ->] | (c' & s' & -> & Hno & ->)]].
  - rewrite contains_skip.
    + intros Hc. apply contains_app_r, IH; [| exact Hc].
      rewrite length_app. simpl. lia.
    + change SPACES with [32; 32; 32; 32].
      repeat constructor; congruence.
  - done.
  - rewrite contains_cons. intros [Hst | Hc]%orb_true_iff.
    + apply startswith_contains.
      apply (replace_spaces_prefix (a :: w) (c' :: s') Hw).
      by rewrite (replace_nomatch o olds SPACES c' s' Hno).
    + rewrite contains_cons. apply orb_true_iff. right.
      apply IH; [simpl; lia | exact Hc].
Qed.

End ReplaceBySpaces.

(** ** Python strings: [split] and [join] *)

Section SplitJoin.
Variable sep : char.
Implicit Types (s l : str) (ls : list str).

Lemma split_cons_sep s : split sep (sep :: s) = [] :: split sep s.
Proof. simpl. by rewrite N.eqb_refl. Qed.

Lemma split_is_cons s : exists l ls, split sep s = l :: ls.
Proof.
  induction s as [| c s (l & ls & IH)]; [by eexists _, _ |].
  simpl. destruct (c =? sep); [by eexists _, _ |].
  rewrite IH. by eexists _, _.
Qed.

Lemma split_no_sep s l : l ∈ split sep s -> sep ∉ l.
Proof.
  revert l. induction s as [| c s IH]; intros l.
  - simpl. intros ->%list_elem_of_singleton. apply not_elem_of_nil.
  - simpl. destruct (N.eqb_spec c sep) as [-> | Hne].
    + intros [-> | Hl]%elem_of_cons; [apply not_elem_of_nil | by apply IH].
    + destruct (split_is_cons s) as (l0 & ls & Hs). rewrite Hs in *.
      intros [-> | Hl]%elem_of_cons.
      * apply not_elem_of_cons. split; [congruence |]. apply IH. by left.
      * apply IH. by right.
Qed.

Lemma split_app l s :
  sep ∉ l -> split sep (l ++ sep :: s) = l :: split sep s.
Proof.
  induction l as [| c l IH]; intros Hl.
  - apply split_cons_sep.
  - apply not_elem_of_cons in Hl as [Hc Hl]. simpl.
    destruct (N.eqb_spec c sep); [congruence |]. by rewrite IH.
Qed.

Lemma split_single l : sep ∉ l -> split sep l = [l].
Proof.
  induction l as [| c l IH]; intros Hl; [reflexivity |].
  apply not_elem_of_cons in Hl as [Hc Hl]. simpl.
  destruct (N.eqb_spec c sep); [congruence |]. by rewrite IH.
Qed.

Lemma split_join ls :
  ls <> [] -> Forall (fun l => sep ∉ l) ls ->
  split sep (Py.join [sep] ls) = ls.
Proof.
  intros Hne Hls. induction Hls as [| l ls Hl Hls IH]; [done |].
  destruct ls as [| l' ls].
  - simpl. by apply split_single.
  - change (Py.join [sep] (l :: l' :: ls))
      with (l ++ sep :: Py.join [sep] (l' :: ls)).
    rewrite split_app by exact Hl. f_equal. by apply IH.
Qed.

Lemma join_split s : Py.join [sep] (split sep s) = s.
Proof.
  induction s as [| c s IH]; [reflexivity |].
  simpl. destruct (N.eqb_spec c sep) as [-> | Hne].
  - destruct (split_is_cons s) as (l & ls & Hs). rewrite Hs in *.
    simpl. simpl in IH. by rewrite IH.
  - destruct (split_is_cons s) as (l & ls & Hs). rewrite Hs in *.
    destruct ls; simpl in *; by rewrite <- IH.
Qed.

End SplitJoin.

(** ** The header cell *)

Ltac evaluate c := let v := eval vm_compute in c in change c with v.

Ltac not_in_list :=
  let H := fresh in
  intros H;
  repeat (apply elem_of_cons in H as [H | H]; [discriminate H |]);
  by apply elem_of_nil in H.

(** Replacing the [\quad]s of a text neither removes nor creates a
    marker, and neither does trimming it first. *)
Lemma marker_replaced m s :
  m ∈ markers -> contains m (replace QUAD SPACES s) = contains m s.
Proof.
  intros Hm. apply eq_true_iff_eq. evaluate QUAD. unfold markers in Hm.
  repeat (apply elem_of_cons in Hm as [-> | Hm];
          [ match goal with |- context [contains ?m _] => evaluate m end;
            split;
            [ apply replace_spaces_creates_nothing;
                [discriminate | reflexivity]
            | apply replace_keeps; not_in_list ] |]).
  by apply elem_of_nil in Hm.
Qed.

Lemma marker_stripped m s :
  m ∈ markers -> contains m (strip s) = contains m s.
Proof.
  intros Hm. apply contains_strip; unfold markers in Hm;
    repeat (apply elem_of_cons in Hm as [-> | Hm]; [reflexivity |]);
    by apply elem_of_nil in Hm.
Qed.

Lemma marker_cleaned m line :
  m ∈ markers ->
  contains m (replace QUAD SPACES (strip line)) = contains m line.
Proof. intros Hm. by rewrite marker_replaced, marker_stripped. Qed.

Lemma NAME_marker : NAME ∈ markers.
Proof. by left. Qed.
Lemma CITY_marker : CITY ∈ markers.
Proof. right. by left. Qed.
Lemma EMAIL_marker : EMAIL ∈ markers.
Proof. do 2 right. by left. Qed.
Lemma PHONE_marker : PHONE ∈ markers.
Proof. do 3 right. by left. Qed.

(** The loop body of [_fix_header_content], in terms of the line as it is
    in the cell. *)
Lemma clean_header_line_spec line :
  clean_header_line line
  = if contains CITY line && contains EMAIL line then
      if contains PHONE line
      then Some (replace QUAD SPACES (replace QUAD SPACES (strip line)))
      else Some CONTACT
    else if contains NAME line
         then Some (replace QUAD SPACES (strip line))
         else None.
Proof.
  unfold clean_header_line.
  rewrite <- (marker_cleaned CITY line), <- (marker_cleaned EMAIL line),
    <- (marker_cleaned PHONE line), <- (marker_cleaned NAME line)
    by auto using NAME_marker, CITY_marker, EMAIL_marker, PHONE_marker.
  destruct (strip line) as [| c s]; [reflexivity |].
  destruct (contains CITY _ && contains EMAIL _).
  - by destruct (contains PHONE _).
  - reflexivity.
Qed.

(** C5. A line of the header cell that contains the location marker and
    the email marker but not the phone number is replaced, as a whole, by
    the canonical contact string: the loop body yields that string for it,
    and the string is a line of the text the cell receives. *)
Theorem contact_line_regenerated (line : str) :
  contains CITY line = true ->
  contains EMAIL line = true ->
  contains PHONE line = false ->
  clean_header_line line = Some CONTACT
  /\ forall header_text,
       line ∈ split LF header_text ->
       CONTACT ∈ cleaned_header_lines header_text.
Proof.
  intros Hcity Hemail Hphone.
  assert (Hline : clean_header_line line = Some CONTACT).
  { rewrite clean_header_line_spec, Hcity, Hemail, Hphone. reflexivity. }
  split; [exact Hline |].
  intros header_text Hin. unfold cleaned_header_lines.
  assert (Hc : CONTACT ∈ omap clean_header_line (split LF header_text)).
  { apply list_elem_of_omap. eauto. }
  destruct (existsb (contains NAME) _);
    destruct (existsb (contains CITY) _);
    rewrite ?elem_of_app, ?elem_of_cons; auto.
Qed.

Lemma contact_line_regenerated_witness :
  clean_header_line (U "  Cottbus, Germany \quad shirzarm@b-tu.de ")
  = Some CONTACT.
Proof.
  apply (contact_line_regenerated
           (U "  Cottbus, Germany \quad shirzarm@b-tu.de "));
    vm_compute; reflexivity.
Defined.

(** *** The lines the header cell receives *)







(** ** The header table *)

Lemma is_header_table_true t :
  is_header_table t = Returned true <-> header_like t.
Proof.
  unfold header_like. split.
  - destruct t as [| [| cell00 [| cell01 cells0]] [| [| cell10 cells1] rows]];
      try discriminate.
    cbn [is_header_table]. intros [= H].
    apply andb_true_iff in H as [Hn Hc].
    rewrite marker_stripped in Hn by apply NAME_marker.
    rewrite marker_stripped in Hc by apply CITY_marker.
    by exists cell00, cell01, cells0, cell10, cells1, rows.
  - intros (cell00 & cell01 & cells0 & cell10 & cells1 & rows & -> & Hn & Hc).
    cbn [is_header_table].
    rewrite (marker_stripped NAME) by apply NAME_marker.
    rewrite (marker_stripped CITY) by apply CITY_marker.
    by rewrite Hn, Hc.
Qed.

Section HeaderTable.
Variables (env : Env) (self : Self) (w : World).

Lemma handle_tables_length ts :
  length (handle_tables env self w ts).2 = length ts.
Proof.
  induction ts as [| t ts IH]; [reflexivity |]. simpl.
  destruct (is_header_table t) as [[|] | e]; simpl; try reflexivity.
  - by destruct ((_ ;; _)%py t).
  - destruct (handle_tables env self w ts). simpl in *. by rewrite IH.
Qed.

(** C8. A table the detector does not select (fewer than two rows, fewer
    than two cells in row 0, no identity marker in row 0 / column 0 or no
    location marker in row 1 / column 0) is the same table after
    [_handle_header_with_photo], whether that returns or raises; and the
    rest of the document is not touched either. *)
Theorem other_tables_untouched (d : Document) (i : nat) (t : Table) :
  tables d !! i = Some t ->
  ~ header_like t ->
  let d' := (_handle_header_with_photo env self w d).2 in
  tables d' !! i = Some t
  /\ length (tables d') = length (tables d)
  /\ paragraphs d' = paragraphs d
  /\ styles d' = styles d
  /\ sections d' = sections d.
Proof.
  intros Hi Ht. unfold _handle_header_with_photo.
  pose proof (handle_tables_length (tables d)) as Hlen.
  assert (Hkeep : (handle_tables env self w (tables d)).2 !! i = Some t).
  { clear Hlen. revert i Hi. induction (tables d) as [| t0 ts IH]; intros i Hi.
    - done.
    - simpl. destruct (is_header_table t0) as [[|] | e] eqn:Htest.
      + destruct ((_ ;; _)%py t0) as [o t0']. simpl.
        destruct i as [| i]; [| exact Hi].
        simpl in Hi. injection Hi as ->.
        by apply is_header_table_true in Htest.
      + specialize (IH (pred i)).
        destruct (handle_tables env self w ts) as [o ts']. simpl in *.
        destruct i as [| i]; [exact Hi | by apply IH].
      + exact Hi. }
  destruct (handle_tables env self w (tables d)) as [o ts']. simpl in *.
  by repeat split.
Qed.

(** Without a table to select, the pass changes nothing at all. *)
Lemma no_header_no_change (d : Document) :
  Forall (fun t => ~ header_like t) (tables d) ->
  (_handle_header_with_photo env self w d).2 = d.
Proof.
  intros Hall. unfold _handle_header_with_photo.
  assert (H : (handle_tables env self w (tables d)).2 = tables d).
  { induction Hall as [| t ts Ht _ IH]; [reflexivity |]. simpl.
    destruct (is_header_table t) as [[|] | e] eqn:Htest.
    - by apply is_header_table_true in Htest.
    - destruct (handle_tables env self w ts). simpl in *. by rewrite IH.
    - reflexivity. }
  destruct (handle_tables env self w (tables d)) as [o ts']. simpl in *.
  subst ts'. by destruct d.
Qed.



End HeaderTable.

Lemma other_tables_untouched_witness :
  tables (_handle_header_with_photo Sample.env Sample.self Sample.world
            (Sample.with_tables [Sample.header_table; Sample.dates_table])).2
    !! 1%nat
  = Some Sample.dates_table.
Proof.
  apply (other_tables_untouched Sample.env Sample.self Sample.world
           (Sample.with_tables [Sample.header_table; Sample.dates_table])
           1 Sample.dates_table).
  - reflexivity.
  - intros (c00 & c01 & cs0 & c10 & cs1 & rows & Ht & Hn & _).
    injection Ht as <- _ _ _ _ _. vm_compute in Hn. discriminate.
Defined.



(** ** The structural classifier *)

Section Classifier.
Implicit Types (p : Paragraph) (d : Document).

Lemma for_each_total {A : Type} (f : A -> A) (body : A -> outcome A)
    (l : list A) :
  (forall x, body x = Returned (f x)) ->
  for_each body l = (Returned tt, map f l).
Proof.
  intros Hbody. induction l as [| x l IH]; [reflexivity |].
  simpl. by rewrite Hbody, IH.
Qed.

Lemma is_section_header_true p :
  is_section_header p = true
  <-> exists keyword,
        keyword ∈ section_keywords /\ keyword `prefix_of` strip (text p).
Proof.
  unfold is_section_header. rewrite existsb_exists.
  split; intros (k & Hk & Hst); exists k.
  - split; [by apply list_elem_of_In | by apply startswith_prefix].
  - split; [by apply list_elem_of_In | by apply startswith_prefix].
Qed.

Lemma is_list_item_true p :
  is_list_item p = true
  <-> U "•" `prefix_of` strip (text p) \/ U "-" `prefix_of` strip (text p).
Proof.
  unfold is_list_item. by rewrite orb_true_iff, !startswith_prefix.
Qed.

(** A section title starts with a letter, a list item with a bullet or a
    hyphen: no paragraph passes both guards. *)
Lemma guards_exclusive p :
  is_section_header p = true -> is_list_item p = false.
Proof.
  unfold is_section_header, is_list_item.
  destruct (strip (text p)) as [| c t]; [vm_compute; discriminate |].
  intros (k & Hk & Hst)%existsb_exists. revert Hk Hst.
  evaluate section_keywords. cbn [In]. intros Hk Hst.
  repeat (destruct Hk as [<- | Hk];
          [apply startswith_head in Hst as <-; reflexivity |]).
  destruct Hk.
Qed.

Lemma format_sections_acts d :
  is_Some (styles d !! "Heading 1"%string) ->
  _format_sections d
  = (Returned tt,
     each_paragraph
       (fun p => match classify p with
                 | heading => as_heading p
                 | _ => p
                 end) d).
Proof.
  intros [st Hst]. unfold _format_sections, each_paragraph.
  rewrite (for_each_total
             (fun p => match classify p with
                       | heading => as_heading p
                       | _ => p
                       end)); [reflexivity |].
  intros p. unfold classify. rewrite Hst.
  destruct (is_section_header p); [reflexivity |].
  by destruct (is_list_item p).
Qed.

Lemma is_list_item_classify p :
  is_list_item p = true <-> classify p = list_item.
Proof.
  unfold classify. pose proof (guards_exclusive p) as Hex.
  destruct (is_section_header p).
  - rewrite Hex by done. split; discriminate.
  - destruct (is_list_item p); split; done.
Qed.

Lemma not_list_item_classify p :
  is_list_item p = false <-> classify p <> list_item.
Proof.
  rewrite <- is_list_item_classify. by destruct (is_list_item p).
Qed.

(** The body of the loop of [_format_lists] on a list item: two
    assignments go through, the third is refused. *)
Lemma list_item_refused p :
  (set_left_indent (Pt 10) ;; set_space_before (Pt 0) ;;
   set_space_after (Pt (-1)) ;; set_line_spacing (Multiple 9))%py p
  = (Raised ValueError, as_list_item p).
Proof. reflexivity. Qed.

Lemma for_each_list_item (ps : list Paragraph) :
  for_each_mutating
    (fun paragraph =>
       if is_list_item paragraph then
         (set_left_indent (Pt 10) ;; set_space_before (Pt 0) ;;
          set_space_after (Pt (-1)) ;; set_line_spacing (Multiple 9))%py
           paragraph
       else (Returned tt, paragraph)) ps
  = (if existsb is_list_item ps then Raised ValueError else Returned tt,
     stop_at_list_item ps).
Proof.
  induction ps as [| p ps IH]; [reflexivity |].
  cbn [for_each_mutating existsb stop_at_list_item].
  destruct (is_list_item p).
  - by rewrite list_item_refused.
  - by rewrite IH.
Qed.

Lemma format_lists_acts d :
  _format_lists d
  = (if existsb is_list_item (paragraphs d) then Raised ValueError
     else Returned tt,
     set_paragraphs (stop_at_list_item (paragraphs d)) d).
Proof. unfold _format_lists. by rewrite for_each_list_item. Qed.

Lemma stop_at_list_item_none (ps : list Paragraph) :
  Forall (fun p => is_list_item p = false) ps ->
  existsb is_list_item ps = false /\ stop_at_list_item ps = ps.
Proof.
  induction 1 as [| p ps Hp _ [IHe IHs]]; [done |].
  cbn [existsb stop_at_list_item]. by rewrite Hp, IHe, IHs.
Qed.

Lemma stop_at_list_item_first (before after : list Paragraph) p :
  Forall (fun p => is_list_item p = false) before ->
  is_list_item p = true ->
  existsb is_list_item (before ++ p :: after) = true
  /\ stop_at_list_item (before ++ p :: after)
     = before ++ as_list_item p :: after.
Proof.
  intros Hb Hp. induction Hb as [| q before Hq _ [IHe IHs]].
  - cbn [app existsb stop_at_list_item]. by rewrite Hp.
  - cbn [app existsb stop_at_list_item]. by rewrite Hq, IHe, IHs.
Qed.


Lemma existsb_list_item_false (ps : list Paragraph) :
  existsb is_list_item ps = false
  <-> Forall (fun p => is_list_item p = false) ps.
Proof.
  induction ps as [| p ps IH]; cbn [existsb].
  - split; [constructor | done].
  - rewrite orb_false_iff, IH, Forall_cons. done.
Qed.

(** C7. A paragraph is a heading exactly when its trimmed text starts with
    one of the section titles, compared character by character; a list item
    exactly when its trimmed text starts with a bullet or a hyphen; body
    text otherwise, in particular when it is empty. [_format_sections] acts
    on the headings and on nothing else. [_format_lists] acts on list items
    and on nothing else: without a list item it returns and leaves the
    document as it is; otherwise it passes over the paragraphs before the
    first list item, sets the indent and the space before of that one, and
    ends there with the [ValueError] of the negative space after. *)
Theorem structural_classifier :
  (forall p,
     (classify p = heading
      <-> exists keyword,
            keyword ∈ section_keywords
            /\ keyword `prefix_of` strip (text p))
     /\ (classify p = list_item
         <-> U "•" `prefix_of` strip (text p)
             \/ U "-" `prefix_of` strip (text p))
     /\ (classify p = body
         <-> ~ (exists keyword,
                  keyword ∈ section_keywords
                  /\ keyword `prefix_of` strip (text p))
             /\ ~ (U "•" `prefix_of` strip (text p)
                   \/ U "-" `prefix_of` strip (text p)))
     /\ (strip (text p) = [] -> classify p = body))
  /\ (forall d,
        is_Some (styles d !! "Heading 1"%string) ->
        _format_sections d
        = (Returned tt,
           each_paragraph
             (fun p => match classify p with
                       | heading => as_heading p
                       | _ => p
                       end) d))
  /\ (forall d,
        Forall (fun p => classify p <> list_item) (paragraphs d) ->
        _format_lists d = (Returned tt, d))
  /\ (forall d before p after,
        paragraphs d = before ++ p :: after ->
        Forall (fun q => classify q <> list_item) before ->
        classify p = list_item ->
        _format_lists d
        = (Raised ValueError,
           set_paragraphs (before ++ as_list_item p :: after) d)).
Proof.
  split; [| split; [| split]].
  - intros p. rewrite <- is_section_header_true, <- is_list_item_true.
    unfold classify.
    pose proof (guards_exclusive p) as Hex.
    destruct (is_section_header p) eqn:Hs; [rewrite Hex by done |];
      destruct (is_list_item p) eqn:Hl; try discriminate (Hex eq_refl);
      repeat split; try done; try tauto; try (intros [? ?]; done).
    + intros Ht. unfold is_section_header in Hs. rewrite Ht in Hs.
      vm_compute in Hs. discriminate.
    + intros Ht. unfold is_list_item in Hl. rewrite Ht in Hl.
      vm_compute in Hl. discriminate.
  - apply format_sections_acts.
  - intros d Hnone. rewrite format_lists_acts.
    destruct (stop_at_list_item_none (paragraphs d)) as [-> ->].
    + eapply Forall_impl; [exact Hnone |].
      intros p. apply not_list_item_classify.
    + by destruct d.
  - intros d before p after Hps Hbefore Hp. rewrite format_lists_acts, Hps.
    destruct (stop_at_list_item_first before after p) as [-> ->].
    + eapply Forall_impl; [exact Hbefore |].
      intros q. apply not_list_item_classify.
    + by apply is_list_item_classify.
    + reflexivity.
Qed.

End Classifier.

Lemma structural_classifier_witness :
  classify (Sample.par "Kurzprofil") = heading
  /\ _format_sections Sample.styled_draft
     = (Returned tt,
        each_paragraph
          (fun p => match classify p with
                    | heading => as_heading p
                    | _ => p
                    end) Sample.styled_draft)
  /\ _format_lists Sample.draft = (Returned tt, Sample.draft)
  /\ _format_lists Sample.listed_draft
     = (Raised ValueError,
        set_paragraphs
          [Sample.par "Kurzprofil"; as_list_item (Sample.par "- Python und Go");
           Sample.par "- Rocq"] Sample.listed_draft).
Proof.
  split; [| split; [| split]].
  - apply (proj1 structural_classifier (Sample.par "Kurzprofil")).
    exists (U "Kurzprofil"). split.
    + by left.
    + apply startswith_prefix. vm_compute. reflexivity.
  - apply (proj1 (proj2 structural_classifier) Sample.styled_draft).
    vm_compute. by eexists.
  - apply (proj1 (proj2 (proj2 structural_classifier)) Sample.draft).
    repeat constructor; vm_compute; discriminate.
  - apply (proj2 (proj2 (proj2 structural_classifier)) Sample.listed_draft
             [Sample.par "Kurzprofil"] (Sample.par "- Python und Go")
             [Sample.par "- Rocq"]).
    + reflexivity.
    + repeat constructor; vm_compute; discriminate.
    + vm_compute. reflexivity.
Defined.

(** ** The style and layout normalizer *)

Section Normalizer.
Implicit Types (p : Paragraph) (d : Document).
Local Open Scope string_scope.

Lemma format_paragraph_text p : text (format_paragraph p) = text p.
Proof. unfold format_paragraph. by destruct (classify p). Qed.

Lemma classify_format_paragraph p :
  classify (format_paragraph p) = classify p.
Proof.
  unfold classify, is_section_header, is_list_item.
  by rewrite format_paragraph_text.
Qed.

Lemma format_paragraph_idempotent p :
  format_paragraph (format_paragraph p) = format_paragraph p.
Proof.
  unfold format_paragraph at 1. rewrite classify_format_paragraph.
  unfold format_paragraph. by destruct (classify p).
Qed.

Lemma is_list_item_format_paragraph p :
  is_list_item (format_paragraph p) = is_list_item p.
Proof. unfold is_list_item. by rewrite format_paragraph_text. Qed.

Lemma format_paragraph_list_item p :
  is_list_item p = true -> format_paragraph p = p.
Proof.
  intros Hp%is_list_item_classify. unfold format_paragraph. by rewrite Hp.
Qed.

Lemma as_list_item_idempotent p :
  as_list_item (as_list_item p) = as_list_item p.
Proof. reflexivity. Qed.

Lemma existsb_format_paragraph (ps : list Paragraph) :
  existsb is_list_item (map format_paragraph ps) = existsb is_list_item ps.
Proof.
  induction ps as [| p ps IH]; [reflexivity |].
  cbn [map existsb]. by rewrite is_list_item_format_paragraph, IH.
Qed.

Lemma existsb_stop_at_list_item (ps : list Paragraph) :
  existsb is_list_item (stop_at_list_item ps) = existsb is_list_item ps.
Proof.
  induction ps as [| p ps IH]; [reflexivity |].
  cbn [stop_at_list_item]. destruct (is_list_item p) eqn:Hp.
  - cbn [existsb]. change (is_list_item (as_list_item p))
      with (is_list_item p). by rewrite Hp.
  - cbn [existsb]. by rewrite Hp, IH.
Qed.

Lemma stop_at_list_item_idempotent (ps : list Paragraph) :
  stop_at_list_item (stop_at_list_item ps) = stop_at_list_item ps.
Proof.
  induction ps as [| p ps IH]; [reflexivity |].
  cbn [stop_at_list_item]. destruct (is_list_item p) eqn:Hp.
  - cbn [stop_at_list_item]. change (is_list_item (as_list_item p))
      with (is_list_item p). by rewrite Hp.
  - cbn [stop_at_list_item]. by rewrite Hp, IH.
Qed.

(** Formatting the headings of the paragraphs [_format_lists] has left is
    the same as formatting them before that pass: the list item it stopped
    at is no heading. *)
Lemma format_paragraph_stop (ps : list Paragraph) :
  map format_paragraph (stop_at_list_item ps)
  = stop_at_list_item (map format_paragraph ps).
Proof.
  induction ps as [| p ps IH]; [reflexivity |].
  cbn [stop_at_list_item map]. rewrite is_list_item_format_paragraph.
  destruct (is_list_item p) eqn:Hp.
  - cbn [map]. rewrite (format_paragraph_list_item p Hp).
    by rewrite (format_paragraph_list_item (as_list_item p)).
  - cbn [map]. by rewrite IH.
Qed.

Lemma normalize_without_normal d :
  styles d !! "Normal" = None ->
  normalize d = (Raised (KeyError "Normal"), d).
Proof.
  intros Hn. unfold normalize, bind, _setup_document_styles. by rewrite Hn.
Qed.

Lemma setup_document_styles_with_normal d normal :
  styles d !! "Normal" = Some normal ->
  _setup_document_styles d
  = (Returned tt, set_styles (normal_styles (styles d) normal) d).
Proof.
  intros Hn. unfold _setup_document_styles. rewrite Hn.
  unfold normal_styles, restyle. cbn zeta.
  by destruct (<["Normal":=_]> (styles d) !! "Heading 1").
Qed.

(** The lengths of the page, to the nearest twip. *)
Lemma apply_page_layout_acts d :
  _apply_page_layout d
  = (Returned tt, set_sections (map (fun _ => a4_section) (sections d)) d).
Proof. reflexivity. Qed.

(** With a base style, the normalizer gets as far as [_format_lists]: the
    styles, the page and the headings are set, and the outcome is that of
    the list pass. *)
Lemma normalize_with_normal d normal :
  styles d !! "Normal" = Some normal ->
  normalize d
  = (if existsb is_list_item (paragraphs d) then Raised ValueError
     else Returned tt,
     mkDocument (stop_at_list_item (map format_paragraph (paragraphs d)))
       (tables d) (normal_styles (styles d) normal)
       (map (fun _ => a4_section) (sections d))).
Proof.
  intros Hn. unfold normalize, bind.
  rewrite (setup_document_styles_with_normal d normal Hn).
  rewrite apply_page_layout_acts.
  rewrite format_sections_acts.
  2:{ simpl. unfold normal_styles. rewrite lookup_insert_eq. by eexists. }
  rewrite format_lists_acts.
  cbn [each_paragraph set_paragraphs set_sections set_styles paragraphs
       tables styles sections].
  fold format_paragraph.
  change (map (fun p => match classify p with
                        | heading => as_heading p
                        | _ => p
                        end) (paragraphs d))
    with (map format_paragraph (paragraphs d)).
  by rewrite existsb_format_paragraph.
Qed.

Lemma normal_styles_idempotent (st : gmap string Style) normal :
  exists normal',
    normal_styles st normal !! "Normal" = Some normal'
    /\ normal_styles (normal_styles st normal) normal'
       = normal_styles st normal.
Proof.
  exists (restyle normal_font normal_paragraph normal). split.
  - unfold normal_styles. by rewrite lookup_insert_ne, lookup_insert_eq.
  - unfold normal_styles at 1.
    assert (Hn : normal_styles st normal !! "Normal"
                 = Some (restyle normal_font normal_paragraph normal)).
    { unfold normal_styles. by rewrite lookup_insert_ne, lookup_insert_eq. }
    rewrite (insert_id _ _ _ Hn).
    assert (Hh : exists h,
               normal_styles st normal !! "Heading 1"
               = Some (restyle section_font section_paragraph h)).
    { unfold normal_styles. rewrite lookup_insert_eq. by eexists. }
    destruct Hh as [h Hh]. rewrite Hh. simpl.
    by apply insert_id.
Qed.

(** C9. Running the normalizer on the document it has left gives the
    same document and the same outcome as the first run: styles, page
    geometry and paragraph formatting are what they were. This holds also
    where the run ends with an exception, for want of a base style or at
    the first list item: the second run ends in the same way and leaves
    what the first left. *)
Theorem normalize_idempotent d :
  normalize (normalize d).2 = normalize d.
Proof.
  destruct (styles d !! "Normal") as [normal |] eqn:Hn.
  - rewrite (normalize_with_normal d normal Hn). cbn [snd].
    destruct (normal_styles_idempotent (styles d) normal)
      as (normal' & Hn' & Hidem).
    rewrite (normalize_with_normal (mkDocument _ _ _ _) normal' Hn').
    cbn [paragraphs tables styles sections].
    rewrite Hidem, existsb_stop_at_list_item, existsb_format_paragraph.
    rewrite format_paragraph_stop, stop_at_list_item_idempotent.
    rewrite !map_map.
    rewrite (map_ext (fun p => format_paragraph (format_paragraph p))
               format_paragraph) by apply format_paragraph_idempotent.
    reflexivity.
  - rewrite (normalize_without_normal d Hn). simpl.
    by apply normalize_without_normal.
Qed.

End Normalizer.

(** ** Patterns of fixed width *)

Section Fits.
Implicit Types (sh : shape) (s x z : str).

Lemma fits_length sh s : fits sh s = true -> (length sh <= length s)%nat.
Proof.
  revert s. induction sh as [| p sh IH]; intros [| c s]; simpl;
    try lia; try discriminate.
  intros [_ H]%andb_true_iff. apply IH in H. lia.
Qed.

Lemma fits_short sh s : (length s < length sh)%nat -> fits sh s = false.
Proof.
  intros Hlt. destruct (fits sh s) eqn:H; [| reflexivity].
  apply fits_length in H. lia.
Qed.

Lemma fits_app sh1 sh2 s :
  fits (sh1 ++ sh2) s = fits sh1 s && fits sh2 (drop (length sh1) s).
Proof.
  revert s. induction sh1 as [| p sh1 IH]; intros s; [reflexivity |].
  destruct s as [| c s]; [reflexivity |]. simpl.
  by rewrite IH, andb_assoc.
Qed.

(** Text after the window does not matter. *)
Lemma fits_extend sh x z :
  (length sh <= length x)%nat -> fits sh (x ++ z) = fits sh x.
Proof.
  revert x. induction sh as [| p sh IH]; intros x Hle; [reflexivity |].
  destruct x as [| c x]; simpl in *; [lia |].
  rewrite IH by lia. reflexivity.
Qed.

(** A window that reaches beyond [x] splits at the end of [x]. *)
Lemma fits_straddle sh x z :
  (length x < length sh)%nat ->
  fits sh (x ++ z)
  = fits (take (length x) sh) x && fits (drop (length x) sh) z.
Proof.
  revert sh. induction x as [| c x IH]; intros sh Hlt.
  - simpl. by rewrite drop_0.
  - destruct sh as [| p sh]; simpl in *; [lia |].
    rewrite IH by lia. by rewrite andb_assoc.
Qed.

Lemma run_Lit_fits {R : Type} (w : str) pos s g
    (k : nat -> str -> groups -> option R) :
  run (Lit w) pos s g k
  = if fits (map is_chr w) s
    then k (pos + length w)%nat (drop (length w) s) g
    else None.
Proof.
  revert pos s. induction w as [| a w IH]; intros pos s.
  - simpl. by rewrite Nat.add_0_r, drop_0.
  - destruct s as [| c s]; [reflexivity |].
    cbn [Lit run map fits length]. unfold is_chr at 1.
    destruct (c =? a); [| reflexivity].
    rewrite IH. simpl. by rewrite Nat.add_succ_r.
Qed.

Lemma run_Rep_fits {R : Type} (cl : cclass) (n : nat) pos s g
    (k : nat -> str -> groups -> option R) :
  run (Rep n (Cls cl)) pos s g k
  = if fits (replicate n (in_class cl)) s
    then k (pos + n)%nat (drop n s) g
    else None.
Proof.
  revert pos s. induction n as [| n IH]; intros pos s.
  - simpl. by rewrite Nat.add_0_r, drop_0.
  - destruct s as [| c s]; [reflexivity |].
    cbn [Rep run replicate fits].
    destruct (in_class cl c); [| reflexivity].
    rewrite IH. simpl. by rewrite Nat.add_succ_r.
Qed.

End Fits.

(** *** [re.sub] with a pattern of fixed width *)

Section FixedWidth.
Variables (r : regex) (t : template) (sh : shape) (G : str -> groups).
Hypothesis match_at_fits :
  forall pos s,
    match_at r pos s = if fits sh s then Some (length sh, G s) else None.
Hypothesis shape_nonempty : sh <> [].
Hypothesis groups_local :
  forall s z, fits sh s = true -> G (s ++ z) = G s.
Implicit Types (s x y : str) (c : char).

Lemma shape_length : exists n, length sh = S n.
Proof using shape_nonempty.
  clear match_at_fits groups_local.
  destruct sh; [done | by eexists].
Qed.

Lemma fits_nil : fits sh [] = false.
Proof using shape_nonempty.
  clear match_at_fits groups_local.
  destruct sh; [done | reflexivity].
Qed.

Lemma sub_go_pos s pos pos' skip :
  sub_go r t pos skip s = sub_go r t pos' skip s.
Proof using match_at_fits.
  revert pos pos' skip. induction s as [| c s IH]; intros pos pos' skip.
  - destruct skip; [| reflexivity]. simpl. by rewrite !match_at_fits.
  - destruct skip as [| n]; simpl.
    + rewrite !match_at_fits. destruct (fits sh (c :: s)).
      * f_equal. destruct (length sh); [f_equal |]; apply IH.
      * f_equal. apply IH.
    + apply IH.
Qed.

Lemma sub_nil : sub r t [] = [].
Proof using match_at_fits shape_nonempty.
  unfold sub. simpl. by rewrite match_at_fits, fits_nil.
Qed.

Lemma sub_go_skip n s pos : sub_go r t pos n s = sub r t (drop n s).
Proof using match_at_fits shape_nonempty.
  revert s pos. induction n as [| n IH]; intros s pos.
  - rewrite drop_0. apply sub_go_pos.
  - destruct s as [| c s]; [| apply IH].
    simpl. by rewrite sub_nil.
Qed.

Lemma sub_match s :
  fits sh s = true ->
  sub r t s = expand t (G s) ++ sub r t (drop (length sh) s).
Proof using match_at_fits shape_nonempty.
  intros Hfit. unfold sub at 1.
  destruct s as [| c s].
  - by rewrite fits_nil in Hfit.
  - simpl. rewrite match_at_fits, Hfit. f_equal.
    destruct shape_length as [n ->]. simpl. apply sub_go_skip.
Qed.

Lemma sub_nomatch c s :
  fits sh (c :: s) = false -> sub r t (c :: s) = c :: sub r t s.
Proof using match_at_fits.
  intros Hfit. unfold sub at 1. simpl. rewrite match_at_fits, Hfit.
  f_equal. apply sub_go_pos.
Qed.

(** A character that no window can cover, whatever is to its left, cuts
    the text in two. *)
Lemma sub_split c y :
  (forall i, (i < length sh)%nat -> fits (drop i sh) (c :: y) = false) ->
  forall x, sub r t (x ++ c :: y) = sub r t x ++ c :: sub r t y.
Proof using match_at_fits shape_nonempty groups_local.
  intros Hinert x. induction x as [x IH] using length_induction.
  destruct shape_length as [n Hn].
  destruct x as [| a x].
  - simpl. rewrite sub_nil. apply sub_nomatch.
    rewrite <- (drop_0 sh). apply Hinert. lia.
  - destruct (decide (length sh <= length (a :: x))%nat) as [Hle | Hgt].
    + destruct (fits sh (a :: x)) eqn:Hfit.
      * rewrite (sub_match (a :: x) Hfit).
        rewrite sub_match by (by rewrite fits_extend).
        rewrite (groups_local _ _ Hfit), <- app_assoc. f_equal.
        rewrite drop_app_le by exact Hle.
        apply IH. rewrite length_drop. simpl in *. lia.
      * rewrite (sub_nomatch a x Hfit). simpl app.
        rewrite sub_nomatch.
        -- simpl. f_equal. apply IH. simpl. lia.
        -- change (a :: x ++ c :: y) with ((a :: x) ++ c :: y).
           by rewrite fits_extend.
    + assert (Hshort : fits sh (a :: x) = false) by (apply fits_short; lia).
      rewrite (sub_nomatch a x Hshort). simpl app.
      rewrite sub_nomatch.
      * simpl. f_equal. apply IH. simpl. lia.
      * change (a :: x ++ c :: y) with ((a :: x) ++ c :: y).
        rewrite fits_straddle by lia.
        rewrite Hinert by lia. apply andb_false_r.
Qed.

End FixedWidth.

(** *** The two families of date rules as patterns of fixed width *)

Lemma match_at_collapse (dd : str) pos s :
  match_at (cat [Lit dd; Lit [47]; Group 1 (Rep 4 (Cls Digit))]) pos s
  = if fits (collapse_shape dd) s
    then Some (length (collapse_shape dd), collapse_groups dd s)
    else None.
Proof.
  unfold match_at, collapse_shape, collapse_groups. cbn [cat run].
  rewrite run_Lit_fits, !fits_app.
  destruct (fits (map is_chr dd) s); [| reflexivity].
  rewrite length_map, run_Lit_fits. cbn [map length].
  change (fits [is_chr 47] (drop (length dd) s))
    with (fits ([is_chr 47] ++ []) (drop (length dd) s)).
  rewrite fits_app, andb_true_r.
  destruct (fits [is_chr 47] (drop (length dd) s)); [| reflexivity].
  rewrite run_Rep_fits. cbn [length]. rewrite drop_drop.
  change (in_class Digit) with isdecimal. cbn [andb].
  destruct (fits (replicate 4 isdecimal) (drop (length dd + 1) s));
    [| reflexivity].
  rewrite !length_app, length_map, length_replicate. cbn [length].
  replace (pos + length dd + 1 + 4 - pos)%nat
    with (length dd + (1 + 4))%nat by lia.
  replace (pos + length dd + 1 + 4 - (pos + length dd + 1))%nat
    with 4%nat by lia.
  reflexivity.
Qed.

Lemma match_at_fallback (year : str) pos s :
  match_at (cat [Lit [47]; Group 1 (Lit year)]) pos s
  = if fits (fallback_shape year) s
    then Some (length (fallback_shape year), fallback_groups year s)
    else None.
Proof.
  unfold match_at, fallback_shape, fallback_groups. cbn [cat run].
  rewrite run_Lit_fits. cbn [map length].
  change (is_chr 47 :: map is_chr year)
    with ([is_chr 47] ++ map is_chr year).
  rewrite fits_app. cbn [length].
  destruct (fits [is_chr 47] s); [| reflexivity].
  rewrite run_Lit_fits. cbn [andb].
  destruct (fits (map is_chr year) (drop 1 s)); [| reflexivity].
  rewrite length_map. cbn [length].
  replace (pos + 1 + length year - pos)%nat with (S (length year)) by lia.
  replace (pos + 1 + length year - (pos + 1))%nat
    with (length year) by lia.
  reflexivity.
Qed.

Lemma collapse_groups_local dd s z :
  fits (collapse_shape dd) s = true ->
  collapse_groups dd (s ++ z) = collapse_groups dd s.
Proof.
  intros Hfit%fits_length. unfold collapse_groups, collapse_shape in *.
  rewrite !length_app, length_map, length_replicate in Hfit.
  cbn [length] in Hfit.
  rewrite drop_app_le by lia. rewrite take_app_le; [done |].
  rewrite length_drop. lia.
Qed.

Lemma fallback_groups_local year s z :
  fits (fallback_shape year) s = true ->
  fallback_groups year (s ++ z) = fallback_groups year s.
Proof.
  intros Hfit%fits_length. unfold fallback_groups, fallback_shape in *.
  cbn [length] in Hfit. rewrite length_map in Hfit.
  rewrite drop_app_le by lia. rewrite take_app_le; [done |].
  rewrite length_drop. lia.
Qed.

Lemma nondigit_neq (c a : char) :
  isdecimal c = false -> isdecimal a = true -> (c =? a) = false.
Proof.
  intros Hc Ha. destruct (N.eqb_spec c a); [congruence | reflexivity].
Qed.

(** Evaluate the tests of a window on a text whose first characters are
    known: tests on constants are computed, tests on a character known not
    to be a digit are decided, and the conjunction is simplified. *)
Ltac decide_tests :=
  cbn [fits drop app map replicate collapse_shape fallback_shape
         length Nat.add];
  unfold is_chr;
  repeat match goal with
    | H : isdecimal ?c = false |- context [isdecimal ?c] => rewrite H
    | H : isdecimal ?c = false |- context [?c =? Npos ?p] =>
        rewrite (nondigit_neq c (Npos p) H eq_refl)
    | |- context [isdecimal (Npos ?p)] =>
        let v := eval vm_compute in (isdecimal (Npos p)) in
        change (isdecimal (Npos p)) with v
    | |- context [Npos ?p =? Npos ?q] =>
        let v := eval vm_compute in (Npos p =? Npos q) in
        change (Npos p =? Npos q) with v
    end;
  rewrite ?andb_false_r, ?andb_true_r; cbn [andb];
  rewrite ?andb_false_r, ?andb_true_r; try reflexivity.

Section CollapseRule.
Variables (doubled month : str).
Let R : rule := collapse doubled month.
Let sh : shape := collapse_shape doubled.

Lemma collapse_shape_nonempty : sh <> [].
Proof. unfold sh, collapse_shape. by destruct (map is_chr doubled). Qed.

Lemma collapse_nil : sub R.1 R.2 [] = [].
Proof.
  apply (sub_nil R.1 R.2 sh (collapse_groups doubled)
           (match_at_collapse doubled) collapse_shape_nonempty).
Qed.

Lemma collapse_nomatch c s :
  fits sh (c :: s) = false -> sub R.1 R.2 (c :: s) = c :: sub R.1 R.2 s.
Proof.
  apply (sub_nomatch R.1 R.2 sh (collapse_groups doubled)
           (match_at_collapse doubled)).
Qed.

Lemma collapse_match s :
  fits sh s = true ->
  sub R.1 R.2 s
  = month ++ 47 :: take 4 (drop (length doubled + 1) s)
      ++ sub R.1 R.2 (drop (length sh) s).
Proof.
  intros Hfit.
  rewrite (sub_match R.1 R.2 sh (collapse_groups doubled)
             (match_at_collapse doubled) collapse_shape_nonempty s Hfit).
  unfold R, collapse, collapse_groups. cbn [snd expand group Nat.eqb default].
  change (U "/") with [47]. unfold id.
  by rewrite app_nil_r, <- !app_assoc.
Qed.

Lemma collapse_split c y :
  (forall i, (i < length sh)%nat -> fits (drop i sh) (c :: y) = false) ->
  forall x, sub R.1 R.2 (x ++ c :: y) = sub R.1 R.2 x ++ c :: sub R.1 R.2 y.
Proof.
  apply (sub_split R.1 R.2 sh (collapse_groups doubled)
           (match_at_collapse doubled) collapse_shape_nonempty
           (collapse_groups_local doubled)).
Qed.

End CollapseRule.

Section FallbackRule.
Variables (year month : str).
Let R : rule := fallback year month.
Let sh : shape := fallback_shape year.

Lemma fallback_shape_nonempty : sh <> [].
Proof. done. Qed.

Lemma fallback_nil : sub R.1 R.2 [] = [].
Proof.
  apply (sub_nil R.1 R.2 sh (fallback_groups year)
           (match_at_fallback year) fallback_shape_nonempty).
Qed.

Lemma fallback_nomatch c s :
  fits sh (c :: s) = false -> sub R.1 R.2 (c :: s) = c :: sub R.1 R.2 s.
Proof.
  apply (sub_nomatch R.1 R.2 sh (fallback_groups year)
           (match_at_fallback year)).
Qed.

Lemma fallback_match s :
  fits sh s = true ->
  sub R.1 R.2 s
  = month ++ 47 :: year ++ sub R.1 R.2 (drop (length sh) s).
Proof.
  intros Hfit.
  rewrite (sub_match R.1 R.2 sh (fallback_groups year)
             (match_at_fallback year) fallback_shape_nonempty s Hfit).
  unfold R, fallback. cbn [snd expand]. change (U "/") with [47].
  by rewrite app_nil_r, <- !app_assoc.
Qed.

Lemma fallback_split c y :
  (forall i, (i < length sh)%nat -> fits (drop i sh) (c :: y) = false) ->
  forall x, sub R.1 R.2 (x ++ c :: y) = sub R.1 R.2 x ++ c :: sub R.1 R.2 y.
Proof.
  apply (sub_split R.1 R.2 sh (fallback_groups year)
           (match_at_fallback year) fallback_shape_nonempty
           (fallback_groups_local year)).
Qed.

End FallbackRule.

(** ** A date in the paragraph-level pass *)

Lemma replacements_tables :
  run_replacements = map (fun dm => collapse dm.1 dm.2) doubled_prefixes
  /\ replacements
     = run_replacements
       ++ map (fun ym => fallback ym.1 ym.2) default_months.
Proof. split; reflexivity. Qed.

Ltac each_member H :=
  repeat (apply elem_of_cons in H as [-> | H]);
  [.. | by apply elem_of_nil in H].

Ltac evaluate_tables :=
  repeat match goal with
    | |- context [U ?s] => evaluate (U s)
    end;
  cbn [fst snd app].

Lemma collapse_first_char a dd mm c s :
  exists s', sub (collapse (a :: dd) (a :: mm)).1
               (collapse (a :: dd) (a :: mm)).2 (c :: s) = c :: s'.
Proof.
  destruct (fits (collapse_shape (a :: dd)) (c :: s)) eqn:Hfit.
  - rewrite collapse_match by exact Hfit.
    cbn [collapse_shape map app fits] in Hfit.
    apply andb_true_iff in Hfit as [->%N.eqb_eq _]. by eexists.
  - rewrite collapse_nomatch by exact Hfit. by eexists.
Qed.

Lemma collapse_middle dm ym m1 m2 post :
  dm ∈ doubled_prefixes -> ym ∈ default_months ->
  exists post',
    sub (collapse dm.1 dm.2).1 (collapse dm.1 dm.2).2
      (m1 :: m2 :: 47 :: ym.1 ++ post)
    = m1 :: m2 :: 47 :: ym.1 ++ post'.
Proof.
  intros Hdm Hym. unfold doubled_prefixes, default_months in *.
  each_member Hdm; each_member Hym; evaluate_tables;
    do 6 (rewrite collapse_nomatch by decide_tests);
    match goal with
    | |- context [sub (collapse (?a :: ?dd) (?a :: ?mm)).1 _ (?c :: ?s)] =>
        destruct (collapse_first_char a dd mm c s) as [post' ->]
    end;
    by exists post'.
Qed.

Lemma collapse_inert dm c0 m1 m2 y i :
  dm ∈ doubled_prefixes -> isdecimal c0 = false ->
  (i < length (collapse_shape dm.1))%nat ->
  fits (drop i (collapse_shape dm.1)) (c0 :: m1 :: m2 :: 47 :: y) = false.
Proof.
  intros Hdm Hc0. unfold doubled_prefixes in *.
  each_member Hdm; evaluate_tables; intros Hi;
    do 9 (destruct i as [| i]; [decide_tests |]);
    cbn in Hi; lia.
Qed.

Lemma not_after_digit_cases pre :
  not_after_digit pre ->
  pre = [] \/ exists pre0 c0, pre = pre0 ++ [c0] /\ isdecimal c0 = false.
Proof.
  unfold not_after_digit.
  destruct pre as [| a pre] using rev_ind; [by left |].
  rewrite last_snoc. right. by eexists _, _.
Qed.

Lemma not_after_digit_snoc pre0 c0 :
  isdecimal c0 = false -> not_after_digit (pre0 ++ [c0]).
Proof. intros H. unfold not_after_digit. by rewrite last_snoc. Qed.

(** From a fact about the date alone to a fact about the date in its
    text: the character before the date cuts the text in two. *)
Lemma dated_step (R : rule) (ds ds' year : str) :
  (forall post, exists post',
      sub R.1 R.2 (ds ++ 47 :: year ++ post) = ds' ++ 47 :: year ++ post') ->
  (forall c0 y x,
      isdecimal c0 = false ->
      sub R.1 R.2 (x ++ c0 :: ds ++ 47 :: year ++ y)
      = sub R.1 R.2 x ++ c0 :: sub R.1 R.2 (ds ++ 47 :: year ++ y)) ->
  forall t, dated ds year t -> dated ds' year (sub R.1 R.2 t).
Proof.
  intros Hmid Hsplit t (pre & post & Hpre & ->).
  destruct (Hmid post) as [post' Hpost].
  apply not_after_digit_cases in Hpre as [-> | (pre0 & c0 & -> & Hc0)].
  - exists [], post'. by split.
  - exists (sub R.1 R.2 pre0 ++ [c0]), post'.
    split; [by apply not_after_digit_snoc |].
    rewrite <- !app_assoc. cbn [app].
    by rewrite Hsplit, Hpost.
Qed.

(** A collapse rule leaves the date where it is. *)
Lemma collapse_step dm ym m1 m2 t :
  dm ∈ doubled_prefixes -> ym ∈ default_months ->
  dated [m1; m2] ym.1 t ->
  dated [m1; m2] ym.1 (sub (collapse dm.1 dm.2).1 (collapse dm.1 dm.2).2 t).
Proof.
  intros Hdm Hym. apply dated_step.
  - intros post. by apply collapse_middle.
  - intros c0 y x Hc0. apply collapse_split.
    intros i Hi. by apply collapse_inert.
Qed.

Ltac step_through rule_match rule_nomatch :=
  repeat first [ rewrite rule_match by decide_tests
               | rewrite rule_nomatch by decide_tests ];
  cbn [drop length fallback_shape collapse_shape map app replicate Nat.add].

Lemma fallback_inert_before ym' c0 m1 m2 y i :
  ym' ∈ default_months -> isdecimal c0 = false ->
  (i < length (fallback_shape ym'.1))%nat ->
  fits (drop i (fallback_shape ym'.1)) (c0 :: m1 :: m2 :: 47 :: y) = false.
Proof.
  intros Hym' Hc0. unfold default_months in *.
  each_member Hym'; evaluate_tables; intros Hi;
    do 5 (destruct i as [| i]; [decide_tests |]);
    cbn in Hi; lia.
Qed.

Lemma fallback_inert_after ym' ym c0 m1 m2 y i :
  ym' ∈ default_months -> ym ∈ default_months -> isdecimal c0 = false ->
  (i < length (fallback_shape ym'.1))%nat ->
  fits (drop i (fallback_shape ym'.1)) (c0 :: m1 :: m2 :: ym.2 ++ 47 :: y)
  = false.
Proof.
  intros Hym' Hym Hc0. unfold default_months in *.
  each_member Hym'; each_member Hym; evaluate_tables; intros Hi;
    do 5 (destruct i as [| i]; [decide_tests |]);
    cbn in Hi; lia.
Qed.

(** The rule of the date's own year puts its month before the slash. *)
Lemma fallback_middle_same ym m1 m2 post :
  ym ∈ default_months ->
  exists post',
    sub (fallback ym.1 ym.2).1 (fallback ym.1 ym.2).2
      (m1 :: m2 :: 47 :: ym.1 ++ post)
    = m1 :: m2 :: ym.2 ++ 47 :: ym.1 ++ post'.
Proof.
  intros Hym. unfold default_months in *.
  each_member Hym; evaluate_tables;
    step_through fallback_match fallback_nomatch; by eexists.
Qed.

(** The rules of the other years pass the date by, before and after its
    month has been doubled. *)
Lemma fallback_middle_before ym' ym m1 m2 post :
  ym' ∈ default_months -> ym ∈ default_months -> ym'.1 <> ym.1 ->
  exists post',
    sub (fallback ym'.1 ym'.2).1 (fallback ym'.1 ym'.2).2
      (m1 :: m2 :: 47 :: ym.1 ++ post)
    = m1 :: m2 :: 47 :: ym.1 ++ post'.
Proof.
  intros Hym' Hym. unfold default_months in *.
  each_member Hym'; each_member Hym; evaluate_tables; intros Hne;
    try done;
    step_through fallback_match fallback_nomatch; by eexists.
Qed.

Lemma fallback_middle_after ym' ym m1 m2 post :
  ym' ∈ default_months -> ym ∈ default_months -> ym'.1 <> ym.1 ->
  exists post',
    sub (fallback ym'.1 ym'.2).1 (fallback ym'.1 ym'.2).2
      (m1 :: m2 :: ym.2 ++ 47 :: ym.1 ++ post)
    = m1 :: m2 :: ym.2 ++ 47 :: ym.1 ++ post'.
Proof.
  intros Hym' Hym. unfold default_months in *.
  each_member Hym'; each_member Hym; evaluate_tables; intros Hne;
    try done;
    step_through fallback_match fallback_nomatch; by eexists.
Qed.

Lemma fallback_step_same ym m1 m2 t :
  ym ∈ default_months ->
  dated [m1; m2] ym.1 t ->
  dated (m1 :: m2 :: ym.2) ym.1
    (sub (fallback ym.1 ym.2).1 (fallback ym.1 ym.2).2 t).
Proof.
  intros Hym. apply dated_step.
  - intros post. by apply fallback_middle_same.
  - intros c0 y x Hc0. apply fallback_split.
    intros i Hi. by apply fallback_inert_before.
Qed.

Lemma fallback_step_before ym' ym m1 m2 t :
  ym' ∈ default_months -> ym ∈ default_months -> ym'.1 <> ym.1 ->
  dated [m1; m2] ym.1 t ->
  dated [m1; m2] ym.1
    (sub (fallback ym'.1 ym'.2).1 (fallback ym'.1 ym'.2).2 t).
Proof.
  intros Hym' Hym Hne. apply dated_step.
  - intros post. by apply fallback_middle_before.
  - intros c0 y x Hc0. apply fallback_split.
    intros i Hi. by apply fallback_inert_before.
Qed.

Lemma fallback_step_after ym' ym m1 m2 t :
  ym' ∈ default_months -> ym ∈ default_months -> ym'.1 <> ym.1 ->
  dated (m1 :: m2 :: ym.2) ym.1 t ->
  dated (m1 :: m2 :: ym.2) ym.1
    (sub (fallback ym'.1 ym'.2).1 (fallback ym'.1 ym'.2).2 t).
Proof.
  intros Hym' Hym Hne. apply dated_step.
  - intros post. by apply fallback_middle_after.
  - intros c0 y x Hc0. cbn [app]. apply fallback_split.
    intros i Hi. by apply fallback_inert_after.
Qed.

Lemma text_update_text f p : text (update_text f p) = f (text p).
Proof.
  unfold update_text. case_decide as Heq; [by rewrite Heq |].
  unfold text, set_text. simpl. apply app_nil_r.
Qed.

Lemma text_update_runs_single f p r :
  runs p = [r] -> text (update_runs f p) = f (text p).
Proof.
  intros Hr. unfold text, update_runs. simpl. rewrite Hr. simpl.
  rewrite !app_nil_r. unfold update_run. by case_decide.
Qed.

Ltac in_table :=
  unfold doubled_prefixes, default_months; repeat first [by left | right].

Ltac other_year :=
  let H := fresh in intros H; vm_compute in H; discriminate H.

(** C10, as the code has it. Take a slash date of one of the five known
    years whose two-character month prefix does not follow a digit. One
    application of the paragraph-level list puts the default month of the
    year between the prefix and the slash, and the result is again such a
    date: the bare-slash rules come after the collapse rules, so nothing in
    the same list removes what they insert. With the default month as
    prefix, "08/2022" becomes "0808/2022"; the run-level list, which has
    the collapse rules only, turns that back into "08/2022", and this is
    what happens to a paragraph with this text in
    [_comprehensive_text_replacement] and then [_fix_runs_directly]. *)
Theorem month_prefix_doubled (ym : str * str) (pre post : str)
    (m1 m2 : char) :
  ym ∈ default_months ->
  not_after_digit pre ->
  (exists pre' post',
     not_after_digit pre'
     /\ apply_rules replacements (pre ++ m1 :: m2 :: 47 :: ym.1 ++ post)
        = pre' ++ m1 :: m2 :: ym.2 ++ 47 :: ym.1 ++ post')
  /\ apply_rules replacements (ym.2 ++ 47 :: ym.1)
     = ym.2 ++ ym.2 ++ 47 :: ym.1
  /\ apply_rules run_replacements (ym.2 ++ ym.2 ++ 47 :: ym.1)
     = ym.2 ++ 47 :: ym.1
  /\ (forall p,
        text p = ym.2 ++ 47 :: ym.1 ->
        text (update_text (apply_rules replacements) p)
        = ym.2 ++ ym.2 ++ 47 :: ym.1
        /\ text (update_runs (apply_rules run_replacements)
                   (update_text (apply_rules replacements) p))
           = ym.2 ++ 47 :: ym.1)
  /\ (forall d,
        paragraphs (_fix_runs_directly (_comprehensive_text_replacement d))
        = map (fun p => update_runs (apply_rules run_replacements)
                          (update_text (apply_rules replacements) p))
            (paragraphs d)).
Proof.
  intros Hym Hpre.
  assert (Hpara : apply_rules replacements (ym.2 ++ 47 :: ym.1)
                  = ym.2 ++ ym.2 ++ 47 :: ym.1).
  { unfold default_months in Hym. each_member Hym; vm_compute; reflexivity. }
  assert (Hrun : apply_rules run_replacements (ym.2 ++ ym.2 ++ 47 :: ym.1)
                 = ym.2 ++ 47 :: ym.1).
  { unfold default_months in Hym. each_member Hym; vm_compute; reflexivity. }
  split; [| split; [exact Hpara | split; [exact Hrun | split]]].
  - assert (H0 : dated [m1; m2] ym.1
                   (pre ++ m1 :: m2 :: 47 :: ym.1 ++ post)).
    { by exists pre, post. }
    revert H0. generalize (pre ++ m1 :: m2 :: 47 :: ym.1 ++ post) as t.
    intros t H0.
    assert (H : dated (m1 :: m2 :: ym.2) ym.1 (apply_rules replacements t)).
    { unfold apply_rules, replacements. cbn [fold_left].
      unfold default_months in Hym.
      each_member Hym;
        repeat match goal with
          | |- dated _ _ (sub (fallback ?y ?m).1 _ _) =>
              first
                [ apply (fallback_step_after (y, m));
                    [in_table | in_table | solve [other_year] |]
                | apply (fallback_step_same (y, m)); [in_table |]
                | apply (fallback_step_before (y, m));
                    [in_table | in_table | solve [other_year] |] ]
          | |- dated _ _ (sub (collapse ?d ?m).1 _ _) =>
              apply (collapse_step (d, m)); [in_table | in_table |]
          end;
        exact H0. }
    destruct H as (pre' & post' & Hpre' & Heq).
    exists pre', post'. split; [exact Hpre' | exact Heq].
  - intros p Hp.
    assert (Hfirst : text (update_text (apply_rules replacements) p)
                     = ym.2 ++ ym.2 ++ 47 :: ym.1).
    { by rewrite text_update_text, Hp. }
    split; [exact Hfirst |].
    assert (Hchanged : apply_rules replacements (text p) <> text p).
    { rewrite Hp, Hpara. unfold default_months in Hym.
      each_member Hym; vm_compute; discriminate. }
    unfold update_text in *. rewrite decide_False in * by exact Hchanged.
    rewrite (text_update_runs_single _
               (set_text (apply_rules replacements (text p)) p)
               (new_run (apply_rules replacements (text p))) eq_refl).
    by rewrite Hfirst.
  - intros d.
    unfold _fix_runs_directly, _comprehensive_text_replacement,
      each_table_paragraph, each_paragraph.
    simpl. apply map_map.
Qed.

(** C10 fails as stated for a date that follows digits: in "0708/2022"
    the collapse rule for "0708" fires first, and the pass returns the text
    it was given, without "0808/2022". *)
Lemma month_prefix_after_digits :
  contains (U "08/2022") (U "0708/2022") = true
  /\ apply_rules replacements (U "0708/2022") = U "0708/2022"
  /\ contains (U "0808/2022") (apply_rules replacements (U "0708/2022"))
     = false.
Proof. repeat split; vm_compute; reflexivity. Qed.

Lemma month_prefix_doubled_witness :
  exists pre' post',
    apply_rules replacements (U "seit 08/2022 im Team")
    = pre' ++ U "0808/2022" ++ post'.
Proof.
  destruct (month_prefix_doubled (U "2022", U "08") (U "seit ")
              (U " im Team") 48 56) as [(pre' & post' & _ & H) _].
  - in_table.
  - vm_compute. reflexivity.
  - exists pre', post'. exact H.
Defined.

(** ** The text-correction engine, paragraph by paragraph *)

Section Engine.
Implicit Types (p : Paragraph) (d : Document) (f g : Paragraph -> Paragraph).

Lemma map_cells {A B C} (f : A -> B) (g : B -> C)
    (ts : list (list (list (list A)))) :
  map (map (map (map g))) (map (map (map (map f))) ts)
  = map (map (map (map (fun x => g (f x))))) ts.
Proof.
  rewrite map_map. apply map_ext. intros t.
  rewrite map_map. apply map_ext. intros row.
  rewrite map_map. apply map_ext. intros c.
  apply map_map.
Qed.

Lemma each_both f d :
  each_table_paragraph f (each_paragraph f d) = map_paragraphs f d.
Proof. reflexivity. Qed.

Lemma map_paragraphs_compose f g d :
  map_paragraphs g (map_paragraphs f d)
  = map_paragraphs (fun p => g (f p)) d.
Proof.
  unfold map_paragraphs. cbn [paragraphs tables styles sections].
  by rewrite map_map, map_cells.
Qed.

(** Every pass is a loop over the paragraphs and a loop over the table
    paragraphs, so the engine is [fix_paragraph] on each of them. *)
Lemma fix_text_issues_paragraphs d :
  fix_text_issues d
  = mkDocument (map fix_paragraph (paragraphs d))
      (map (map (map (map fix_paragraph))) (tables d))
      (styles d) (sections d).
Proof.
  unfold fix_text_issues, _clean_duplicates, _fix_missing_content,
    _fix_runs_directly, _comprehensive_text_replacement.
  cbn zeta. rewrite !each_both, !map_paragraphs_compose. reflexivity.
Qed.

Lemma update_text_single (h : str -> str) p :
  (exists r, runs p = [r]) ->
  (exists r, runs (update_text h p) = [r]).
Proof.
  intros Hr. unfold update_text. case_decide; [exact Hr | by eexists].
Qed.

Lemma update_runs_single (h : str -> str) p :
  (exists r, runs p = [r]) ->
  (exists r, runs (update_runs h p) = [r])
  /\ text (update_runs h p) = h (text p).
Proof.
  intros [r Hr]. split.
  - unfold update_runs. simpl. rewrite Hr. by eexists.
  - by apply (text_update_runs_single h p r).
Qed.





End Engine.



(** * Further properties

    ** Paths *)

Section Paths.
Implicit Types (p h t : list ascii) (c : ascii).

Lemma list_ascii_of_string_append (a b : string) :
  list_ascii_of_string (a +:+ b)
  = list_ascii_of_string a ++ list_ascii_of_string b.
Proof. induction a as [| c a IH]; [reflexivity |]. simpl. by rewrite IH. Qed.

(** [posixpath.split] cuts after the last slash. *)
Lemma split_last_app p : (split_last p).1 ++ (split_last p).2 = p.
Proof.
  induction p as [| c p IH]; [reflexivity |]. simpl.
  destruct (split_last p) as [[| c' h] t]; simpl in *.
  - destruct (is_slash c); simpl; by rewrite IH.
  - by rewrite IH.
Qed.

Lemma split_last_tail p : forallb is_slash (split_last p).2 = true ->
  (split_last p).2 = [].
Proof.
  induction p as [| c p IH]; [reflexivity |]. simpl.
  destruct (split_last p) as [[| c' h] t]; simpl in *.
  - destruct (is_slash c) eqn:Hc; simpl; [exact IH |].
    rewrite Hc. discriminate.
  - exact IH.
Qed.

Lemma split_last_tail_free p :
  Forall (fun c => is_slash c = false) (split_last p).2.
Proof.
  induction p as [| c p IH]; [constructor |]. simpl.
  destruct (split_last p) as [[| c' h] t]; simpl in *.
  - destruct (is_slash c) eqn:Hc; simpl; [exact IH | by constructor].
  - exact IH.
Qed.

Lemma split_last_free t :
  Forall (fun c => is_slash c = false) t -> split_last t = ([], t).
Proof.
  induction 1 as [| c t Hc _ IH]; [reflexivity |]. simpl.
  by rewrite IH, Hc.
Qed.

Lemma split_last_slash h c t :
  is_slash c = true ->
  Forall (fun c => is_slash c = false) t ->
  split_last (h ++ c :: t) = (h ++ [c], t).
Proof.
  intros Hc Ht. induction h as [| a h IH]; simpl.
  - by rewrite (split_last_free t Ht), Hc.
  - rewrite IH. by destruct h.
Qed.

Lemma rstrip_slash_snoc h c :
  is_slash c = true -> rstrip_slash (h ++ [c]) = rstrip_slash h.
Proof.
  intros Hc. induction h as [| a h IH]; simpl.
  - by rewrite Hc.
  - by rewrite IH.
Qed.

Lemma rstrip_slash_id h z :
  last h = Some z -> is_slash z = false -> rstrip_slash h = h.
Proof.
  intros Hl Hz. induction h as [| a h IH]; [reflexivity |]. simpl.
  destruct h as [| b h].
  - simpl in *. injection Hl as ->. by rewrite Hz.
  - rewrite IH by exact Hl. reflexivity.
Qed.

Lemma rstrip_slash_last h z :
  last (rstrip_slash h) = Some z -> is_slash z = false.
Proof.
  revert z. induction h as [| a h IH]; intros z; [discriminate |]. simpl.
  destruct (rstrip_slash h) as [| b r] eqn:Hr.
  - destruct (is_slash a) eqn:Ha; [discriminate |].
    simpl. by intros [= <-].
  - intros Hl. apply IH. exact Hl.
Qed.

Lemma forallb_is_slash_last h z :
  forallb is_slash h = true -> last h = Some z -> is_slash z = true.
Proof.
  intros Hall Hl. apply last_Some in Hl as [h' ->].
  rewrite forallb_app in Hall. apply andb_true_iff in Hall as [_ Hz].
  simpl in Hz. by rewrite andb_true_r in Hz.
Qed.

End Paths.

(** The pieces of [temp_docx_path]: the characters of the directory of the
    output and of its file name. *)
Lemma temp_docx_path_chars self :
  let h := list_ascii_of_string (dirname (docx_file self)) in
  let x := list_ascii_of_string ("temp_" +:+ basename (docx_file self)) in
  list_ascii_of_string (temp_docx_path self)
  = match last h with
    | None => x
    | Some z => if is_slash z then h ++ x else h ++ "/"%char :: x
    end.
Proof.
  cbn zeta. unfold temp_docx_path, Os.join.
  rewrite list_ascii_of_string_append. cbn [list_ascii_of_string app].
  cbn [is_slash Ascii.eqb Bool.eqb andb].
  destruct (last _) as [z |]; [| by rewrite list_ascii_of_string_append].
  destruct (is_slash z); rewrite !list_ascii_of_string_append; reflexivity.
Qed.

Lemma temp_name_free self :
  Forall (fun c => is_slash c = false)
    (list_ascii_of_string ("temp_" +:+ basename (docx_file self))).
Proof.
  rewrite list_ascii_of_string_append. apply Forall_app. split.
  - repeat constructor.
  - unfold basename. rewrite list_ascii_of_string_of_list_ascii.
    apply split_last_tail_free.
Qed.

Lemma temp_docx_path_split self :
  split_last (list_ascii_of_string (temp_docx_path self))
  = (match last (list_ascii_of_string (dirname (docx_file self))) with
     | None => []
     | Some z =>
         if is_slash z
         then list_ascii_of_string (dirname (docx_file self))
         else list_ascii_of_string (dirname (docx_file self)) ++ ["/"%char]
     end,
     list_ascii_of_string ("temp_" +:+ basename (docx_file self))).
Proof.
  pose proof (temp_name_free self) as Hx.
  rewrite temp_docx_path_chars. cbn zeta.
  destruct (last _) as [z |] eqn:Hl.
  - destruct (is_slash z) eqn:Hz.
    + apply last_Some in Hl as [h' Hh]. rewrite Hh, <- app_assoc.
      by apply split_last_slash.
    + by apply split_last_slash.
  - by apply split_last_free.
Qed.

Lemma temp_docx_path_basename self :
  basename (temp_docx_path self)
  = ("temp_" +:+ basename (docx_file self))%string.
Proof.
  unfold basename at 1. rewrite temp_docx_path_split. cbn [snd].
  apply string_of_list_ascii_of_string.
Qed.

Lemma temp_docx_path_neq self : temp_docx_path self <> docx_file self.
Proof.
  intros Heq. pose proof (temp_docx_path_basename self) as Hbase.
  rewrite Heq in Hbase.
  apply (f_equal list_ascii_of_string) in Hbase.
  rewrite list_ascii_of_string_append in Hbase.
  apply (f_equal length) in Hbase.
  rewrite length_app in Hbase. simpl in Hbase. lia.
Qed.

(** X1. The draft is written beside the output: [temp_docx_path] has the
    directory of [docx_file] and its file name with [temp_] in front, so it
    is never the output path itself. *)
Theorem temp_docx_path_beside_output (self : Self) :
  basename (temp_docx_path self)
  = ("temp_" +:+ basename (docx_file self))%string
  /\ dirname (temp_docx_path self) = dirname (docx_file self)
  /\ temp_docx_path self <> docx_file self.
Proof.
  split; [apply temp_docx_path_basename |].
  split; [| apply temp_docx_path_neq].
  unfold dirname at 1. rewrite temp_docx_path_split. cbn [fst].
  set (d := dirname (docx_file self)).
  destruct (last (list_ascii_of_string d)) as [z |] eqn:Hl.
  - destruct (is_slash z) eqn:Hz.
    + (* the directory ends with a slash: it consists of slashes *)
      assert (Hall : forallb is_slash (list_ascii_of_string d) = true).
      { unfold d, dirname in *.
        rewrite list_ascii_of_string_of_list_ascii in *.
        destruct (forallb is_slash _) eqn:Hall; [exact Hall |].
        apply rstrip_slash_last in Hl. congruence. }
      rewrite Hall. apply string_of_list_ascii_of_string.
    + rewrite forallb_app. cbn [forallb].
      assert (Hno : forallb is_slash (list_ascii_of_string d) = false).
      { destruct (forallb is_slash _) eqn:Hall; [| reflexivity].
        pose proof (forallb_is_slash_last _ _ Hall Hl). congruence. }
      rewrite Hno. cbn [andb].
      rewrite rstrip_slash_snoc by reflexivity.
      rewrite (rstrip_slash_id _ z Hl Hz).
      apply string_of_list_ascii_of_string.
  - apply last_None in Hl. cbn [forallb].
    rewrite <- (string_of_list_ascii_of_string d), Hl. reflexivity.
Qed.

(** ** What a run of [convert] leaves on disk *)

Section Disk.
Variables (env : Env) (self : Self).

Lemma convert_with_pandoc_files st p :
  p <> temp_docx_path self ->
  files (world (convert_with_pandoc env self st).2) !! p
  = files (world st) !! p.
Proof.
  intros Hp. unfold convert_with_pandoc.
  destruct (subprocess_run env _ (world st)) as [e | rc [f |]].
  - destruct e; reflexivity.
  - case_decide; simpl; by rewrite lookup_insert_ne.
  - case_decide; reflexivity.
Qed.

Lemma save_document_files st p :
  p <> temp_docx_path self -> p <> docx_file self ->
  files (world (save_document env self st).2) !! p = files (world st) !! p.
Proof.
  intros Hp1 Hp2. unfold save_document.
  destruct (doc st); [| reflexivity].
  destruct (save_error env (docx_file self) (world st)); [reflexivity |].
  unfold remove, write; simpl.
  match goal with |- context [if ?b then _ else _] => destruct b end; simpl.
  - by rewrite lookup_delete_ne, lookup_insert_ne.
  - by rewrite lookup_insert_ne.
Qed.

(** X2. When [convert] returns [True], the output path holds the document
    that the refinement passes made of the draft the converter wrote, and
    [self.doc] is that document. *)
Theorem convert_success_output (st : State) :
  (convert env self st).1 = Returned true ->
  exists draft refined,
    files (world (convert_with_pandoc env self st).2)
      !! temp_docx_path self = Some (DocxFile draft)
    /\ refine env self (world (convert_with_pandoc env self st).2) draft
       = (Returned tt, refined)
    /\ doc (convert env self st).2 = Some refined
    /\ files (world (convert env self st).2) !! docx_file self
       = Some (DocxFile refined).
Proof.
  intros Hret.
  destruct (path_exists (world st) (tex_file self)) eqn:Hex.
  2: { unfold convert in Hret. rewrite Hex in Hret. discriminate. }
  rewrite (convert_unfold env self st Hex) in *.
  destruct (convert_with_pandoc env self st) as [[[|]|e] st1];
    simpl in *; try discriminate.
  unfold load_and_refine_document in *.
  destruct (files (world st1) !! temp_docx_path self) as [[d | |] |]
    eqn:Hfile; simpl in *; try discriminate.
  destruct (refine env self (world st1) d) as [[[] | e] d'] eqn:Href;
    simpl in *; try discriminate.
  exists d, d'.
  split; [first [reflexivity | exact Hfile] |].
  split; [first [reflexivity | exact Href] |].
  unfold save_document in *. simpl in *.
  destruct (save_error env (docx_file self) (world st1)); simpl in *;
    try discriminate.
  split; [reflexivity |].
  pose proof (temp_docx_path_neq self) as Hne.
  unfold remove, write; simpl.
  match goal with |- context [if ?b then _ else _] => destruct b end; simpl.
  - rewrite lookup_delete_ne by exact Hne. apply lookup_insert_eq.
  - apply lookup_insert_eq.
Qed.

Lemma convert_files (st : State) (p : string) :
  p <> temp_docx_path self ->
  p <> docx_file self ->
  files (world (convert env self st).2) !! p = files (world st) !! p.
Proof.
  intros Hp1 Hp2.
  destruct (path_exists (world st) (tex_file self)) eqn:Hex.
  2: { unfold convert. rewrite Hex. reflexivity. }
  rewrite (convert_unfold env self st Hex).
  pose proof (convert_with_pandoc_files st p Hp1) as H1.
  destruct (convert_with_pandoc env self st) as [[[|]|e] st1];
    simpl in *; try exact H1.
  pose proof (load_and_refine_world env self st1) as H2.
  destruct (load_and_refine_document env self st1) as [[[]|e] st2];
    simpl in *; [| by rewrite H2].
  pose proof (save_document_files st2 p Hp1 Hp2) as H3.
  destruct (save_document env self st2) as [[[]|e] st3]; simpl in *;
    by rewrite H3, H2.
Qed.

(** X3. Whatever its outcome, [convert] leaves every path other than the
    draft and the output as it was, and the only command it can have run is
    the one converter call; the converter is taken to write nothing but
    the file named by [-o]. *)
Theorem convert_touches_two_paths (st : State) (p : string) :
  p <> temp_docx_path self ->
  p <> docx_file self ->
  files (world (convert env self st).2) !! p = files (world st) !! p
  /\ exists tex_abs_path,
       spawned (world (convert env self st).2) = spawned (world st)
       \/ spawned (world (convert env self st).2)
          = [ "pandoc"; tex_abs_path; "-o"; temp_docx_path self; "--from";
              "latex"; "--to"; "docx"; "--standalone" ]%string
            :: spawned (world st).
Proof.
  intros Hp1 Hp2. split; [by apply convert_files |].
  exists (abspath env (tex_file self)).
  destruct (path_exists (world st) (tex_file self)) eqn:Hex.
  - right. by apply convert_source_present_spawns.
  - left. unfold convert. by rewrite Hex.
Qed.

End Disk.

Lemma convert_success_output_witness :
  exists refined,
    doc (convert Sample.env Sample.self Sample.start).2 = Some refined
    /\ files (world (convert Sample.env Sample.self Sample.start).2)
         !! "outputs/cv.docx"%string = Some (DocxFile refined).
Proof.
  destruct (convert_success_output Sample.env Sample.self Sample.start)
    as (draft & refined & _ & _ & Hdoc & Hout).
  - vm_compute. reflexivity.
  - exists refined. split; [exact Hdoc | exact Hout].
Defined.

Lemma convert_touches_two_paths_witness :
  files (world (convert Sample.env Sample.self Sample.start).2)
    !! "uploads/cv.tex"%string = Some OtherFile.
Proof.
  destruct (convert_touches_two_paths Sample.env Sample.self Sample.start
              "uploads/cv.tex") as [H _].
  - vm_compute. discriminate.
  - discriminate.
  - rewrite H. reflexivity.
Defined.

(** ** The refinement passes together *)

Section Refine.
Variables (env : Env) (self : Self) (w : World).
Implicit Types (p : Paragraph) (d : Document) (t : Table).





Lemma format_hyperlinks_acts d :
  _format_hyperlinks d = (Returned tt, each_paragraph without_link_colours d).
Proof. reflexivity. Qed.

(** [load_and_refine_document]'s seven passes as the normalizer followed by
    the header, hyperlink and text passes. *)
Lemma refine_unfold d :
  refine env self w d
  = match normalize d with
    | (Returned _, d1) =>
        match _handle_header_with_photo env self w d1 with
        | (Returned _, d2) =>
            (Returned tt,
             fix_text_issues (each_paragraph without_link_colours d2))
        | (Raised e, d2) => (Raised e, d2)
        end
    | (Raised e, d1) => (Raised e, d1)
    end.
Proof.
  unfold refine, normalize, bind.
  destruct (_setup_document_styles d) as [[[] | e] d1]; [| reflexivity].
  destruct (_apply_page_layout d1) as [[[] | e] d2]; [| reflexivity].
  destruct (_format_sections d2) as [[[] | e] d3]; [| reflexivity].
  destruct (_format_lists d3) as [[[] | e] d4]; [| reflexivity].
  destruct (_handle_header_with_photo env self w d4) as [[[] | e] d5];
    reflexivity.
Qed.


End Refine.


(** ** What the text passes leave alone *)

Section Layout.
Implicit Types (p : Paragraph) (d : Document) (f : str -> str).

Lemma layout_update_text f p : layout (update_text f p) = layout p.
Proof. unfold update_text. by case_decide. Qed.

Lemma layout_update_runs f p : layout (update_runs f p) = layout p.
Proof. reflexivity. Qed.

Lemma layout_fix_paragraph p : layout (fix_paragraph p) = layout p.
Proof.
  unfold fix_paragraph. cbn zeta.
  by repeat first [rewrite layout_update_text | rewrite layout_update_runs].
Qed.

Lemma layout_without_link_colours p :
  layout (without_link_colours p) = layout p.
Proof. reflexivity. Qed.

(** X5. The text-correction engine changes runs only: every paragraph,
    at top level and in every table cell, keeps its style, its alignment
    and its paragraph format, no paragraph, cell, row or table is added or
    dropped, and styles and sections are not touched. *)
Theorem fix_text_issues_keeps_layout (d : Document) :
  map layout (paragraphs (fix_text_issues d)) = map layout (paragraphs d)
  /\ map (map (map (map layout))) (tables (fix_text_issues d))
     = map (map (map (map layout))) (tables d)
  /\ styles (fix_text_issues d) = styles d
  /\ sections (fix_text_issues d) = sections d.
Proof.
  rewrite fix_text_issues_paragraphs. cbn [paragraphs tables styles sections].
  split; [| split; [| split; reflexivity]].
  - rewrite map_map. apply map_ext. intros p. apply layout_fix_paragraph.
  - rewrite map_cells. apply map_ext. intros t. apply map_ext. intros row.
    apply map_ext. intros c. apply map_ext. intros p.
    apply layout_fix_paragraph.
Qed.

(** X6. [_format_hyperlinks] leaves no run of a top-level paragraph with a
    colour other than black, and changes nothing but run colours: texts,
    pictures, the other font attributes and the paragraphs' own formatting
    stay. Paragraphs in table cells are not visited. *)
Theorem format_hyperlinks_black (d : Document) :
  exists d',
    _format_hyperlinks d = (Returned tt, d')
    /\ Forall (fun p =>
                 Forall (fun r => color_rgb (font r) = None
                                  \/ color_rgb (font r) = Some (0, 0, 0)%N)
                   (runs p))
         (paragraphs d')
    /\ map (fun p => (layout p,
                      map (fun r => (run_text r, picture r, name (font r),
                                     size (font r), bold (font r)))
                        (runs p)))
         (paragraphs d')
       = map (fun p => (layout p,
                        map (fun r => (run_text r, picture r, name (font r),
                                       size (font r), bold (font r)))
                          (runs p)))
           (paragraphs d)
    /\ tables d' = tables d
    /\ styles d' = styles d
    /\ sections d' = sections d.
Proof.
  exists (each_paragraph without_link_colours d).
  split; [reflexivity |]. cbn [each_paragraph set_paragraphs paragraphs
                               tables styles sections].
  split; [| split; [| by repeat split]].
  - apply Forall_forall. intros p' Hp'.
    apply list_elem_of_In, in_map_iff in Hp' as (p & <- & _).
    apply Forall_forall. intros r' Hr'. cbn [without_link_colours runs] in Hr'.
    apply list_elem_of_In, in_map_iff in Hr' as (r & <- & _).
    unfold uncoloured. destruct (color_rgb (font r)) as [rgb |] eqn:Hc.
    + case_decide as Hrgb; simpl.
      * by left.
      * right. rewrite Hc. f_equal.
        destruct (decide (rgb = (0, 0, 0)%N)); [done | contradiction].
    + by left.
  - rewrite map_map. apply map_ext. intros p. f_equal.
    cbn [without_link_colours runs]. rewrite map_map. apply map_ext.
    intros r. unfold uncoloured.
    destruct (color_rgb (font r)); [| reflexivity].
    by case_decide.
Qed.

End Layout.

Section RefineLayout.
Variables (env : Env) (self : Self) (w : World).

Lemma handle_header_frame d :
  paragraphs (_handle_header_with_photo env self w d).2 = paragraphs d
  /\ styles (_handle_header_with_photo env self w d).2 = styles d
  /\ sections (_handle_header_with_photo env self w d).2 = sections d
  /\ length (tables (_handle_header_with_photo env self w d).2)
     = length (tables d).
Proof.
  unfold _handle_header_with_photo.
  pose proof (handle_tables_length env self w (tables d)) as Hlen.
  destruct (handle_tables env self w (tables d)) as [o ts]. by repeat split.
Qed.

(** X7. When the refinement passes return, no top-level paragraph is a
    list item, and the formatting of the headings is still in place at the
    end: style, alignment and paragraph format of each top-level paragraph
    are those [_format_sections] gave it on the text of the draft, whatever
    the later passes did to its runs. No top-level paragraph and no table
    is added or dropped, every section has the A4 page with 1 cm margins,
    to the nearest twip, and the styles are those the first pass left. *)
Theorem refine_keeps_formatting (d d' : Document) :
  refine env self w d = (Returned tt, d') ->
  Forall (fun p => is_list_item p = false) (paragraphs d)
  /\ map layout (paragraphs d')
     = map (fun p => layout (format_paragraph p)) (paragraphs d)
  /\ length (tables d') = length (tables d)
  /\ sections d' = map (fun _ => a4_section) (sections d)
  /\ exists normal,
       styles d !! "Normal"%string = Some normal
       /\ styles d' = normal_styles (styles d) normal.
Proof.
  rewrite refine_unfold.
  destruct (styles d !! "Normal"%string) as [normal |] eqn:Hn.
  2: { by rewrite (normalize_without_normal d Hn). }
  rewrite (normalize_with_normal d normal Hn).
  destruct (existsb is_list_item (paragraphs d)) eqn:Hl; [discriminate |].
  apply existsb_list_item_false in Hl.
  assert (Hstop : stop_at_list_item (map format_paragraph (paragraphs d))
                  = map format_paragraph (paragraphs d)).
  { apply stop_at_list_item_none, Forall_map.
    eapply Forall_impl; [exact Hl |].
    intros p Hp. cbn beta. by rewrite is_list_item_format_paragraph. }
  rewrite Hstop.
  set (d1 := mkDocument _ _ _ _).
  destruct (handle_header_frame d1) as (Hp & Hst & Hse & Hlen).
  destruct (_handle_header_with_photo env self w d1) as [[[] | e] d2];
    [| discriminate].
  intros [= <-]. simpl in Hp, Hst, Hse, Hlen.
  rewrite fix_text_issues_paragraphs.
  cbn [paragraphs tables styles sections each_paragraph set_paragraphs].
  rewrite Hp, Hst, Hse. split; [exact Hl |]. repeat split.
  - rewrite !map_map. apply map_ext. intros p.
    by rewrite layout_fix_paragraph.
  - by rewrite length_map.
  - by exists normal.
Qed.

End RefineLayout.

Lemma refine_keeps_formatting_witness :
  exists d',
    refine Sample.env Sample.self Sample.world Sample.draft
    = (Returned tt, d')
    /\ map style (paragraphs d') = [Some "Heading 1"%string; None].
Proof.
  destruct (refine Sample.env Sample.self Sample.world Sample.draft)
    as [o d'] eqn:Href.
  assert (Ho : o = Returned tt).
  { change o with (o, d').1. rewrite <- Href. vm_compute. reflexivity. }
  subst o. exists d'. split; [reflexivity |].
  destruct (refine_keeps_formatting Sample.env Sample.self Sample.world
              Sample.draft d' Href) as (_ & Hl & _).
  apply (f_equal (map (fun x => x.1.1))) in Hl.
  rewrite !map_map in Hl. cbn [layout fst] in Hl.
  rewrite (map_ext _ style) in Hl by reflexivity.
  rewrite Hl. vm_compute. reflexivity.
Defined.

(** ** Lists *)

Lemma lookup_map_Some {A B : Type} (f : A -> B) (l : list A) (i : nat)
    (x : A) :
  l !! i = Some x -> map f l !! i = Some (f x).
Proof.
  revert i. induction l as [| y l IH]; intros [| i]; try discriminate.
  - by intros [= ->].
  - apply IH.
Qed.

(** ** Patterns with a starred class *)

Section StarClass.
Context {R : Type}.
Implicit Types (s : str) (g : groups) (k : nat -> str -> groups -> option R).

Lemma run_Seq r1 r2 pos s g k :
  run (Seq r1 r2) pos s g k
  = run r1 pos s g (fun pos' s' g' => run r2 pos' s' g' k).
Proof. reflexivity. Qed.

Lemma run_Bol_0 s g k : run Bol 0 s g k = k 0%nat s g.
Proof. reflexivity. Qed.

Lemma run_Eps pos s g k : run Eps pos s g k = k pos s g.
Proof. reflexivity. Qed.

Lemma run_Group n r pos s g k :
  run (Group n r) pos s g k
  = run r pos s g
      (fun pos' s' g' => k pos' s' ((n, take (pos' - pos) s) :: g')).
Proof. reflexivity. Qed.

Lemma run_Chr c pos s g k :
  run (Chr c) pos s g k
  = match s with
    | c' :: s' => if c' =? c then k (S pos) s' g else None
    | [] => None
    end.
Proof. reflexivity. Qed.

Lemma run_Cls cl pos s g k :
  run (Cls cl) pos s g k
  = match s with
    | c' :: s' => if in_class cl c' then k (S pos) s' g else None
    | [] => None
    end.
Proof. reflexivity. Qed.

Lemma run_Star_Cls cl pos s g k :
  run (Star (Cls cl)) pos s g k = star_cls cl pos s g k.
Proof.
  cbn [run].
  assert (Hfuel : (length s <= length s)%nat) by lia.
  revert Hfuel. generalize (length s) at 2 3 as fuel.
  intros fuel. revert pos s g.
  induction fuel as [| fuel IH]; intros pos s g Hlen.
  - destruct s; [reflexivity | simpl in Hlen; lia].
  - destruct s as [| c s]; [reflexivity |]. simpl in Hlen.
    cbn [star_cls]. destruct (in_class cl c); [| reflexivity].
    replace (Nat.ltb pos (S pos)) with true
      by (symmetry; apply Nat.ltb_lt; lia).
    rewrite IH by lia. reflexivity.
Qed.

End StarClass.

(** ** Stray page numbers *)

Lemma in_range (lo hi d : N) :
  lo <= d <= hi ->
  In d (map N.of_nat (seq (N.to_nat lo) (S (N.to_nat hi - N.to_nat lo)))).
Proof.
  intros Hd. apply in_map_iff. exists (N.to_nat d). split; [lia |].
  apply in_seq. lia.
Qed.

Lemma not_decimal_in_range (lo hi d : N) :
  forallb (fun c => negb (isdecimal c))
    (map N.of_nat (seq (N.to_nat lo) (S (N.to_nat hi - N.to_nat lo))))
  = true ->
  lo <= d <= hi -> isdecimal d = false.
Proof.
  intros Hall Hd. apply in_range in Hd.
  rewrite forallb_forall in Hall. apply Hall in Hd.
  by apply negb_true_iff in Hd.
Qed.

(** No decimal digit is white space. *)
Lemma isdecimal_not_space d : isdecimal d = true -> isspace d = false.
Proof.
  intros Hd. destruct (isspace d) eqn:Hs; [| reflexivity].
  unfold isspace in Hs.
  repeat (apply orb_true_iff in Hs as [Hs | Hs]);
    first
      [ apply N.eqb_eq in Hs; subst d; vm_compute in Hd; discriminate Hd
      | apply andb_true_iff in Hs as [H1 H2];
        apply N.leb_le in H1; apply N.leb_le in H2;
        pose proof (fun H => not_decimal_in_range _ _ d H (conj H1 H2))
          as Hn;
        rewrite Hn in Hd by (vm_compute; reflexivity);
        discriminate Hd ].
Qed.

Section StrayPageNumber.
Context {R : Type}.
Implicit Types (s : str) (g : groups) (k : nat -> str -> groups -> option R).

(** [\s*$]: the rest of the text is white space. *)
Lemma star_space_eol k :
  (forall pos s g, is_Some (k pos s g) <-> s = [] \/ s = [LF]) ->
  forall pos s g,
    is_Some (star_cls Space pos s g k) <-> forallb isspace s = true.
Proof.
  intros Hk pos s. revert pos.
  induction s as [| c s IH]; intros pos g.
  - simpl. rewrite Hk. split; [done | by left].
  - cbn [star_cls in_class forallb].
    destruct (isspace c) eqn:Hc; simpl.
    + destruct (star_cls Space (S pos) s g k) eqn:Hs.
      * split; [| done]. intros _. apply (proj1 (IH (S pos) g)).
        by rewrite Hs.
      * rewrite Hk. split.
        -- intros [H | H]; [discriminate |]. injection H as -> ->.
           simpl in Hs. specialize (Hk (S pos) [] g).
           rewrite Hs in Hk. destruct Hk as [_ Hk].
           by destruct Hk; [left |].
        -- intros Hall. apply (proj2 (IH (S pos) g)) in Hall.
           rewrite Hs in Hall. by destruct Hall.
    + rewrite Hk. split; [| done].
      intros [H | H]; [discriminate |]. injection H as -> ->.
      vm_compute in Hc. discriminate.
Qed.

(** [\s*\d] and what the rest of the pattern makes of the text after the
    digit. *)
Lemma star_space_digit k (after : str -> bool) :
  (forall pos s g,
     is_Some (k pos s g)
     <-> match s with
         | d :: r => isdecimal d && after r = true
         | [] => False
         end) ->
  forall pos s g,
    is_Some (star_cls Space pos s g k)
    <-> match lstrip s with
        | d :: r => isdecimal d && after r = true
        | [] => False
        end.
Proof.
  intros Hk pos s. revert pos.
  induction s as [| c s IH]; intros pos g.
  - simpl. apply Hk.
  - cbn [star_cls in_class lstrip].
    destruct (isspace c) eqn:Hc.
    + destruct (star_cls Space (S pos) s g k) eqn:Hs.
      * split; [| done]. intros _. apply (proj1 (IH (S pos) g)).
        by rewrite Hs.
      * rewrite Hk, <- (IH (S pos) g), Hs. split; [| by intros []].
        intros [Hd _]%andb_true_iff.
        apply isdecimal_not_space in Hd. congruence.
    + apply Hk.
Qed.

End StrayPageNumber.

(** What the pattern of [_remove_stray_page_numbers] accepts: white space,
    one decimal digit, white space. *)
Lemma stray_page_number_match s :
  re_match stray_page_number s
  = match lstrip s with
    | d :: r => isdecimal d && forallb isspace r
    | [] => false
    end.
Proof.
  apply eq_true_iff_eq. unfold re_match. rewrite bool_decide_eq_true.
  unfold match_at, stray_page_number. cbn [cat].
  rewrite run_Seq, run_Bol_0. cbn beta. rewrite run_Seq, run_Star_Cls.
  rewrite (star_space_digit _ (forallb isspace)).
  - by destruct (lstrip s).
  - intros pos' s' g'. rewrite run_Seq, run_Cls.
    destruct s' as [| d r]; [by split; [intros [] |] |].
    destruct (in_class Digit d) eqn:Hd; cbn [in_class] in Hd; rewrite Hd;
      [| by split; [intros [] |]].
    rewrite run_Seq, run_Star_Cls. cbn [andb]. apply star_space_eol.
    intros pos2 s2 g2. cbn [run]. destruct s2 as [| c [| c' s2]].
    + split; [by left | done].
    + destruct (N.eqb_spec c LF) as [-> | Hne].
      * split; [by right | done].
      * split; [by intros [] |]. intros [H | H]; [discriminate |].
        congruence.
    + split; [by intros [] |]. by intros [H | H].
Qed.

Section StripEnds.
Implicit Types (s : str) (c : char).

Lemma lstrip_nonspace s c r : lstrip s = c :: r -> isspace c = false.
Proof.
  induction s as [| a s IH]; [discriminate |]. simpl.
  destruct (isspace a) eqn:Ha; [exact IH |]. by intros [= <- _].
Qed.

Lemma rstrip_head c s :
  isspace c = false -> exists r, rstrip (c :: s) = c :: r.
Proof.
  intros Hc. simpl. destruct (rstrip s); [| by eexists].
  rewrite Hc. by eexists.
Qed.

Lemma rstrip_all_space s : forallb isspace s = true -> rstrip s = [].
Proof.
  induction s as [| c s IH]; [reflexivity |]. simpl.
  intros [Hc Hs]%andb_true_iff. by rewrite IH, Hc.
Qed.

Lemma rstrip_idempotent s : rstrip (rstrip s) = rstrip s.
Proof.
  induction s as [| c s IH]; [reflexivity |]. simpl.
  destruct (rstrip s) as [| a r] eqn:Hr.
  - destruct (isspace c) eqn:Hc; [reflexivity |]. simpl. by rewrite Hc.
  - change (rstrip (c :: a :: r)) with
      (match rstrip (a :: r) with
       | [] => if isspace c then [] else [c]
       | x => c :: x
       end).
    by rewrite IH.
Qed.

(** A trimmed text does not start with white space, and white space is
    all that can follow its last character. *)
Lemma lstrip_strip s : lstrip (strip s) = strip s.
Proof.
  unfold strip. destruct (lstrip s) as [| c r] eqn:Hl; [reflexivity |].
  destruct (rstrip_head c r (lstrip_nonspace s c r Hl)) as [r' ->].
  simpl. by rewrite (lstrip_nonspace s c r Hl).
Qed.

Lemma strip_tail_space s d r :
  strip s = d :: r -> forallb isspace r = true -> r = [].
Proof.
  unfold strip. intros Hs Hr.
  pose proof (rstrip_idempotent (lstrip s)) as Hi. rewrite Hs in Hi.
  simpl in Hi. rewrite (rstrip_all_space r Hr) in Hi.
  destruct (isspace d); [discriminate |]. by injection Hi as <-.
Qed.

End StripEnds.

Lemma stray_page_number_digit_line line :
  re_match stray_page_number (strip line) = digit_line line.
Proof.
  rewrite stray_page_number_match, lstrip_strip. unfold digit_line.
  destruct (strip line) as [| d r] eqn:Hs; [reflexivity |].
  destruct r as [| c r]; [apply andb_true_r |].
  destruct (isdecimal d); [| reflexivity]. cbn [andb].
  destruct (forallb isspace (c :: r)) eqn:Hr; [| reflexivity].
  by apply (strip_tail_space line d) in Hr.
Qed.

Lemma remove_stray_page_numbers_filter text :
  _remove_stray_page_numbers text
  = Py.join [LF]
      (List.filter (fun line => negb (digit_line line)) (split LF text)).
Proof.
  unfold _remove_stray_page_numbers. cbn zeta. f_equal.
  apply filter_ext. intros line. by rewrite stray_page_number_digit_line.
Qed.

(** X8. [_remove_stray_page_numbers] drops exactly the lines that, once
    trimmed, consist of one decimal digit, and keeps every other line as it
    is and in order; a text without such a line comes back unchanged. *)
Theorem remove_stray_page_numbers_lines (text : str) :
  _remove_stray_page_numbers text
  = Py.join [LF]
      (List.filter (fun line => negb (digit_line line)) (split LF text))
  /\ (Forall (fun line => digit_line line = false) (split LF text) ->
      _remove_stray_page_numbers text = text).
Proof.
  split; [apply remove_stray_page_numbers_filter |].
  intros Hall. rewrite remove_stray_page_numbers_filter.
  rewrite forallb_filter_id.
  - apply join_split.
  - apply forallb_forall. intros l Hl%list_elem_of_In.
    rewrite Forall_forall in Hall. by rewrite (Hall l Hl).
Qed.

Lemma remove_stray_page_numbers_lines_witness :
  _remove_stray_page_numbers (U "Seite 5 von 7") = U "Seite 5 von 7".
Proof.
  apply (remove_stray_page_numbers_lines (U "Seite 5 von 7")).
  repeat constructor.
Defined.

(** X9. Removing stray page numbers a second time changes nothing: the
    lines that are left are not digit lines, and when every line was one
    the empty text that results is kept. *)
Theorem remove_stray_page_numbers_idempotent (text : str) :
  _remove_stray_page_numbers (_remove_stray_page_numbers text)
  = _remove_stray_page_numbers text.
Proof.
  rewrite !remove_stray_page_numbers_filter.
  set (keep := fun line => negb (digit_line line)).
  destruct (List.filter keep (split LF text)) as [| l ls] eqn:Hkept;
    [reflexivity |].
  rewrite split_join.
  - rewrite <- Hkept. f_equal. apply forallb_filter_id.
    apply forallb_forall. intros x Hx. by apply filter_In in Hx as [_ Hx].
  - discriminate.
  - rewrite <- Hkept. apply Forall_forall. intros x Hx%list_elem_of_In.
    apply filter_In in Hx as [Hx _]. apply list_elem_of_In in Hx.
    by apply split_no_sep in Hx.
Qed.

(** ** [re.sub] with a pattern that does not look at its position *)

Section Sub.
Variables (r : regex) (t : template) (M : str -> option (nat * groups)).
Hypothesis match_at_M : forall pos s, match_at r pos s = M s.
Hypothesis M_nil : M [] = None.
Implicit Types (s : str) (c : char).

Lemma gsub_go_pos s pos pos' skip :
  sub_go r t pos skip s = sub_go r t pos' skip s.
Proof using match_at_M.
  clear M_nil.
  revert pos pos' skip. induction s as [| c s IH]; intros pos pos' skip.
  - destruct skip; [| reflexivity]. simpl. by rewrite !match_at_M.
  - destruct skip as [| n]; simpl.
    + rewrite !match_at_M. destruct (M (c :: s)) as [[len g] |].
      * f_equal. destruct len; [f_equal |]; apply IH.
      * f_equal. apply IH.
    + apply IH.
Qed.

Lemma gsub_nil : sub r t [] = [].
Proof using match_at_M M_nil.
  unfold sub. simpl. by rewrite match_at_M, M_nil.
Qed.

Lemma gsub_go_skip n s pos : sub_go r t pos n s = sub r t (drop n s).
Proof using match_at_M M_nil.
  revert s pos. induction n as [| n IH]; intros s pos.
  - rewrite drop_0. apply gsub_go_pos.
  - destruct s as [| c s]; [| apply IH].
    simpl. by rewrite gsub_nil.
Qed.

Lemma gsub_match s n g :
  M s = Some (S n, g) ->
  sub r t s = expand t g ++ sub r t (drop (S n) s).
Proof using match_at_M M_nil.
  intros Hm. unfold sub at 1. destruct s as [| c s].
  - by rewrite M_nil in Hm.
  - simpl. rewrite match_at_M, Hm. f_equal. apply gsub_go_skip.
Qed.

Lemma gsub_nomatch c s :
  M (c :: s) = None -> sub r t (c :: s) = c :: sub r t s.
Proof using match_at_M.
  clear M_nil.
  intros Hm. unfold sub at 1. simpl. rewrite match_at_M, Hm.
  f_equal. apply gsub_go_pos.
Qed.

End Sub.

(** ** Percentage spacing *)

Section Percentage.
Implicit Types (s ds post : str) (c d : char).

Lemma span_digits_spec s :
  s = (span_digits s).1 ++ (span_digits s).2
  /\ forallb isdecimal (span_digits s).1 = true
  /\ match (span_digits s).2 with
     | c :: _ => isdecimal c = false
     | [] => True
     end.
Proof.
  induction s as [| c s (IH1 & IH2 & IH3)]; [done |]. simpl.
  destruct (isdecimal c) eqn:Hc.
  - destruct (span_digits s) as [ds rest]. simpl in *.
    rewrite Hc, IH2. by rewrite <- IH1.
  - simpl. by rewrite Hc.
Qed.

Lemma span_digits_app ds rest :
  forallb isdecimal ds = true ->
  match rest with
  | c :: _ => isdecimal c = false
  | [] => True
  end ->
  span_digits (ds ++ rest) = (ds, rest).
Proof.
  intros Hds Hrest. induction ds as [| d ds IH]; simpl.
  - destruct rest as [| c rest]; [reflexivity |]. simpl. by rewrite Hrest.
  - simpl in Hds. apply andb_true_iff in Hds as [Hd Hds].
    by rewrite Hd, IH.
Qed.

Lemma unspaced_percentage_Some s ds post :
  unspaced_percentage s = Some (ds, post)
  <-> s = 0x223C :: ds ++ 0x25 :: post
      /\ ds <> [] /\ forallb isdecimal ds = true.
Proof.
  split.
  - unfold unspaced_percentage.
    destruct s as [| c s1]; [discriminate |].
    destruct (N.eqb_spec c 0x223C) as [-> | Hc]; [| discriminate].
    destruct (span_digits_spec s1) as (H1 & H2 & _).
    destruct (span_digits s1) as [[| d ds'] [| p post']]; try discriminate.
    simpl in H1, H2.
    destruct (N.eqb_spec p 0x25) as [-> | Hp]; [| discriminate].
    intros [= <- <-]. by rewrite H1.
  - intros (-> & Hne & Hds). unfold unspaced_percentage.
    rewrite N.eqb_refl.
    rewrite (span_digits_app ds (0x25 :: post) Hds) by reflexivity.
    by destruct ds.
Qed.

End Percentage.

Section PercentageMatch.
Implicit Types (s ds post : str) (c d : char).

(** [\d*] before something that is not a digit stops where the digits
    stop. *)
Lemma star_digit_span {R : Type} (k : nat -> str -> groups -> option R)
    pos s g :
  (forall pos' c s', isdecimal c = true -> k pos' (c :: s') g = None) ->
  star_cls Digit pos s g k
  = k (pos + length (span_digits s).1)%nat (span_digits s).2 g.
Proof.
  intros Hk. revert pos. induction s as [| c s IH]; intros pos.
  - simpl. by rewrite Nat.add_0_r.
  - cbn [star_cls in_class span_digits].
    destruct (isdecimal c) eqn:Hc.
    + rewrite IH. destruct (span_digits s) as [ds rest]. cbn [fst snd length].
      replace (pos + S (length ds))%nat with (S pos + length ds)%nat by lia.
      destruct (k _ rest g); [reflexivity |]. by apply Hk.
    + cbn [fst snd length]. by rewrite Nat.add_0_r.
Qed.

Lemma percentage_match_at pos s :
  match_at percentage.1 pos s
  = match unspaced_percentage s with
    | Some (ds, post) => Some ((length ds + 2)%nat, [(1%nat, ds)])
    | None => None
    end.
Proof.
  unfold match_at, percentage, Plus, unspaced_percentage. cbn [fst cat].
  evaluate (U "∼"). evaluate (U "%"). cbn [Lit].
  rewrite !run_Seq, run_Chr.
  destruct s as [| c s1]; [reflexivity |].
  destruct (c =? 8764); [| reflexivity].
  rewrite run_Eps, run_Seq, run_Group, run_Seq, run_Cls.
  destruct s1 as [| d s2]; [reflexivity |].
  cbn [span_digits in_class].
  destruct (isdecimal d) eqn:Hd; [| reflexivity].
  rewrite run_Star_Cls, star_digit_span.
  - destruct (span_digits_spec s2) as (Hs2 & _).
    destruct (span_digits s2) as [ds rest]. cbn [fst snd] in *.
    rewrite !run_Seq, run_Chr.
    destruct rest as [| p post]; [reflexivity |].
    change 37 with 0x25. destruct (p =? 0x25); [| reflexivity].
    rewrite !run_Eps. f_equal. f_equal.
    + cbn [length]. lia.
    + f_equal. f_equal.
      replace (S (S pos) + length ds - S pos)%nat with (S (length ds)) by lia.
      rewrite Hs2. cbn [take]. f_equal. by rewrite take_app_length.
  - intros pos' c' s' Hc'. rewrite !run_Seq, run_Chr.
    destruct (N.eqb_spec c' 37) as [-> | Hne]; [| reflexivity].
    vm_compute in Hc'. discriminate.
Qed.

Lemma unspaced_percentage_nil : unspaced_percentage [] = None.
Proof. reflexivity. Qed.

End PercentageMatch.

Section FixPercentage.
Implicit Types (s ds post x y : str) (c d : char).

Lemma fix_percentage_nil : _fix_percentage_spacing [] = [].
Proof.
  apply (gsub_nil _ _ _ (fun pos s => percentage_match_at pos s)).
  reflexivity.
Qed.

Lemma fix_percentage_match s ds post :
  unspaced_percentage s = Some (ds, post) ->
  _fix_percentage_spacing s
  = 0x223C :: ds ++ [0x20; 0x25] ++ _fix_percentage_spacing post.
Proof.
  intros Hm. unfold _fix_percentage_spacing.
  rewrite (gsub_match _ _ _ (fun pos s => percentage_match_at pos s)
             eq_refl s (S (length ds)) [(1%nat, ds)]).
  - apply unspaced_percentage_Some in Hm as (-> & _ & _).
    assert (Hdrop : drop (S (S (length ds))) (0x223C :: ds ++ 0x25 :: post)
                    = post).
    { cbn [drop]. change (0x25 :: post) with ([0x25] ++ post).
      rewrite app_assoc. apply drop_app_length'.
      rewrite length_app. simpl. lia. }
    rewrite Hdrop. unfold percentage. cbn [snd expand group Nat.eqb default].
    evaluate (U "∼"). evaluate (U " %").
    rewrite app_nil_r. cbn [app]. by rewrite <- app_assoc.
  - rewrite Hm. do 2 f_equal. lia.
Qed.

Lemma fix_percentage_nomatch c s :
  unspaced_percentage (c :: s) = None ->
  _fix_percentage_spacing (c :: s) = c :: _fix_percentage_spacing s.
Proof.
  intros Hm. unfold _fix_percentage_spacing.
  apply (gsub_nomatch _ _ _ (fun pos s => percentage_match_at pos s)).
  by rewrite Hm.
Qed.

(** A character other than the tilde operator is copied. *)
Lemma fix_percentage_other c s :
  c <> 0x223C ->
  _fix_percentage_spacing (c :: s) = c :: _fix_percentage_spacing s.
Proof.
  intros Hc. apply fix_percentage_nomatch. unfold unspaced_percentage.
  by destruct (N.eqb_spec c 0x223C).
Qed.

(** The output starts with the character the input starts with. *)
Lemma fix_percentage_head s c o :
  _fix_percentage_spacing s = c :: o -> exists s', s = c :: s'.
Proof.
  destruct s as [| a s]; [by rewrite fix_percentage_nil |].
  destruct (unspaced_percentage (a :: s)) as [[ds post] |] eqn:Hm.
  - rewrite (fix_percentage_match _ _ _ Hm).
    apply unspaced_percentage_Some in Hm as (Hs & _).
    injection Hs as -> _. intros [= <- _]. by eexists.
  - rewrite (fix_percentage_nomatch _ _ Hm). intros [= <- _]. by eexists.
Qed.

Lemma isdecimal_not_tilde d : isdecimal d = true -> d <> 0x223C.
Proof. intros Hd ->. vm_compute in Hd. discriminate. Qed.

(** Digits followed by a percent sign in the output were there in the
    input. *)
Lemma fix_percentage_digits ds s o :
  forallb isdecimal ds = true ->
  _fix_percentage_spacing s = ds ++ 0x25 :: o ->
  exists s', s = ds ++ 0x25 :: s'.
Proof.
  intros Hds. revert s. induction ds as [| d ds IH]; intros s Hs.
  - by apply fix_percentage_head in Hs.
  - simpl in Hds. apply andb_true_iff in Hds as [Hd Hds].
    destruct (fix_percentage_head _ _ _ Hs) as [s' ->].
    rewrite (fix_percentage_other d s' (isdecimal_not_tilde d Hd)) in Hs.
    injection Hs as Hs. destruct (IH Hds s' Hs) as [s'' ->]. by eexists.
Qed.

Lemma unspaced_somewhere_digits ds s :
  forallb isdecimal ds = true ->
  unspaced_somewhere (ds ++ s) = unspaced_somewhere s.
Proof.
  intros Hds. induction ds as [| d ds IH]; [reflexivity |].
  simpl in Hds. apply andb_true_iff in Hds as [Hd Hds].
  cbn [app unspaced_somewhere]. rewrite (IH Hds).
  unfold unspaced_percentage.
  destruct (N.eqb_spec d 0x223C) as [-> | _]; [| by rewrite bool_decide_false
    by (by intros [])].
  vm_compute in Hd. discriminate.
Qed.

Lemma unspaced_somewhere_spaced ds o :
  forallb isdecimal ds = true ->
  unspaced_somewhere (0x223C :: ds ++ [0x20; 0x25] ++ o)
  = unspaced_somewhere o.
Proof.
  intros Hds. cbn [unspaced_somewhere].
  rewrite (unspaced_somewhere_digits ds _ Hds).
  assert (Hhead : unspaced_percentage (0x223C :: ds ++ [0x20; 0x25] ++ o)
                  = None).
  { unfold unspaced_percentage. rewrite N.eqb_refl.
    rewrite (span_digits_app ds _ Hds) by reflexivity.
    by destruct ds. }
  rewrite Hhead. rewrite bool_decide_false by (by intros []).
  reflexivity.
Qed.

Lemma fix_percentage_settled s :
  unspaced_somewhere s = false -> _fix_percentage_spacing s = s.
Proof.
  induction s as [| c s IH]; [intros _; apply fix_percentage_nil |].
  cbn [unspaced_somewhere]. intros [Hm Hs]%orb_false_iff.
  apply bool_decide_eq_false in Hm.
  rewrite fix_percentage_nomatch, (IH Hs); [reflexivity |].
  destruct (unspaced_percentage (c :: s)); [| reflexivity].
  destruct Hm. by eexists.
Qed.

Lemma fix_percentage_leaves_none s :
  unspaced_somewhere (_fix_percentage_spacing s) = false.
Proof.
  induction s as [s IH] using length_induction.
  destruct s as [| c s]; [by rewrite fix_percentage_nil |].
  destruct (unspaced_percentage (c :: s)) as [[ds post] |] eqn:Hm.
  - rewrite (fix_percentage_match _ _ _ Hm).
    apply unspaced_percentage_Some in Hm as (Hs & _ & Hds).
    rewrite (unspaced_somewhere_spaced ds _ Hds). apply IH.
    rewrite Hs. simpl. rewrite length_app. simpl. lia.
  - rewrite (fix_percentage_nomatch _ _ Hm). cbn [unspaced_somewhere].
    rewrite IH by (simpl; lia). rewrite orb_false_r.
    apply bool_decide_eq_false. intros [[ds post] Ho].
    apply unspaced_percentage_Some in Ho as (Ho & Hne & Hds).
    injection Ho as -> Ho.
    destruct (fix_percentage_digits ds s post Hds Ho) as [s' ->].
    assert (Hm' : unspaced_percentage (0x223C :: ds ++ 0x25 :: s')
                  = Some (ds, s')) by (by apply unspaced_percentage_Some).
    congruence.
Qed.

(** The tilde operator starts a match or is copied; no match reaches it
    from the left. *)
Lemma tilde_split ds x y post :
  forallb isdecimal ds = true ->
  x ++ 0x223C :: y = ds ++ 0x25 :: post ->
  exists x', x = ds ++ 0x25 :: x' /\ post = x' ++ 0x223C :: y.
Proof.
  intros Hds. revert x. induction ds as [| d ds IH]; intros x Hx.
  - destruct x as [| b x]; [discriminate |].
    injection Hx as -> <-. by exists x.
  - simpl in Hds. apply andb_true_iff in Hds as [Hd Hds].
    destruct x as [| b x].
    + injection Hx as <- _. vm_compute in Hd. discriminate.
    + injection Hx as -> Hx. destruct (IH Hds x Hx) as (x' & -> & ->).
      by exists x'.
Qed.

Lemma fix_percentage_cut x y :
  _fix_percentage_spacing (x ++ 0x223C :: y)
  = _fix_percentage_spacing x ++ _fix_percentage_spacing (0x223C :: y).
Proof.
  induction x as [x IH] using length_induction.
  destruct x as [| a x]; [by rewrite fix_percentage_nil |].
  cbn [app].
  destruct (unspaced_percentage (a :: x ++ 0x223C :: y))
    as [[ds post] |] eqn:Hm.
  - rewrite (fix_percentage_match _ _ _ Hm).
    apply unspaced_percentage_Some in Hm as (Hs & Hne & Hds).
    injection Hs as -> Hs.
    destruct (tilde_split ds x y post Hds Hs) as (x' & -> & ->).
    rewrite (fix_percentage_match (0x223C :: ds ++ 0x25 :: x') ds x')
      by (by apply unspaced_percentage_Some).
    rewrite IH by (simpl; rewrite length_app; simpl; lia).
    cbn [app]. by rewrite <- !app_assoc.
  - rewrite (fix_percentage_nomatch _ _ Hm).
    rewrite IH by (simpl; lia).
    rewrite (fix_percentage_nomatch a x); [reflexivity |].
    destruct (unspaced_percentage (a :: x)) as [[ds post] |] eqn:Hm';
      [| reflexivity].
    apply unspaced_percentage_Some in Hm' as (Hs & Hne & Hds).
    injection Hs as -> ->.
    assert (Hm'' : unspaced_percentage
                     (0x223C :: (ds ++ 0x25 :: post) ++ 0x223C :: y)
                   = Some (ds, post ++ 0x223C :: y)).
    { apply unspaced_percentage_Some. by rewrite <- app_assoc. }
    congruence.
Qed.

End FixPercentage.

(** X10. [_fix_percentage_spacing] puts a space before the percent sign of
    every unspaced percentage (the tilde operator, decimal digits, percent
    sign) and copies the rest: around such a percentage the text is
    treated piece by piece, and a text without one is returned as it
    is. *)
Theorem fix_percentage_spacing_inserts (pre ds post : str) :
  ds <> [] ->
  forallb isdecimal ds = true ->
  _fix_percentage_spacing (pre ++ 0x223C :: ds ++ 0x25 :: post)
  = _fix_percentage_spacing pre ++ 0x223C :: ds ++ [0x20; 0x25]
      ++ _fix_percentage_spacing post.
Proof.
  intros Hne Hds. rewrite fix_percentage_cut. f_equal.
  apply fix_percentage_match. by apply unspaced_percentage_Some.
Qed.

Lemma fix_percentage_spacing_inserts_witness :
  _fix_percentage_spacing (U "Kosten ∼30% niedriger")
  = _fix_percentage_spacing (U "Kosten ") ++ U "∼30 %"
      ++ _fix_percentage_spacing (U " niedriger").
Proof.
  apply (fix_percentage_spacing_inserts (U "Kosten ") (U "30")
           (U " niedriger")).
  - discriminate.
  - reflexivity.
Defined.

(** X11. After [_fix_percentage_spacing] no unspaced percentage is left,
    so a second application changes nothing; and a text that has none to
    begin with is returned unchanged. *)
Theorem fix_percentage_spacing_idempotent (text : str) :
  unspaced_somewhere (_fix_percentage_spacing text) = false
  /\ _fix_percentage_spacing (_fix_percentage_spacing text)
     = _fix_percentage_spacing text
  /\ (unspaced_somewhere text = false ->
      _fix_percentage_spacing text = text).
Proof.
  split; [apply fix_percentage_leaves_none |].
  split; [| apply fix_percentage_settled].
  apply fix_percentage_settled, fix_percentage_leaves_none.
Qed.

Lemma fix_percentage_spacing_idempotent_witness :
  _fix_percentage_spacing (U "∼ 30 % und 5%") = U "∼ 30 % und 5%".
Proof.
  apply (fix_percentage_spacing_idempotent (U "∼ 30 % und 5%")).
  reflexivity.
Defined.

(** ** The date rules and the slash *)

Section NeedsChar.
Variable a : char.
Implicit Types (s u : str) (c : char) (r : regex) (t : template).

(** A pattern that needs the character [a] leaves a text without it as it
    is. *)
Lemma sub_go_inert r t :
  (forall pos u, a ∉ u -> match_at r pos u = None) ->
  forall s pos, a ∉ s -> sub_go r t pos 0 s = s.
Proof.
  intros Hr s. induction s as [| c s IH]; intros pos Hs.
  - simpl. by rewrite Hr.
  - simpl. rewrite (Hr pos (c :: s) Hs). f_equal. apply IH.
    by apply not_elem_of_cons in Hs as [_ Hs].
Qed.

Lemma sub_inert r t s :
  (forall pos u, a ∉ u -> match_at r pos u = None) ->
  a ∉ s -> sub r t s = s.
Proof. intros Hr Hs. by apply sub_go_inert. Qed.

Lemma apply_rules_inert (rules : list rule) s :
  Forall (fun pr : rule =>
            forall pos u, a ∉ u -> match_at pr.1 pos u = None) rules ->
  a ∉ s -> apply_rules rules s = s.
Proof.
  intros Hrules Hs. unfold apply_rules.
  induction Hrules as [| pr rules Hpr _ IH]; [reflexivity |].
  simpl. by rewrite (sub_inert pr.1 pr.2 s Hpr Hs).
Qed.

End NeedsChar.

(** A pattern that spells out a character cannot match a text without
    it. *)
Ltac needs_char :=
  let pos := fresh "pos" in
  let u := fresh "u" in
  let Hu := fresh "Hu" in
  intros pos u Hu; unfold match_at;
  match goal with
  | |- run ?r _ _ _ _ = None =>
      let r' := eval vm_compute in r in change r with r'
  end;
  repeat
    first
      [ rewrite run_Seq
      | rewrite run_Eps
      | rewrite run_Group
      | rewrite run_Chr;
        destruct u as [| ? u]; [reflexivity |];
        match goal with
        | |- (if ?a =? ?b then _ else _) = None =>
            destruct (N.eqb_spec a b) as [-> | _]; [| reflexivity]
        end;
        try solve [exfalso; apply Hu; repeat first [by left | right]] ].

Lemma truncated_dates_need_slash :
  Forall (fun pr : rule =>
            forall pos u, 0x2F ∉ u -> match_at pr.1 pos u = None)
    truncated_dates.
Proof.
  unfold truncated_dates.
  repeat apply Forall_cons_2; [needs_char .. | apply Forall_nil_2].
Qed.

Lemma replacements_need_slash :
  Forall (fun pr : rule =>
            forall pos u, 0x2F ∉ u -> match_at pr.1 pos u = None)
    replacements.
Proof.
  unfold replacements.
  repeat apply Forall_cons_2; [needs_char .. | apply Forall_nil_2].
Qed.

Lemma run_replacements_need_slash :
  Forall (fun pr : rule =>
            forall pos u, 0x2F ∉ u -> match_at pr.1 pos u = None)
    run_replacements.
Proof.
  unfold run_replacements.
  repeat apply Forall_cons_2; [needs_char .. | apply Forall_nil_2].
Qed.

(** X12. The date rules act on slash dates only: a text without a slash
    comes unchanged out of [_fix_truncated_dates], out of the
    paragraph-level list of [_comprehensive_text_replacement] and out of
    the run-level list of [_fix_runs_directly]. *)
Theorem date_rules_need_slash (text : str) :
  0x2F ∉ text ->
  _fix_truncated_dates text = text
  /\ apply_rules replacements text = text
  /\ apply_rules run_replacements text = text.
Proof.
  intros Hs. repeat split.
  - by apply (apply_rules_inert 0x2F); [apply truncated_dates_need_slash |].
  - by apply (apply_rules_inert 0x2F); [apply replacements_need_slash |].
  - by apply (apply_rules_inert 0x2F);
      [apply run_replacements_need_slash |].
Qed.

Lemma date_rules_need_slash_witness :
  _fix_truncated_dates (U "seit 2022 bis heute") = U "seit 2022 bis heute".
Proof.
  apply (date_rules_need_slash (U "seit 2022 bis heute")).
  vm_compute. not_in_list.
Defined.

(** ** The photo *)

Section Photo.
Variable w : World.
Implicit Types (p : Paragraph) (ps : list Paragraph) (name_cell : Cell)
  (cells : list Cell) (rows : list Row) (paths : list string).

Lemma embed_photo_image photo_path name_cell p ps cells rows :
  files w !! photo_path = Some ImageFile ->
  embed_photo w photo_path ((name_cell :: (p :: ps) :: cells) :: rows)
  = (Returned tt,
     (name_cell :: (photo_paragraph photo_path p :: ps) :: cells) :: rows).
Proof. intros Hf. unfold embed_photo. simpl. by rewrite Hf. Qed.

Lemma embed_photo_other photo_path name_cell p ps cells rows :
  files w !! photo_path <> Some ImageFile ->
  embed_photo w photo_path ((name_cell :: (p :: ps) :: cells) :: rows)
  = (Raised UnrecognizedImageError,
     (name_cell :: (emptied_paragraph p :: ps) :: cells) :: rows).
Proof.
  intros Hf. unfold embed_photo. simpl.
  by destruct (files w !! photo_path) as [[| |] |].
Qed.

Lemma try_photo_paths_missing paths (table : Table) :
  Forall (fun q => path_exists w q = false) paths ->
  try_photo_paths w paths table = (false, table).
Proof.
  induction 1 as [| q paths Hq _ IH]; [reflexivity |].
  simpl. by rewrite Hq.
Qed.

(** A failed attempt leaves a paragraph with the same style and format, so
    that what a later attempt makes of the cell does not depend on it. *)
Lemma photo_paragraph_emptied photo_path p :
  photo_paragraph photo_path (emptied_paragraph p)
  = photo_paragraph photo_path p.
Proof. reflexivity. Qed.

Lemma emptied_paragraph_twice p :
  emptied_paragraph (emptied_paragraph p) = emptied_paragraph p.
Proof. reflexivity. Qed.

(** X13. The photo that ends up in the header is the first candidate
    path, in the order of [photo_paths], that holds an image: the first
    paragraph of the second cell of row 0 becomes right-aligned and holds
    that picture, 3 cm wide and 4 cm high, and nothing else in the table
    changes. Candidates before it that are missing, or present but not
    embeddable, leave no trace. *)
Theorem photo_first_image (before after : list string)
    (photo_path : string) name_cell p ps cells rows :
  Forall (fun q => files w !! q <> Some ImageFile) before ->
  files w !! photo_path = Some ImageFile ->
  try_photo_paths w (before ++ photo_path :: after)
    ((name_cell :: (p :: ps) :: cells) :: rows)
  = (true,
     (name_cell :: (photo_paragraph photo_path p :: ps) :: cells) :: rows).
Proof.
  intros Hbefore Himg. revert p.
  induction Hbefore as [| q before Hq _ IH]; intros p.
  - cbn [app try_photo_paths].
    assert (Hex : path_exists w photo_path = true).
    { unfold path_exists. rewrite Himg. by apply bool_decide_eq_true. }
    by rewrite Hex, (embed_photo_image _ _ _ _ _ _ Himg).
  - cbn [app try_photo_paths]. destruct (path_exists w q); [| apply IH].
    rewrite (embed_photo_other _ _ _ _ _ _ Hq), IH.
    by rewrite photo_paragraph_emptied.
Qed.

(** X14. Where no candidate path holds an image, no photo is embedded:
    the table is untouched when none of the paths exists; when one exists
    but cannot be embedded, the first paragraph of the photo cell has been
    emptied and right-aligned by the attempt and stays so. *)
Theorem photo_not_embedded paths name_cell p ps cells rows :
  Forall (fun q => files w !! q <> Some ImageFile) paths ->
  try_photo_paths w paths ((name_cell :: (p :: ps) :: cells) :: rows)
  = (false,
     if forallb (fun q => negb (path_exists w q)) paths
     then (name_cell :: (p :: ps) :: cells) :: rows
     else (name_cell :: (emptied_paragraph p :: ps) :: cells) :: rows).
Proof.
  intros Hpaths. revert p.
  induction Hpaths as [| q paths Hq _ IH]; intros p; [reflexivity |].
  cbn [try_photo_paths forallb]. destruct (path_exists w q); cbn [negb andb].
  - rewrite (embed_photo_other _ _ _ _ _ _ Hq), IH.
    by destruct (forallb _ paths).
  - apply IH.
Qed.

End Photo.

Lemma photo_first_image_witness :
  let w := mkWorld {[ "/srv/presidency photo.png"%string := ImageFile;
                      "presidency photo.png"%string := OtherFile ]} [] in
  (_add_photo_to_header_table Sample.env Sample.self w
     [[Sample.cell ["Arman Shirzad"%string]; Sample.cell [""%string]]]).2
  = [[Sample.cell ["Arman Shirzad"%string];
      [photo_paragraph "/srv/presidency photo.png" (Sample.par "")]]].
Proof.
  cbn zeta. unfold _add_photo_to_header_table. cbn [snd].
  change (photo_paths Sample.env Sample.self)
    with (["presidency photo.png"%string;
           "uploads/presidency photo.png"%string]
          ++ ["/srv/presidency photo.png"%string]).
  unfold Sample.cell. cbn [map].
  rewrite photo_first_image; [reflexivity | | reflexivity].
  repeat constructor; vm_compute; discriminate.
Defined.

Lemma photo_not_embedded_witness :
  let w := mkWorld {[ "presidency photo.png"%string := OtherFile ]} [] in
  (_add_photo_to_header_table Sample.env Sample.self w
     [[Sample.cell ["Arman Shirzad"%string]; Sample.cell ["Foto"%string]]]).2
  = [[Sample.cell ["Arman Shirzad"%string];
      [emptied_paragraph (Sample.par "Foto")]]].
Proof.
  cbn zeta. unfold _add_photo_to_header_table. cbn [snd].
  unfold Sample.cell. cbn [map].
  rewrite photo_not_embedded; [reflexivity |].
  repeat constructor; vm_compute; discriminate.
Defined.

(** ** The contact line of the header *)

Lemma clean_header_line_phone line l :
  clean_header_line line = Some l ->
  contains CITY l = true -> contains EMAIL l = true ->
  contains PHONE l = true.
Proof.
  rewrite clean_header_line_spec.
  destruct (contains CITY line && contains EMAIL line) eqn:Hce.
  - destruct (contains PHONE line) eqn:Hp; intros [= <-] _ _.
    + by rewrite !marker_replaced, marker_stripped by apply PHONE_marker.
    + reflexivity.
  - destruct (contains NAME line); intros [= <-].
    rewrite (marker_cleaned CITY), (marker_cleaned EMAIL)
      by auto using CITY_marker, EMAIL_marker.
    intros Hc He. by rewrite Hc, He in Hce.
Qed.

(** X15. Every contact line of the rebuilt header carries the phone
    number: a line of [cleaned_lines] that has the location marker and the
    email marker has the phone number too, whether it was kept, regenerated
    or appended. *)
Theorem header_contact_has_phone (header_text l : str) :
  l ∈ cleaned_header_lines header_text ->
  contains CITY l = true ->
  contains EMAIL l = true ->
  contains PHONE l = true.
Proof.
  unfold cleaned_header_lines. cbn zeta.
  set (cl := omap clean_header_line (split LF header_text)).
  assert (Hcl : forall x, x ∈ cl -> contains CITY x = true ->
                          contains EMAIL x = true ->
                          contains PHONE x = true).
  { intros x (line & _ & Hx)%list_elem_of_omap.
    by apply (clean_header_line_phone line). }
  assert (Hcl1 : forall x,
            x ∈ (if existsb (contains NAME) cl then cl else NAME :: cl) ->
            contains CITY x = true -> contains EMAIL x = true ->
            contains PHONE x = true).
  { intros x Hx. destruct (existsb (contains NAME) cl); [by apply Hcl |].
    apply elem_of_cons in Hx as [-> | Hx]; [| by apply Hcl].
    vm_compute. discriminate. }
  intros Hl. destruct (existsb (contains CITY) _); [by apply Hcl1 |].
  apply elem_of_app in Hl as [Hl | Hl]; [by apply Hcl1 |].
  apply list_elem_of_singleton in Hl as ->. reflexivity.
Qed.

Lemma header_contact_has_phone_witness :
  contains PHONE CONTACT = true.
Proof.
  apply (header_contact_has_phone
           (U "Arman Shirzad" ++ [LF]
              ++ U "Cottbus, Germany \quad shirzarm@b-tu.de")
           CONTACT).
  - vm_compute. right. by left.
  - reflexivity.
  - reflexivity.
Defined.

(** ** The command line *)

Section Main.
Import Cli.
Variable env : Env.

Lemma convert_each_missing fs n w :
  Forall (fun f => path_exists w f = false) fs ->
  convert_each env fs n w = (Returned n, w).
Proof.
  induction 1 as [| f fs Hf _ IH]; [reflexivity |].
  simpl. by rewrite Hf.
Qed.

(** X16. When none of the input files exists, [main] converts nothing: no
    command is run, the file system is left as it is, and the program ends
    with exit status 1. *)
Theorem main_nothing_to_convert (argv : list string) (w : World) :
  Forall (fun f => path_exists w f = false) (input_files argv) ->
  main env argv w = (Returned (SystemExit 1), w).
Proof.
  intros Hmiss. unfold main. by rewrite (convert_each_missing _ 0 w Hmiss).
Qed.

Lemma convert_each_files fs n w p :
  Forall (fun f => p <> docx_for f
                   /\ p <> temp_docx_path (mkSelf f (docx_for f))) fs ->
  files (convert_each env fs n w).2 !! p = files w !! p.
Proof.
  intros Hfs. revert n w.
  induction Hfs as [| f fs [Hout Htmp] _ IH]; intros n w; [reflexivity |].
  simpl. destruct (path_exists w f); simpl; [| apply IH].
  pose proof (convert_files env (mkSelf f (docx_for f)) (mkState w None) p
                Htmp Hout) as Hc.
  destruct (convert env _ _) as [[b | e] st]; simpl in *.
  - by rewrite IH.
  - exact Hc.
Qed.

(** X17. [main] writes and removes nothing but the outputs and drafts of
    its input files: a path that is neither the [.docx] path nor the
    [temp_] path belonging to one of the inputs holds after [main] what it
    held before, however [main] ends. *)
Theorem main_touches_outputs_only (argv : list string) (w : World)
    (p : string) :
  Forall (fun f => p <> docx_for f
                   /\ p <> temp_docx_path (mkSelf f (docx_for f)))
    (input_files argv) ->
  files (main env argv w).2 !! p = files w !! p.
Proof.
  intros Hfs. unfold main.
  pose proof (convert_each_files (input_files argv) 0 w p Hfs) as H.
  destruct (convert_each env (input_files argv) 0 w) as [[n | e] w'];
    simpl in *; [| exact H].
  by destruct (Nat.eqb n 0).
Qed.

Lemma convert_each_app before rest n w :
  convert_each env (before ++ rest) n w
  = match convert_each env before n w with
    | (Returned n', w') => convert_each env rest n' w'
    | (Raised e, w') => (Raised e, w')
    end.
Proof.
  revert n w. induction before as [| f before IH]; intros n w.
  - reflexivity.
  - cbn [app convert_each]. destruct (negb (path_exists w f)); [apply IH |].
    destruct (convert env _ _) as [[b | e] st]; [apply IH | reflexivity].
Qed.

(** X18. [main] does not catch what [convert] raises: once the loop has
    got through the input files before [f], converting some and skipping
    those that do not exist, an exception raised by the conversion of [f]
    ends the whole run with that exception, leaving the file system as that
    conversion left it; the files after [f] are not looked at. *)
Theorem main_aborts_on_exception (argv before rest : list string)
    (f : string) (w w1 : World) (n : nat) (e : exn) :
  input_files argv = before ++ f :: rest ->
  convert_each env before 0 w = (Returned n, w1) ->
  path_exists w1 f = true ->
  (convert env (mkSelf f (docx_for f)) (mkState w1 None)).1 = Raised e ->
  main env argv w
  = (Raised e,
     world (convert env (mkSelf f (docx_for f)) (mkState w1 None)).2).
Proof.
  intros Hfiles Hbefore Hex Hraise. unfold main.
  rewrite Hfiles, convert_each_app, Hbefore.
  cbn [convert_each]. rewrite Hex. cbn [negb].
  destruct (convert env _ _) as [[b | e'] st]; simpl in *; congruence.
Qed.

End Main.

Section OutputName.
Import Cli.
Implicit Types (r e t h : list ascii) (c : ascii).

Lemma list_ascii_of_string_inj (a b : string) :
  list_ascii_of_string a = list_ascii_of_string b -> a = b.
Proof.
  intros H. rewrite <- (string_of_list_ascii_of_string a), H.
  apply string_of_list_ascii_of_string.
Qed.

Lemma split_ext_free e :
  Forall (fun c => is_dot c = false) e -> split_ext e = (e, []).
Proof.
  induction 1 as [| c e Hc _ IH]; [reflexivity |].
  simpl. by rewrite IH, Hc.
Qed.

Lemma split_ext_last_dot r e :
  Forall (fun c => is_dot c = false) e ->
  split_ext (r ++ "."%char :: e) = (r, "."%char :: e).
Proof.
  intros He. induction r as [| c r IH]; simpl.
  - by rewrite (split_ext_free e He).
  - by rewrite IH.
Qed.

(** X19. [main] names the output after the input: for an input path that
    ends in [.tex] the output path is the same path with [.docx] in its
    place, in the same directory, provided the file name has a character
    other than a dot before the extension. *)
Theorem docx_for_tex (dir name : string) :
  (dir = ""%string
   \/ last (list_ascii_of_string dir) = Some "/"%char) ->
  Forall (fun c => is_slash c = false) (list_ascii_of_string name) ->
  forallb is_dot (list_ascii_of_string name) = false ->
  docx_for (dir +:+ name +:+ ".tex") = (dir +:+ name +:+ ".docx")%string.
Proof.
  intros Hdir Hname Hdots. unfold docx_for, splitext_root.
  rewrite !list_ascii_of_string_append.
  set (h := list_ascii_of_string dir) in *.
  set (r := list_ascii_of_string name) in *.
  assert (Hfree : Forall (fun c => is_slash c = false)
                    (r ++ list_ascii_of_string ".tex")).
  { apply Forall_app. split; [exact Hname | repeat constructor]. }
  assert (Hsplit : split_last (h ++ r ++ list_ascii_of_string ".tex")
                   = (h, r ++ list_ascii_of_string ".tex")).
  { destruct Hdir as [Hd | Hd].
    - unfold h. rewrite Hd. simpl app. by apply split_last_free.
    - apply last_Some in Hd as [h' Hh]. rewrite Hh, <- app_assoc.
      simpl app. rewrite (split_last_slash h' "/"%char) by done.
      reflexivity. }
  rewrite Hsplit.
  change (list_ascii_of_string ".tex")
    with ("."%char :: list_ascii_of_string "tex").
  rewrite split_ext_last_dot by repeat constructor.
  rewrite Hdots. apply list_ascii_of_string_inj.
  rewrite !list_ascii_of_string_append, list_ascii_of_string_of_list_ascii.
  fold h r. by rewrite app_assoc.
Qed.

End OutputName.

Lemma docx_for_tex_witness :
  Cli.docx_for "uploads/cv.v2.tex" = "uploads/cv.v2.docx"%string.
Proof.
  apply (docx_for_tex "uploads/" "cv.v2").
  - by right.
  - repeat constructor.
  - reflexivity.
Defined.

Lemma main_nothing_to_convert_witness :
  Cli.main Sample.env ["latex_to_word.py"%string]
    (world Sample.start)
  = (Returned (Cli.SystemExit 1), world Sample.start).
Proof.
  apply main_nothing_to_convert. repeat constructor.
Defined.

Lemma main_aborts_on_exception_witness :
  (Cli.main Sample.env_two_sources
     ["latex_to_word.py"%string; "cvde.tex"%string;
      "uploads/cv.tex"%string; "uploads/en.tex"%string; "cven.tex"%string]
     Sample.two_sources).1
  = Raised ValueError.
Proof.
  rewrite (main_aborts_on_exception Sample.env_two_sources _
             ["cvde.tex"%string; "uploads/cv.tex"%string]
             ["cven.tex"%string] "uploads/en.tex" Sample.two_sources
             (Cli.convert_each Sample.env_two_sources
                ["cvde.tex"%string; "uploads/cv.tex"%string] 0
                Sample.two_sources).2
             1 ValueError).
  - reflexivity.
  - reflexivity.
  - vm_compute. reflexivity.
  - vm_compute. reflexivity.
  - vm_compute. reflexivity.
Defined.

Lemma main_touches_outputs_only_witness :
  files (Cli.main Sample.env
           ["latex_to_word.py"%string; "uploads/cv.tex"%string]
           (world Sample.start)).2 !! "uploads/cv.tex"%string
  = Some OtherFile.
Proof.
  rewrite main_touches_outputs_only; [reflexivity |].
  repeat constructor; vm_compute; discriminate.
Defined.

(** ** A paragraph that is a single digit *)

Section SingleDigit.
Implicit Types (t : str) (c d : char) (p : Paragraph).

(** A digit line is white space, one decimal digit, white space. *)
Lemma digit_line_chars t c :
  digit_line t = true -> c ∈ t -> isspace c = true \/ isdecimal c = true.
Proof.
  unfold digit_line, strip. intros Hd Hc.
  destruct (lstrip_spec t) as (sp1 & Ht & Hsp1).
  destruct (rstrip_spec (lstrip t)) as (sp2 & Hl & Hsp2).
  destruct (rstrip (lstrip t)) as [| d [| ? ?]]; try discriminate.
  rewrite Ht, Hl in Hc.
  rewrite !elem_of_app, list_elem_of_singleton in Hc.
  rewrite forallb_forall in Hsp1, Hsp2.
  destruct Hc as [Hc | [-> | Hc]].
  - left. by apply Hsp1, list_elem_of_In.
  - by right.
  - left. by apply Hsp2, list_elem_of_In.
Qed.

Lemma unspaced_somewhere_no_tilde t :
  0x223C ∉ t -> unspaced_somewhere t = false.
Proof.
  induction t as [| c t IH]; [reflexivity |].
  intros [Hc Ht]%not_elem_of_cons. cbn [unspaced_somewhere].
  rewrite (IH Ht), orb_false_r. apply bool_decide_eq_false.
  unfold unspaced_percentage.
  destruct (N.eqb_spec c 0x223C); [congruence | by intros []].
Qed.

Lemma fix_text_digit_line t :
  digit_line t = true -> LF ∉ t -> fix_text t = [].
Proof.
  intros Hd Hlf. unfold fix_text. cbn zeta.
  assert (Hnot : forall c, isspace c = false -> isdecimal c = false ->
                           c ∉ t).
  { intros c Hs Hn Hc.
    destruct (digit_line_chars t c Hd Hc); congruence. }
  unfold _fix_truncated_dates.
  rewrite (apply_rules_inert 0x2F _ t truncated_dates_need_slash)
    by (by apply Hnot).
  rewrite fix_percentage_settled
    by (by apply unspaced_somewhere_no_tilde, Hnot).
  rewrite remove_stray_page_numbers_filter, (split_single LF t Hlf).
  simpl. by rewrite Hd.
Qed.

(** X20. A paragraph whose text is one decimal digit, with or without
    blanks around it and without a line break, is emptied by the
    text-correction engine: the paragraph stays, its text is gone. This
    holds for top-level paragraphs and for paragraphs in table cells. *)
Theorem single_digit_paragraph_emptied (d : Document) (p : Paragraph) :
  digit_line (text p) = true ->
  LF ∉ text p ->
  (forall i,
     paragraphs d !! i = Some p ->
     exists p', paragraphs (fix_text_issues d) !! i = Some p'
                /\ text p' = [])
  /\ (forall i (table : Table) j (row : Row) k (cell : Cell) l,
        tables d !! i = Some table -> table !! j = Some row ->
        row !! k = Some cell -> cell !! l = Some p ->
        exists (table' : Table) (row' : Row) (cell' : Cell) p',
          tables (fix_text_issues d) !! i = Some table'
          /\ table' !! j = Some row' /\ row' !! k = Some cell'
          /\ cell' !! l = Some p' /\ text p' = []).
Proof.
  intros Hd Hlf.
  assert (Hp : text (fix_paragraph p) = []).
  { unfold fix_paragraph. cbn zeta.
    set (p1 := update_text fix_text p).
    assert (Ht1 : text p1 = []).
    { unfold p1. rewrite text_update_text. by apply fix_text_digit_line. }
    assert (Hr1 : exists r, runs p1 = [r]).
    { unfold p1, update_text. cbn zeta.
      rewrite (fix_text_digit_line _ Hd Hlf).
      destruct (decide ([] = text p)) as [He | _]; [| by eexists].
      exfalso. unfold digit_line in Hd. rewrite <- He in Hd. discriminate. }
    pose proof (update_text_single (apply_rules replacements) _ Hr1) as Hr2.
    destruct (update_runs_single (apply_rules run_replacements) _ Hr2)
      as [Hr3 Ht3].
    pose proof (update_text_single (apply_rules content_fixes) _ Hr3) as Hr4.
    destruct (update_runs_single (apply_rules content_fixes) _ Hr4)
      as [Hr5 Ht5].
    by rewrite text_update_text, Ht5, text_update_text, Ht3,
      text_update_text, Ht1. }
  rewrite fix_text_issues_paragraphs. cbn [paragraphs tables]. split.
  - intros i Hi. exists (fix_paragraph p). split; [| exact Hp].
    by apply (lookup_map_Some fix_paragraph).
  - intros i table j row k cell l Ht Hrow Hc Hl.
    exists (map (map (map fix_paragraph)) table),
      (map (map fix_paragraph) row), (map fix_paragraph cell),
      (fix_paragraph p).
    repeat split; try exact Hp.
    + by apply (lookup_map_Some (map (map (map fix_paragraph)))).
    + by apply (lookup_map_Some (map (map fix_paragraph))).
    + by apply (lookup_map_Some (map fix_paragraph)).
    + by apply (lookup_map_Some fix_paragraph).
Qed.

End SingleDigit.

Lemma single_digit_paragraph_emptied_witness :
  exists p',
    paragraphs
      (fix_text_issues
         (mkDocument [Sample.par "Stufe"; Sample.par " 3 "] [] ∅ []))
      !! 1%nat = Some p'
    /\ text p' = [].
Proof.
  apply (single_digit_paragraph_emptied
           (mkDocument [Sample.par "Stufe"; Sample.par " 3 "] [] ∅ [])
           (Sample.par " 3 ")).
  - reflexivity.
  - vm_compute. not_in_list.
  - reflexivity.
Defined.

(** ** Duplicates *)

Section Duplicates.
Implicit Types (w ws s post : str) (c : char) (g : groups).

Lemma run_Lit_app {R : Type} w s pos g
    (k : nat -> str -> groups -> option R) :
  run (Lit w) pos (w ++ s) g k = k (pos + length w)%nat s g.
Proof.
  revert pos. induction w as [| c w IH]; intros pos.
  - simpl. by rewrite Nat.add_0_r.
  - cbn [Lit app length]. rewrite run_Seq, run_Chr, N.eqb_refl, IH.
    f_equal. lia.
Qed.

Lemma run_Lit_nil {R : Type} c w pos g
    (k : nat -> str -> groups -> option R) :
  run (Lit (c :: w)) pos [] g k = None.
Proof. reflexivity. Qed.

(** The greedy star takes the whole run when the rest of the pattern
    matches behind it. *)
Lemma star_cls_greedy {R : Type} cl ws rest pos g
    (k : nat -> str -> groups -> option R) x :
  forallb (in_class cl) ws = true ->
  match rest with
  | c :: _ => in_class cl c = false
  | [] => True
  end ->
  k (pos + length ws)%nat rest g = Some x ->
  star_cls cl pos (ws ++ rest) g k = Some x.
Proof.
  intros Hws Hrest. revert pos.
  induction ws as [| c ws IH]; intros pos Hk.
  - rewrite Nat.add_0_r in Hk. destruct rest as [| c rest]; [exact Hk |].
    cbn [app star_cls]. by rewrite Hrest.
  - simpl in Hws. apply andb_true_iff in Hws as [Hc Hws].
    cbn [app star_cls]. rewrite Hc, (IH Hws (S pos)); [reflexivity |].
    rewrite <- Hk. f_equal. simpl. lia.
Qed.

(** [(w)\s+\1] at a doubled [w]. *)
Lemma duplicate_match w c ws post pos :
  starts_nonspace w = true ->
  isspace c = true -> forallb isspace ws = true ->
  match_at (cat [Group 1 (Lit w); Plus (Cls Space); Backref 1]) pos
    (w ++ (c :: ws) ++ w ++ post)
  = Some ((length w + S (length ws) + length w)%nat, [(1%nat, w)]).
Proof.
  intros Hw Hc Hws. unfold match_at, Plus. cbn [cat].
  rewrite run_Seq, run_Group, run_Lit_app.
  rewrite !run_Seq, run_Cls. cbn [app in_class]. rewrite Hc.
  rewrite run_Star_Cls.
  replace (pos + length w - pos)%nat with (length w) by lia.
  rewrite take_app_length.
  erewrite star_cls_greedy; [reflexivity | exact Hws | |].
  - destruct w as [| a w]; [discriminate |]. simpl in Hw |- *.
    by apply negb_true_iff in Hw.
  - rewrite run_Seq. cbn [run group Nat.eqb].
    rewrite startswith_app. do 2 f_equal. lia.
Qed.

(** After a match that reaches the end of the text nothing is left to
    copy. *)
Lemma sub_go_skip_all r t s pos :
  (forall pos', match_at r pos' [] = None) ->
  sub_go r t pos (length s) s = [].
Proof.
  intros Hnil. revert pos. induction s as [| c s IH]; intros pos.
  - simpl. by rewrite Hnil.
  - apply IH.
Qed.

Lemma sub_duplicate w c ws :
  w <> [] -> starts_nonspace w = true ->
  isspace c = true -> forallb isspace ws = true ->
  sub (cat [Group 1 (Lit w); Plus (Cls Space); Backref 1]) [TRef 1]
    (w ++ (c :: ws) ++ w)
  = w.
Proof.
  intros Hne Hw Hc Hws. unfold sub.
  destruct w as [| a w']; [done |]. set (w := a :: w') in *.
  pose proof (duplicate_match w c ws [] 0 Hw Hc Hws) as Hm.
  rewrite app_nil_r in Hm.
  change (w ++ (c :: ws) ++ w) with (a :: (w' ++ (c :: ws) ++ w)) in *.
  cbn [sub_go]. rewrite Hm. cbn [expand group Nat.eqb default].
  rewrite app_nil_r.
  replace (length w + S (length ws) + length w)%nat
    with (S (length (w' ++ (c :: ws) ++ w)))
    by (unfold w; repeat first [rewrite length_app | progress simpl]; lia).
  rewrite sub_go_skip_all; [apply app_nil_r |].
  intros pos'. unfold match_at. cbn [cat].
  by rewrite run_Seq, run_Group.
Qed.

End Duplicates.

Lemma duplicate_patterns_need :
  Forall2 (fun (a : char) (pr : rule) =>
             forall pos u, a ∉ u -> match_at pr.1 pos u = None)
    [0x223C; 0x43; 0x40; 0x41] duplicate_patterns.
Proof.
  unfold duplicate_patterns.
  repeat apply Forall2_cons_2; [needs_char .. | apply Forall2_nil_2].
Qed.

Lemma not_in_doubled (a : char) (w ws : str) :
  a ∉ w -> isspace a = false -> forallb isspace ws = true ->
  a ∉ w ++ ws ++ w.
Proof.
  intros Hw Ha Hws. rewrite !elem_of_app. intros [H | [H | H]]; try done.
  rewrite forallb_forall in Hws. apply list_elem_of_In, Hws in H.
  congruence.
Qed.

(** X21. [_clean_duplicates] reduces a doubled location, email address or
    name to one copy, whatever white space separates the two copies: a
    paragraph whose text is such a pair is left with the single copy as
    its text. *)
Theorem clean_duplicates_pair (w ws : str) :
  w ∈ [U "Cottbus, Germany"; U "shirzarm@b-tu.de"; U "Arman Shirzad"] ->
  ws <> [] ->
  forallb isspace ws = true ->
  apply_rules duplicate_patterns (w ++ ws ++ w) = w
  /\ forall (d : Document) (i : nat) (p : Paragraph),
       paragraphs d !! i = Some p ->
       text p = w ++ ws ++ w ->
       exists p',
         paragraphs (_clean_duplicates d) !! i = Some p' /\ text p' = w.
Proof.
  intros Hw Hne Hws.
  assert (Htext : apply_rules duplicate_patterns (w ++ ws ++ w) = w).
  { destruct ws as [| c ws']; [done |]. clear Hne.
    pose proof Hws as Hws0.
    cbn [forallb] in Hws. apply andb_true_iff in Hws as [Hc Hws'].
    pose proof duplicate_patterns_need as Hneed.
    unfold duplicate_patterns in *.
    apply Forall2_cons_1 in Hneed as [H1 Hneed].
    apply Forall2_cons_1 in Hneed as [H2 Hneed].
    apply Forall2_cons_1 in Hneed as [H3 Hneed].
    apply Forall2_cons_1 in Hneed as [H4 _].
    unfold apply_rules. cbn [fold_left fst snd] in *.
    repeat (apply elem_of_cons in Hw as [-> | Hw]);
      [| | | by apply elem_of_nil in Hw].
    - rewrite (sub_inert 0x223C _ _ _ H1)
        by (apply not_in_doubled; [vm_compute; not_in_list | done | done]).
      rewrite (sub_duplicate (U "Cottbus, Germany") c ws') by done.
      rewrite (sub_inert 0x40 _ _ _ H3) by (vm_compute; not_in_list).
      by rewrite (sub_inert 0x41 _ _ _ H4) by (vm_compute; not_in_list).
    - rewrite (sub_inert 0x223C _ _ _ H1)
        by (apply not_in_doubled; [vm_compute; not_in_list | done | done]).
      rewrite (sub_inert 0x43 _ _ _ H2)
        by (apply not_in_doubled; [vm_compute; not_in_list | done | done]).
      rewrite (sub_duplicate (U "shirzarm@b-tu.de") c ws') by done.
      by rewrite (sub_inert 0x41 _ _ _ H4) by (vm_compute; not_in_list).
    - rewrite (sub_inert 0x223C _ _ _ H1)
        by (apply not_in_doubled; [vm_compute; not_in_list | done | done]).
      rewrite (sub_inert 0x43 _ _ _ H2)
        by (apply not_in_doubled; [vm_compute; not_in_list | done | done]).
      rewrite (sub_inert 0x40 _ _ _ H3)
        by (apply not_in_doubled; [vm_compute; not_in_list | done | done]).
      by rewrite (sub_duplicate (U "Arman Shirzad") c ws') by done. }
  split; [exact Htext |].
  intros d i p Hi Hp.
  exists (update_text (apply_rules duplicate_patterns) p). split.
  - unfold _clean_duplicates, each_table_paragraph, each_paragraph. simpl.
    by apply (lookup_map_Some (update_text (apply_rules duplicate_patterns))).
  - by rewrite text_update_text, Hp.
Qed.

Lemma clean_duplicates_pair_witness :
  apply_rules duplicate_patterns
    (U "Arman Shirzad" ++ [LF; 0x20] ++ U "Arman Shirzad")
  = U "Arman Shirzad".
Proof.
  apply (clean_duplicates_pair (U "Arman Shirzad") [LF; 0x20]).
  - do 2 right. by left.
  - discriminate.
  - reflexivity.
Defined.

(** ** Paragraphs the engine leaves alone *)

Section Plain.
Implicit Types (t s : str) (c a : char) (p : Paragraph) (r : Run).

Lemma apply_rules_inert_each (chars : list char) (rules : list rule) s :
  Forall2 (fun (a : char) (pr : rule) =>
             forall pos u, a ∉ u -> match_at pr.1 pos u = None)
    chars rules ->
  Forall (fun a => a ∉ s) chars ->
  apply_rules rules s = s.
Proof.
  intros Hrules. unfold apply_rules.
  induction Hrules as [| a pr chars rules Hpr _ IH]; [reflexivity |].
  intros [Ha Hchars]%Forall_cons_1. simpl.
  rewrite (sub_inert a pr.1 pr.2 s Hpr Ha). by apply IH.
Qed.

Lemma content_fixes_need :
  Forall2 (fun (a : char) (pr : rule) =>
             forall pos u, a ∉ u -> match_at pr.1 pos u = None)
    [0x2F; 0x223C; 0x223C; 0x2F; 0x4E; 0x4B; 0x5C; 0x5C; 0x5C]
    content_fixes.
Proof.
  unfold content_fixes.
  repeat apply Forall2_cons_2; [needs_char .. | apply Forall2_nil_2].
Qed.

Lemma update_text_id (f : str -> str) p :
  f (text p) = text p -> update_text f p = p.
Proof. intros Hf. unfold update_text. by rewrite decide_True. Qed.

Lemma update_runs_id (f : str -> str) p :
  Forall (fun r => f (run_text r) = run_text r) (runs p) ->
  update_runs f p = p.
Proof.
  intros Hf. unfold update_runs. destruct p as [rs st al pf]. simpl in *.
  f_equal. induction Hf as [| r rs Hr _ IH]; [reflexivity |].
  simpl. rewrite IH. f_equal. unfold update_run. by rewrite decide_True.
Qed.

Lemma run_text_chars p r c : r ∈ runs p -> c ∈ run_text r -> c ∈ text p.
Proof.
  intros Hr Hc. unfold text. apply list_elem_of_In, in_concat.
  exists (run_text r). split; [| by apply list_elem_of_In].
  apply in_map. by apply list_elem_of_In.
Qed.

Lemma plain_fixed t :
  plain t ->
  fix_text t = t
  /\ apply_rules replacements t = t
  /\ apply_rules content_fixes t = t
  /\ apply_rules duplicate_patterns t = t.
Proof.
  intros [Hchars Hlines]. unfold trigger_chars in Hchars.
  assert (Hin : forall a, a ∈ trigger_chars -> a ∉ t).
  { intros a Ha. rewrite Forall_forall in Hchars. by apply Hchars. }
  assert (H47 : 0x2F ∉ t) by (apply Hin; unfold trigger_chars; set_solver).
  assert (Hti : 0x223C ∉ t) by (apply Hin; unfold trigger_chars; set_solver).
  repeat split.
  - unfold fix_text, _fix_truncated_dates. cbn zeta.
    rewrite (apply_rules_inert 0x2F _ t truncated_dates_need_slash H47).
    rewrite (fix_percentage_settled t)
      by (by apply unspaced_somewhere_no_tilde).
    rewrite remove_stray_page_numbers_filter, forallb_filter_id.
    + apply join_split.
    + apply forallb_forall. intros l Hl%list_elem_of_In.
      rewrite Forall_forall in Hlines. by rewrite (Hlines l Hl).
  - by apply (apply_rules_inert 0x2F); [apply replacements_need_slash |].
  - apply (apply_rules_inert_each _ _ _ content_fixes_need).
    repeat constructor; apply Hin; unfold trigger_chars; set_solver.
  - apply (apply_rules_inert_each _ _ _ duplicate_patterns_need).
    repeat constructor; apply Hin; unfold trigger_chars; set_solver.
Qed.

Lemma plain_paragraph_fixed p : plain (text p) -> fix_paragraph p = p.
Proof.
  intros Hp. destruct (plain_fixed _ Hp) as (H1 & H2 & H3 & H4).
  destruct Hp as [Hchars _].
  assert (Hrun : forall a r, a ∈ trigger_chars -> r ∈ runs p ->
                             a ∉ run_text r).
  { intros a r Ha Hr Hc. rewrite Forall_forall in Hchars.
    apply (Hchars a Ha). by apply (run_text_chars p r). }
  unfold fix_paragraph. cbn zeta.
  rewrite (update_text_id fix_text p H1).
  rewrite (update_text_id _ p H2).
  rewrite (update_runs_id (apply_rules run_replacements) p).
  2: { apply Forall_forall. intros r Hr.
       apply (apply_rules_inert 0x2F); [apply run_replacements_need_slash |].
       apply Hrun; [unfold trigger_chars; set_solver | done]. }
  rewrite (update_text_id _ p H3).
  rewrite (update_runs_id (apply_rules content_fixes) p).
  2: { apply Forall_forall. intros r Hr.
       apply (apply_rules_inert_each _ _ _ content_fixes_need).
       repeat constructor; apply Hrun;
         first [done | unfold trigger_chars; set_solver]. }
  by apply update_text_id.
Qed.

(** X22. The engine has no rule for a paragraph whose text has none of the
    trigger characters and no line that is a single digit: such a
    paragraph comes out exactly as it went in, runs, fonts and pictures
    included, and a document made of such paragraphs, at top level and in
    its table cells, is returned unchanged. *)
Theorem engine_leaves_plain_paragraphs (d : Document) :
  Forall (fun p => plain (text p)) (paragraphs d) ->
  Forall (Forall (Forall (Forall (fun p => plain (text p))))) (tables d) ->
  fix_text_issues d = d.
Proof.
  intros Hps Hts. rewrite fix_text_issues_paragraphs.
  destruct d as [ps ts st ss]. simpl in *. f_equal.
  - rewrite <- (map_id ps) at 2. apply map_ext_Forall.
    eapply Forall_impl; [exact Hps |]. apply plain_paragraph_fixed.
  - rewrite <- (map_id ts) at 2. apply map_ext_Forall.
    eapply Forall_impl; [exact Hts |]. intros t Ht. cbn beta.
    rewrite <- (map_id t) at 2. apply map_ext_Forall.
    eapply Forall_impl; [exact Ht |]. intros row Hrow. cbn beta.
    rewrite <- (map_id row) at 2. apply map_ext_Forall.
    eapply Forall_impl; [exact Hrow |]. intros c Hc. cbn beta.
    rewrite <- (map_id c) at 2. apply map_ext_Forall.
    eapply Forall_impl; [exact Hc |]. apply plain_paragraph_fixed.
Qed.

End Plain.

Lemma engine_leaves_plain_paragraphs_witness :
  let d := mkDocument
             [ mkParagraph
                 [ mkRun (U "Python, ") (mkFont None None (Some true) None)
                     None;
                   mkRun (U "5 Jahre") no_font None ]
                 None None no_format ]
             [[[ [Sample.par "Deutsch"; Sample.par "B2"] ]]] ∅ [] in
  fix_text_issues d = d.
Proof.
  cbn zeta. apply engine_leaves_plain_paragraphs.
  - repeat constructor; vm_compute; not_in_list.
  - repeat constructor; vm_compute; not_in_list.
Defined.
